(** * WolfMUD: lock ordering, the command cycle, action events, combat
      and record jars

    A shallow embedding of the parts of WolfMUD that decide the lock order
    of a command ([cmd/state.go], [utils/command/command.go]), the
    cancellable [Action] attribute ([attr/action.go]), the combat
    commands ([core/combat.go]) and the reader of record jars
    ([recordjar/recordjar.go]), with the properties proved about them.

    Go values are modelled as follows.
    - A non-nil pointer is an address ([N]); an interface value that may be
      nil is an [option].
    - A slice that has a single owner is a [list]; [append] adds at the end,
      an index write is stdpp's list insert, and [copy] between two windows
      of one backing array is [copy_within].
    - A Go map is a [gmap]; reading a missing key gives the zero value.
    - Calls whose effect lies outside the modelled state (mutex calls,
      messages, scheduled events) are recorded in a trace. *)

From Stdlib Require Import ZArith NArith List String Ascii Lia.
From Stdlib Require Import Sorting.Sorted Sorting.Permutation.
From Stdlib Require QArith.
From stdpp Require Import base numbers option list sorting gmap strings pretty.

Set Warnings "-clear-no-such-hyp".
Local Open Scope list_scope.

(** ** Slices *)

Module Slice.

(** [copy(a[dlo:dhi], a[slo:shi])] for two windows of the same backing
    array [a].  Go copies [min(len(dst), len(src))] elements and behaves as
    if the source had been read in full before anything is written. *)
Definition copy_within {A} (a : list A) (dlo dhi slo shi : nat) : list A :=
  let n := (dhi - dlo) `min` (shi - slo) in
  take dlo a ++ take n (drop slo a) ++ drop (dlo + n) a.

(** The loop shared by the two [AddLock] methods, over the slice [a] of
    length [l] that already ends in the appended element [i]: at the first
    index [x] whose entry passes [test], the tail [a[x:l-1]] is copied one
    place up, [i] is written at [x], and the loop is left.  [n] counts the
    iterations still to run. *)
Fixpoint insert_loop {A} (test : A → bool) (n x l : nat) (i : A)
    (a : list A) : list A :=
  match n with
  | O => a
  | S n' =>
      match a !! x with
      | Some e =>
          if test e
          then <[x := i]> (copy_within a (x + 1) l x (l - 1))
          else insert_loop test n' (S x) l i a
      | None => a
      end
  end.

(** Insertion of [i] before the first entry that passes [test]. *)
Fixpoint insert_before {A} (test : A → bool) (i : A) (ls : list A) : list A :=
  match ls with
  | [] => [i]
  | e :: r => if test e then i :: e :: r else e :: insert_before test i r
  end.

(** Shifting the tail up by one and writing into the gap. *)
Lemma shift_and_write {A} (pre : list A) e r h :
  <[length pre := h]>
    (copy_within (pre ++ (e :: r) ++ [h]) (length pre + 1)
       (length (pre ++ (e :: r) ++ [h])) (length pre)
       (length (pre ++ (e :: r) ++ [h]) - 1))
  = pre ++ h :: e :: r.
Proof.
  unfold copy_within.
  assert (Hl : length (pre ++ (e :: r) ++ [h]) = length pre + length r + 2)
    by (rewrite !length_app; simpl; lia).
  rewrite Hl.
  replace ((length pre + length r + 2 - (length pre + 1))
             `min` (length pre + length r + 2 - 1 - length pre))
    with (length (e :: r)) by (simpl; lia).
  assert (Htake : take (length pre + 1) (pre ++ (e :: r) ++ [h]) = pre ++ [e]).
  { rewrite take_app_ge by lia.
    replace (length pre + 1 - length pre) with 1 by lia. done. }
  rewrite Htake, drop_app_length, take_app_length.
  rewrite drop_ge by (rewrite Hl; simpl; lia).
  rewrite app_nil_r, <-app_assoc. simpl.
  replace (length pre) with (length pre + 0) at 1 by lia.
  by rewrite insert_app_r.
Qed.

(** Started at index [length pre] on [pre ++ rest ++ [h]], the loop leaves
    [pre] alone and inserts [h] into [rest], as long as the appended [h]
    does not pass the test itself. *)
Lemma insert_loop_spec {A} (test : A → bool) (rest : list A) : ∀ pre h x l,
  test h = false →
  x = length pre →
  l = length (pre ++ rest ++ [h]) →
  insert_loop test (S (length rest)) x l h (pre ++ rest ++ [h])
  = pre ++ insert_before test h rest.
Proof.
  induction rest as [|e r IH]; intros pre h x l Hh -> ->.
  - cbn [insert_loop length app insert_before].
    rewrite list_lookup_middle by done.
    by rewrite Hh.
  - cbn [insert_loop insert_before].
    rewrite (list_lookup_middle pre (r ++ [h]) e) by done.
    destruct (test e) eqn:Hlt.
    + apply shift_and_write.
    + replace (pre ++ (e :: r) ++ [h]) with ((pre ++ [e]) ++ r ++ [h])
        by (by rewrite <-app_assoc).
      rewrite (IH (pre ++ [e]) h); [by rewrite <-app_assoc|done| |done].
      rewrite length_app. simpl. lia.
Qed.

Lemma insert_before_perm {A} (test : A → bool) h ls :
  insert_before test h ls ≡ₚ h :: ls.
Proof.
  induction ls as [|e r IH]; [done|]. simpl.
  destruct (test e); [done|].
  rewrite IH. apply Permutation_swap.
Qed.

Lemma insert_before_elem {A} (test : A → bool) x h ls :
  x ∈ insert_before test h ls ↔ x = h ∨ x ∈ ls.
Proof. rewrite insert_before_perm. apply elem_of_cons. Qed.

End Slice.

(** ** Package cmd: the parsing state of a command ([state.go],
    src/unnamed/part_002) *)

Module State.

(** A non-nil [has.Inventory] is the address of the inventory behind the
    interface; two handles are [==] exactly when the addresses agree. *)
Definition Inventory := N.

(** An interface value of type [has.Inventory]; [None] is [nil]. *)
Definition has_Inventory := option Inventory.

(** What [NewState] asks of a [has.Thing]: [attr.FindLocate(t)] finds a
    Locate attribute or nothing, and the attribute's [Where()] is its
    inventory, which may be nil. *)
Record Thing := mkThing {
  thing_addr : N;
  FindLocate : option has_Inventory
}.

(** The [msg] struct: two buffer pointers and a map of buffers. *)
Record msgs := mkMsgs {
  msg_actor : option string;
  msg_participant : option string;
  msg_observers : gmap Inventory string
}.

Record state := mkState {
  actor : Thing;
  where_ : has_Inventory;
  input : list string;
  cmd : string;
  words : list string;
  ok : bool;
  (* AddLock is the only writer of [locks] and never stores nil, so the
     entries are non-nil handles. *)
  locks : list Inventory;
  msg : msgs
}.

Definition set_locks (s : state) (ls : list Inventory) : state :=
  mkState (actor s) (where_ s) (input s) (cmd s) (words s) (ok s) ls (msg s).

Definition set_where (s : state) (w : has_Inventory) : state :=
  mkState (actor s) w (input s) (cmd s) (words s) (ok s) (locks s) (msg s).

(** *** The message buffer *)

(** [buffer] embeds a [bytes.Buffer] and is modelled by the bytes written
    to it so far.  [WriteString] of the Go library appends its argument and
    returns the argument's length and a nil error. *)
Definition buffer := string.

(** A Go [error]; [None] is nil. *)
Definition error := option string.

Definition WriteString (b : buffer) (s : string) : buffer * (nat * error) :=
  ((b +:+ s)%string, (String.length s, None)).

(** [WriteJoin]: the range loop adds up what the [WriteString] calls
    return; the result is [n, nil]. *)
Definition WriteJoin (b : buffer) (ss : list string) : buffer * (nat * error) :=
  let '(b, n) :=
    foldl (λ '(b, n) s, let '(b, (x, _)) := WriteString b s in (b, n + x))
      (b, 0) ss in
  (b, (n, None)).

Lemma append_cons (c : ascii) (s1 s2 : string) :
  (String c s1 +:+ s2 = String c (s1 +:+ s2))%string.
Proof. done. Qed.

Lemma length_append (s1 s2 : string) :
  String.length (s1 +:+ s2) = String.length s1 + String.length s2.
Proof.
  induction s1 as [|c s1 IH]; [done|].
  rewrite append_cons. simpl. by rewrite IH.
Qed.

Lemma append_assoc (s1 s2 s3 : string) :
  ((s1 +:+ s2) +:+ s3 = s1 +:+ (s2 +:+ s3))%string.
Proof.
  induction s1 as [|c s1 IH]; [done|]. rewrite !append_cons. by f_equal.
Qed.

Lemma append_empty_r (s : string) : (s +:+ "" = s)%string.
Proof.
  induction s as [|c s IH]; [done|]. rewrite append_cons. by f_equal.
Qed.

(** The strings of a list, one after the other. *)
Definition joined (ss : list string) : string :=
  foldr String.append ""%string ss.

Lemma WriteJoin_loop ss : ∀ b n,
  foldl (λ '(b, n) s, let '(b, (x, _)) := WriteString b s in (b, n + x))
    (b, n) ss
  = ((b +:+ joined ss)%string, n + String.length (joined ss)).
Proof.
  induction ss as [|s ss IH]; intros b n; simpl.
  - by rewrite append_empty_r, Nat.add_0_r.
  - rewrite IH, append_assoc, length_append. f_equal. lia.
Qed.

(** X1. [WriteJoin] appends its strings to the buffer in the order given
    and returns the total of their lengths in bytes with a nil error; the
    buffer grows by exactly the count returned, and writing a list in two
    parts gives the same buffer and the same total. *)
Theorem WriteJoin_total_length (b : buffer) (ss : list string) :
  WriteJoin b ss
    = ((b +:+ joined ss)%string, (String.length (joined ss), None)) ∧
  (WriteJoin b ss).2.1 = sum_list (String.length <$> ss) ∧
  String.length (WriteJoin b ss).1 = String.length b + (WriteJoin b ss).2.1 ∧
  (∀ ss', (WriteJoin b (ss ++ ss')).1 = (WriteJoin (WriteJoin b ss).1 ss').1 ∧
          (WriteJoin b (ss ++ ss')).2.1
            = (WriteJoin b ss).2.1 + (WriteJoin (WriteJoin b ss).1 ss').2.1).
Proof.
  assert (Heq : ∀ b ss, WriteJoin b ss
            = ((b +:+ joined ss)%string, (String.length (joined ss), None))).
  { intros b0 ss0. unfold WriteJoin. by rewrite WriteJoin_loop. }
  assert (Happ : ∀ ss ss', joined (ss ++ ss') = (joined ss +:+ joined ss')%string).
  { intros ss0 ss'. induction ss0 as [|s ss0 IH]; simpl; [done|].
    by rewrite IH, append_assoc. }
  split; [apply Heq|]. rewrite !Heq. simpl. split; [|split].
  - induction ss as [|s ss IH]; simpl; [done|].
    by rewrite length_append, IH.
  - apply length_append.
  - intros ss'. rewrite !Heq. simpl.
    by rewrite Happ, append_assoc, length_append.
Qed.

Section Locks.

(** [LockID()] of the inventory at an address (a [uint64] in the source). *)
Variable LockID : Inventory → N.

(** [CanLock]: is [i] in the list of locks? *)
Definition CanLock (s : state) (i : has_Inventory) : bool :=
  existsb (λ l, bool_decide (i = Some l)) (locks s).

(** The [for x := 0; x < l; x++] loop of [AddLock] over the slice [a] that
    already ends in the appended handle [i]; [n] counts the iterations that
    are left, [x] is the loop index, [u] is [i.LockID()]. *)
Fixpoint AddLock_loop (n x l : nat) (i : Inventory) (u : N)
    (a : list Inventory) : list Inventory :=
  match n with
  | O => a
  | S n' =>
      match a !! x with
      | Some e =>
          if (u <? LockID e)%N
          then <[x := i]> (Slice.copy_within a (x + 1) l x (l - 1))
          else AddLock_loop n' (S x) l i u a
      | None => a
      end
  end.

Definition AddLock (s : state) (i : has_Inventory) : state :=
  match i with
  | None => s
  | Some h =>
      if CanLock s i then s
      else
        let a := locks s ++ [h] in
        let l := length a in
        if (l =? 1)%nat then set_locks s a
        else set_locks s (AddLock_loop l 0 l h (LockID h) a)
  end.

(** A sequence of [AddLock] calls with non-nil handles. *)
Definition AddLocks (s : state) (hs : list Inventory) : state :=
  foldl (λ s h, AddLock s (Some h)) s hs.

(** Insertion before the first entry with a larger lock ID: what the
    append, shift and write of [AddLock] amount to. *)
Definition insert_by_id (h : Inventory) (ls : list Inventory) : list Inventory :=
  Slice.insert_before (λ e, (LockID h <? LockID e)%N) h ls.

(** Ascending by lock ID. *)
Definition id_lt (a b : Inventory) : Prop := (LockID a < LockID b)%N.

(** The handles of a call sequence have pairwise distinct lock IDs: two
    handles with the same lock ID are the same handle. *)
Definition distinct_ids (hs : list Inventory) : Prop :=
  ∀ a b, a ∈ hs → b ∈ hs → LockID a = LockID b → a = b.

(** *** Facts about the lock list *)

Lemma CanLock_elem s h : CanLock s (Some h) = true ↔ h ∈ locks s.
Proof.
  unfold CanLock. rewrite existsb_exists. split.
  - intros (l & Hin & Heq). apply bool_decide_eq_true in Heq.
    injection Heq as ->. by apply list_elem_of_In.
  - intros Hin. exists h. split; [by apply list_elem_of_In|].
    by apply bool_decide_eq_true.
Qed.

Lemma CanLock_nil s : CanLock s None = false.
Proof.
  unfold CanLock. induction (locks s) as [|l ls IH]; [done|].
  simpl. exact IH.
Qed.

Lemma AddLock_loop_shared n : ∀ x l i u a,
  AddLock_loop n x l i u a
  = Slice.insert_loop (λ e, (u <? LockID e)%N) n x l i a.
Proof.
  induction n as [|n IH]; intros x l i u a; [done|].
  simpl. destruct (a !! x) as [e|]; [|done].
  destruct (u <? LockID e)%N; [done|]. apply IH.
Qed.

Lemma AddLock_loop_insert rest pre h x l :
  x = length pre →
  l = length (pre ++ rest ++ [h]) →
  AddLock_loop (S (length rest)) x l h (LockID h) (pre ++ rest ++ [h])
  = pre ++ insert_by_id h rest.
Proof.
  intros Hx Hl. rewrite AddLock_loop_shared.
  apply Slice.insert_loop_spec; [apply N.ltb_irrefl|done|done].
Qed.

(** [AddLock] on a new non-nil handle is a sorted insertion; on a handle
    already listed it changes nothing. *)
Lemma AddLock_locks s h :
  locks (AddLock s (Some h)) =
    if CanLock s (Some h) then locks s else insert_by_id h (locks s).
Proof.
  unfold AddLock. destruct (CanLock s (Some h)); [done|].
  destruct (locks s) as [|e r] eqn:Hl; [done|].
  assert (Hlen : length ((e :: r) ++ [h]) = S (length (e :: r)))
    by (rewrite length_app; simpl; lia).
  cbv zeta. rewrite Hlen at 1.
  replace (S (length (e :: r)) =? 1)%nat with false by done.
  cbn [set_locks locks].
  rewrite Hlen at 1.
  exact (AddLock_loop_insert (e :: r) [] h 0 _ eq_refl eq_refl).
Qed.

Lemma AddLock_nil s : AddLock s None = s.
Proof. done. Qed.

(** Adding a handle that is already listed changes nothing; adding a new
    one makes the list longer by one. *)
Lemma AddLock_present s h : CanLock s (Some h) = true → AddLock s (Some h) = s.
Proof. intros Hc. unfold AddLock. by rewrite Hc. Qed.

Lemma AddLock_new_grows s h :
  CanLock s (Some h) = false →
  length (locks (AddLock s (Some h))) = S (length (locks s)).
Proof.
  intros Hc. rewrite AddLock_locks, Hc. unfold insert_by_id.
  by rewrite Slice.insert_before_perm.
Qed.

Lemma insert_by_id_elem x h ls : x ∈ insert_by_id h ls ↔ x = h ∨ x ∈ ls.
Proof. apply Slice.insert_before_elem. Qed.

Lemma insert_by_id_sorted h ls :
  StronglySorted id_lt ls →
  (∀ e, e ∈ ls → LockID e ≠ LockID h) →
  StronglySorted id_lt (insert_by_id h ls).
Proof.
  unfold insert_by_id.
  induction 1 as [|e r Hr IH He]; intros Hne; simpl.
  - repeat constructor.
  - destruct (LockID h <? LockID e)%N eqn:Hlt.
    + apply N.ltb_lt in Hlt. constructor; [by constructor|].
      constructor; [done|].
      eapply Forall_impl; [exact He|].
      unfold id_lt. intros; lia.
    + apply N.ltb_ge in Hlt.
      assert (LockID e ≠ LockID h) by (apply Hne; left).
      constructor.
      * apply IH. intros e' He'. apply Hne. by right.
      * apply Forall_forall. intros x Hx.
        apply insert_by_id_elem in Hx as [->|Hx].
        -- unfold id_lt. lia.
        -- rewrite Forall_forall in He. by apply He.
Qed.

Lemma id_lt_sorted_NoDup ls : StronglySorted id_lt ls → NoDup ls.
Proof.
  induction 1 as [|e r Hr IH He]; constructor; [|done].
  intros Hin. rewrite Forall_forall in He.
  specialize (He _ Hin). unfold id_lt in He. lia.
Qed.

(** The invariant of a run of [AddLock] calls: the list stays strictly
    ascending and holds exactly the handles seen so far. *)
Lemma AddLocks_sorted hs : ∀ s,
  StronglySorted id_lt (locks s) →
  distinct_ids (locks s ++ hs) →
  StronglySorted id_lt (locks (AddLocks s hs)) ∧
  (∀ x, x ∈ locks (AddLocks s hs) ↔ x ∈ locks s ∨ x ∈ hs).
Proof.
  induction hs as [|h hs IH]; intros s Hs Hd.
  - split; [done|]. intros x. rewrite elem_of_nil. tauto.
  - cbn [AddLocks foldl]. fold (AddLocks (AddLock s (Some h)) hs).
    assert (Hstep : StronglySorted id_lt (locks (AddLock s (Some h))) ∧
              ∀ x, x ∈ locks (AddLock s (Some h)) ↔ x ∈ locks s ∨ x = h).
    { rewrite AddLock_locks. destruct (CanLock s (Some h)) eqn:Hc.
      - apply CanLock_elem in Hc. split; [done|].
        intros x. split; [tauto|]. by intros [?| ->].
      - split.
        + apply insert_by_id_sorted; [done|]. intros e He Heq.
          assert (e = h) as ->.
          { apply Hd; [apply elem_of_app; by left| |done].
            apply elem_of_app. right. left. }
          apply CanLock_elem in He. congruence.
        + intros x. rewrite insert_by_id_elem. tauto. }
    destruct Hstep as [Hs' Hel].
    destruct (IH (AddLock s (Some h)) Hs') as [IH1 IH2].
    { intros a b Ha Hb. apply Hd.
      - apply elem_of_app in Ha as [Ha|Ha].
        + apply Hel in Ha as [Ha| ->]; apply elem_of_app;
            [by left|right; left].
        + apply elem_of_app. right. by right.
      - apply elem_of_app in Hb as [Hb|Hb].
        + apply Hel in Hb as [Hb| ->]; apply elem_of_app;
            [by left|right; left].
        + apply elem_of_app. right. by right. }
    split; [done|]. intros x. rewrite IH2, Hel, elem_of_cons. tauto.
Qed.

(** Two strictly ascending lists with the same handles are equal. *)
Lemma id_lt_sorted_unique l1 l2 :
  StronglySorted id_lt l1 → StronglySorted id_lt l2 →
  (∀ x, x ∈ l1 ↔ x ∈ l2) → l1 = l2.
Proof.
  intros H1 H2 Hel.
  apply (StronglySorted_unique_strong id_lt); [|done|done|].
  - unfold id_lt. intros; lia.
  - apply NoDup_Permutation; auto using id_lt_sorted_NoDup.
Qed.

(** C1. For every sequence [hs] of [AddLock] calls with non-nil handles of
    pairwise distinct lock IDs, made on a state whose lock list is still
    empty, the resulting list is ascending by [LockID], holds no handle
    twice, holds exactly the handles of [hs], and is the same list for every
    permutation [hs'] of [hs]. *)
Theorem AddLock_sorted_nodup_perm (s : state) (hs : list Inventory) :
  locks s = [] →
  distinct_ids hs →
  StronglySorted id_lt (locks (AddLocks s hs)) ∧
  NoDup (locks (AddLocks s hs)) ∧
  (∀ x, x ∈ locks (AddLocks s hs) ↔ x ∈ hs) ∧
  (∀ hs', hs' ≡ₚ hs → locks (AddLocks s hs') = locks (AddLocks s hs)).
Proof.
  intros Hnil Hd.
  assert (Hrun : ∀ l, l ≡ₚ hs →
            StronglySorted id_lt (locks (AddLocks s l)) ∧
            ∀ x, x ∈ locks (AddLocks s l) ↔ x ∈ hs).
  { intros l Hp.
    destruct (AddLocks_sorted l s) as [Hs Hel].
    - rewrite Hnil. constructor.
    - rewrite Hnil. simpl. intros a b Ha Hb.
      rewrite Hp in Ha, Hb. by apply Hd.
    - split; [done|]. intros x. rewrite Hel, Hnil, elem_of_nil, Hp.
      tauto. }
  destruct (Hrun hs) as [Hs Hel]; [done|].
  repeat split; try done.
  - by apply id_lt_sorted_NoDup.
  - by apply Hel.
  - by apply Hel.
  - intros hs' Hp. destruct (Hrun hs' Hp) as [Hs' Hel'].
    apply id_lt_sorted_unique; [done|done|].
    intros x. by rewrite Hel, Hel'.
Qed.

(** Non-descending by lock ID. *)
Definition id_le (a b : Inventory) : Prop := (LockID a ≤ LockID b)%N.

Lemma insert_by_id_sublist h ls : ls `sublist_of` insert_by_id h ls.
Proof.
  unfold insert_by_id. induction ls as [|e r IH]; simpl.
  - by apply sublist_cons.
  - destruct (LockID h <? LockID e)%N.
    + by apply sublist_cons.
    + by apply sublist_skip.
Qed.

(** Where the insertion puts the handle. *)
Lemma insert_by_id_split h ls :
  StronglySorted id_le ls →
  ∃ pre post,
    ls = pre ++ post ∧ insert_by_id h ls = pre ++ h :: post ∧
    Forall (λ e, id_le e h) pre ∧ Forall (λ e, id_lt h e) post.
Proof.
  unfold insert_by_id. induction 1 as [|e r Hr IH He]; simpl.
  - exists [], []. repeat split; constructor.
  - destruct (LockID h <? LockID e)%N eqn:Hlt.
    + apply N.ltb_lt in Hlt. exists [], (e :: r).
      repeat split; [constructor|].
      constructor; [done|].
      eapply Forall_impl; [exact He|]. unfold id_le, id_lt. intros; lia.
    + apply N.ltb_ge in Hlt.
      destruct IH as (pre & post & -> & -> & Hpre & Hpost).
      exists (e :: pre), post. repeat split; [|done].
      by constructor.
Qed.

Lemma insert_by_id_ascending h ls :
  StronglySorted id_le ls → StronglySorted id_le (insert_by_id h ls).
Proof.
  intros Hs. destruct (insert_by_id_split h ls Hs)
    as (pre & post & -> & -> & Hpre & Hpost).
  apply StronglySorted_app in Hs as (Hcross & Hs1 & Hs2).
  apply StronglySorted_app_2; [|done|].
  - intros x1 x2 Hx1 Hx2. rewrite Forall_forall in Hpre.
    apply elem_of_cons in Hx2 as [->|Hx2]; [by apply Hpre|].
    by apply Hcross.
  - constructor; [done|].
    eapply Forall_impl; [exact Hpost|]. unfold id_le, id_lt. intros; lia.
Qed.

(** X2. [AddLock] never takes a lock off the list and never changes the
    order of the locks already listed: the old list is a sublist of the new
    one, which is longer by one entry at most.  After [AddLock] of a
    non-nil handle [CanLock] holds for it, and a second [AddLock] of the
    same handle changes nothing. *)
Theorem AddLock_keeps_listed (s : state) (i : has_Inventory) :
  locks s `sublist_of` locks (AddLock s i) ∧
  length (locks (AddLock s i)) ≤ S (length (locks s)) ∧
  (∀ j, CanLock s j = true → CanLock (AddLock s i) j = true) ∧
  (∀ h, i = Some h → CanLock (AddLock s i) i = true) ∧
  AddLock (AddLock s i) i = AddLock s i.
Proof.
  destruct i as [h|].
  2: { cbn [AddLock]. repeat split; try done. lia. }
  assert (Hsub : locks s `sublist_of` locks (AddLock s (Some h))).
  { rewrite AddLock_locks. destruct (CanLock s (Some h)); [done|].
    apply insert_by_id_sublist. }
  assert (Hin : CanLock (AddLock s (Some h)) (Some h) = true).
  { apply CanLock_elem. rewrite AddLock_locks.
    destruct (CanLock s (Some h)) eqn:Hc; [by apply CanLock_elem|].
    apply insert_by_id_elem. by left. }
  split; [done|]. split; [|split; [|split]].
  - destruct (CanLock s (Some h)) eqn:Hc.
    + rewrite AddLock_present by done. lia.
    + by rewrite AddLock_new_grows.
  - intros [j|] Hj; [|by rewrite CanLock_nil in Hj].
    apply CanLock_elem. apply CanLock_elem in Hj.
    by eapply elem_of_sublist.
  - by intros h' [= <-].
  - by apply AddLock_present.
Qed.

(** X3. [AddLock] keeps a lock list that is in non-descending order of
    lock ID in that order, whatever the handle, also when its lock ID is
    that of an entry.  A new handle goes after every entry whose lock ID is
    not larger and before every entry whose lock ID is larger. *)
Theorem AddLock_keeps_ascending (s : state) (i : has_Inventory) :
  StronglySorted id_le (locks s) →
  StronglySorted id_le (locks (AddLock s i)) ∧
  (∀ h, i = Some h → CanLock s i = false →
     ∃ pre post,
       locks s = pre ++ post ∧
       locks (AddLock s i) = pre ++ h :: post ∧
       Forall (λ e, id_le e h) pre ∧ Forall (λ e, id_lt h e) post).
Proof.
  intros Hs. destruct i as [h|]; [|by split].
  rewrite AddLock_locks. destruct (CanLock s (Some h)) eqn:Hc.
  - by split.
  - split; [by apply insert_by_id_ascending|].
    intros h' [= <-] _. by apply insert_by_id_split.
Qed.

End Locks.

(** *** NewState *)

Section NewState.

Variable LockID : Inventory → N.

(** [strings.Fields] and [strings.ToUpper] of the Go library: the first
    splits its argument around runs of white space, the second maps every
    letter to upper case.  [NewState] is modelled over any such pair. *)
Variable Fields : string → list string.
Variable ToUpper : string → string.

Definition NewState (t : Thing) (inp : string) : state :=
  (* s := &state{actor: t, locks: make([]has.Inventory, 0, 2)} *)
  let s_input := Fields inp in
  (* s.words[x] = strings.ToUpper(o) for every x, o of s.input *)
  let s_words := ToUpper <$> s_input in
  let l := length s_words in
  let '(s_cmd, s_words, s_input) :=
    if (1 <? l)%nat then
      (default ""%string (s_words !! 0%nat), drop 1 s_words, drop 1 s_input)
    else if (0 <? l)%nat then
      (default ""%string (s_words !! 0%nat), s_words, s_input)
    else (""%string, s_words, s_input) in
  let s := mkState t None s_input s_cmd s_words false []
             (mkMsgs None None ∅) in
  match FindLocate t with
  | Some w => AddLock LockID (set_where s w) w
  | None => s
  end.

Lemma AddLock_keeps_words s i :
  cmd (AddLock LockID s i) = cmd s ∧
  words (AddLock LockID s i) = words s ∧
  input (AddLock LockID s i) = input s.
Proof.
  unfold AddLock. destruct i as [h|]; [|done].
  destruct (CanLock s (Some h)); [done|].
  by destruct (length (locks s ++ [h]) =? 1)%nat.
Qed.

(** The three fields [NewState] fills from the input text, given the words
    [Fields] finds in it. *)
Lemma NewState_words t inp :
  let l := length (Fields inp) in
  cmd (NewState t inp) =
    (if (0 <? l)%nat then default ""%string (ToUpper <$> Fields inp !! 0%nat)
     else ""%string) ∧
  words (NewState t inp) =
    (if (1 <? l)%nat then drop 1 (ToUpper <$> Fields inp)
     else ToUpper <$> Fields inp) ∧
  input (NewState t inp) =
    (if (1 <? l)%nat then drop 1 (Fields inp) else Fields inp).
Proof.
  unfold NewState. rewrite length_fmap, list_lookup_fmap.
  destruct (Fields inp) as [|v [|w ws]]; simpl;
    destruct (FindLocate t) as [i|]; simpl;
    rewrite ?(proj1 (AddLock_keeps_words _ _)),
            ?(proj1 (proj2 (AddLock_keeps_words _ _))),
            ?(proj2 (proj2 (AddLock_keeps_words _ _))); done.
Qed.

(** C8. When the input text is exactly one word [w], [NewState] sets [cmd]
    to the upper-cased word and keeps the word in both slices ([words]
    holds it upper-cased, [input] as typed); with two or more words the
    first is taken off [words] and [input]; with no word [cmd] stays
    empty. *)
Theorem NewState_single_word (t : Thing) (inp : string) :
  (∀ w, Fields inp = [w] →
     cmd (NewState t inp) = ToUpper w ∧
     words (NewState t inp) = [ToUpper w] ∧
     input (NewState t inp) = [w]) ∧
  (∀ v w ws, Fields inp = v :: w :: ws →
     cmd (NewState t inp) = ToUpper v ∧
     words (NewState t inp) = ToUpper <$> (w :: ws) ∧
     input (NewState t inp) = w :: ws) ∧
  (Fields inp = [] →
     cmd (NewState t inp) = ""%string ∧
     words (NewState t inp) = [] ∧
     input (NewState t inp) = []).
Proof.
  pose proof (NewState_words t inp) as (Hc & Hw & Hi).
  repeat split; intros; rewrite ?Hc, ?Hw, ?Hi;
    match goal with H : Fields inp = _ |- _ => rewrite H end; done.
Qed.

(** The lock list of a new state is the actor's inventory, if it is in
    one, and further [AddLock] calls keep it ascending. *)
Lemma NewState_locks t inp :
  locks (NewState t inp) =
    match FindLocate t with
    | Some (Some w) => [w]
    | _ => []
    end.
Proof.
  unfold NewState.
  destruct (1 <? length (ToUpper <$> Fields inp))%nat;
    [|destruct (0 <? length (ToUpper <$> Fields inp))%nat];
    destruct (FindLocate t) as [[w|]|]; done.
Qed.

Lemma NewState_AddLocks_sorted t inp hs :
  distinct_ids LockID (locks (NewState t inp) ++ hs) →
  StronglySorted (id_lt LockID) (locks (AddLocks LockID (NewState t inp) hs)).
Proof.
  intros Hd. apply AddLocks_sorted; [|done].
  rewrite NewState_locks. destruct (FindLocate t) as [[w|]|];
    repeat constructor.
Qed.

(** X4. [NewState] records the inventory the actor is in as [where] and
    puts it, and nothing else, into the lock list; an actor that cannot be
    located, or is nowhere, gets an empty lock list.  The [words] are the
    [input] words in upper case, one for one, and the new state is not
    marked as successful. *)
Theorem NewState_where_locks (t : Thing) (inp : string) :
  where_ (NewState t inp) = default None (FindLocate t) ∧
  locks (NewState t inp)
    = match where_ (NewState t inp) with Some w => [w] | None => [] end ∧
  (∀ w, where_ (NewState t inp) = Some w →
        CanLock (NewState t inp) (Some w) = true) ∧
  words (NewState t inp) = ToUpper <$> input (NewState t inp) ∧
  actor (NewState t inp) = t ∧
  ok (NewState t inp) = false.
Proof.
  assert (Hw : where_ (NewState t inp) = default None (FindLocate t)).
  { unfold NewState.
    destruct (1 <? length (ToUpper <$> Fields inp))%nat;
      [|destruct (0 <? length (ToUpper <$> Fields inp))%nat];
      destruct (FindLocate t) as [[w|]|]; done. }
  assert (Hl : locks (NewState t inp)
               = match where_ (NewState t inp) with
                 | Some w => [w] | None => []
                 end).
  { rewrite Hw, NewState_locks. by destruct (FindLocate t) as [[w|]|]. }
  split; [done|]. split; [done|]. split; [|split; [|split]].
  - intros w Hsome. apply CanLock_elem. rewrite Hl, Hsome. left.
  - pose proof (NewState_words t inp) as (_ & -> & ->).
    destruct (1 <? length (Fields inp))%nat; [|done].
    by rewrite fmap_drop.
  - unfold NewState.
    destruct (1 <? length (ToUpper <$> Fields inp))%nat;
      [|destruct (0 <? length (ToUpper <$> Fields inp))%nat];
      destruct (FindLocate t) as [[w|]|]; done.
  - unfold NewState.
    destruct (1 <? length (ToUpper <$> Fields inp))%nat;
      [|destruct (0 <? length (ToUpper <$> Fields inp))%nat];
      destruct (FindLocate t) as [[w|]|]; done.
Qed.

End NewState.

(** *** parse and sync *)

Section Cycle.

(** The world a command handler reads and writes besides the state. *)
Variable W : Type.

(** A dispatcher is handed the state; it returns with the state (and the
    world) possibly changed. *)
Definition dispatcher := W → state → W * state.

(** The calls [sync] makes, in the order it makes them.  [Dispatch ls] is
    the call [dispatcher(s)] made while [s.locks] is [ls]. *)
Inductive call :=
  | Lock (l : Inventory)
  | Unlock (l : Inventory)
  | Dispatch (ls : list Inventory).

#[global] Instance call_eq_dec : EqDecision call.
Proof. solve_decision. Defined.

(** [sync]: the range loop locks every entry and pushes its [Unlock] on the
    stack of deferred calls; the deferred calls run, last pushed first, when
    [sync] returns, after the dispatcher. *)
Definition sync (d : dispatcher) (w : W) (s : state) (tr : list call)
    : W * state * list call :=
  let '(tr1, deferred) :=
    foldl (λ '(t, ds) l, (t ++ [Lock l], Unlock l :: ds)) (tr, []) (locks s) in
  let '(w', s') := d w s in
  (w', s', (tr1 ++ [Dispatch (locks s)]) ++ deferred).

(** How a run of [parse] ends: it returns, or the loop is still going when
    the fuel of the model runs out. *)
Inductive outcome :=
  | Returned (w : W) (s : state) (tr : list call)
  | Looping (w : W) (s : state) (tr : list call).

Definition calls_of (o : outcome) : list call :=
  match o with Returned _ _ tr | Looping _ _ tr => tr end.

(** [for l := -1; l != 0; { l = len(s.locks); s.sync(dispatcher);
    l -= len(s.locks) }] *)
Fixpoint parse_loop (fuel : nat) (d : dispatcher) (l : Z) (w : W) (s : state)
    (tr : list call) {struct fuel} : outcome :=
  if (l =? 0)%Z then Returned w s tr
  else
    match fuel with
    | O => Looping w s tr
    | S fuel' =>
        let l := Z.of_nat (length (locks s)) in
        let '(w', s', tr') := sync d w s tr in
        let l := (l - Z.of_nat (length (locks s')))%Z in
        parse_loop fuel' d l w' s' tr'
    end.

Definition parse (fuel : nat) (d : dispatcher) (w : W) (s : state) : outcome :=
  parse_loop fuel d (-1) w s [].

(** The mutexes locked and not yet unlocked after a sequence of calls, most
    recent first. *)
Fixpoint drop_first (l : Inventory) (hs : list Inventory) : list Inventory :=
  match hs with
  | [] => []
  | h :: r => if decide (h = l) then r else h :: drop_first l r
  end.

Definition held_step (hs : list Inventory) (c : call) : list Inventory :=
  match c with
  | Lock l => l :: hs
  | Unlock l => drop_first l hs
  | Dispatch _ => hs
  end.

(** The mutexes held after the calls [tr], in the order they were taken. *)
Definition held (tr : list call) : list Inventory :=
  reverse (foldl held_step [] tr).

Definition lock_calls (l : Inventory) (tr : list call) : nat :=
  length (filter (λ c, c = Lock l) tr).

Definition unlock_calls (l : Inventory) (tr : list call) : nat :=
  length (filter (λ c, c = Unlock l) tr).

(** The lock lists the dispatcher was called with, one per call. *)
Definition dispatched (tr : list call) : list (list Inventory) :=
  omap (λ c, match c with Dispatch ls => Some ls | _ => None end) tr.

(** The calls of one pass of [sync] over the lock list [ls]. *)
Definition pass_calls (ls : list Inventory) : list call :=
  (Lock <$> ls) ++ [Dispatch ls] ++ (Unlock <$> reverse ls).

(** World and state before pass [k] of the loop (passes count from 0). *)
Fixpoint before_pass (d : dispatcher) (k : nat) (w : W) (s : state) : W * state :=
  match k with
  | O => (w, s)
  | S k' => let '(w', s') := d w s in before_pass d k' w' s'
  end.

(** The calls of the first [n] passes. *)
Fixpoint passes_calls (d : dispatcher) (n : nat) (w : W) (s : state) : list call :=
  match n with
  | O => []
  | S n' => pass_calls (locks s) ++
            let '(w', s') := d w s in passes_calls d n' w' s'
  end.

(** Pass [k] leaves the length of the lock list as it found it. *)
Definition stable (d : dispatcher) (w : W) (s : state) (k : nat) : Prop :=
  length (locks (before_pass d (S k) w s).2)
  = length (locks (before_pass d k w s).2).

(** Pass [k] makes the lock list longer. *)
Definition grows (d : dispatcher) (w : W) (s : state) (k : nat) : Prop :=
  length (locks (before_pass d k w s).2)
  < length (locks (before_pass d (S k) w s).2).

(** *** Facts about sync *)

Lemma sync_range_loop (ls : list Inventory) : ∀ (t ds : list call),
  foldl (λ '(t, ds) l, (t ++ [Lock l], Unlock l :: ds)) (t, ds) ls
  = (t ++ (Lock <$> ls), (Unlock <$> reverse ls) ++ ds).
Proof.
  induction ls as [|l ls IH]; intros t ds; simpl.
  - by rewrite app_nil_r.
  - rewrite IH, reverse_cons, fmap_app, <-!app_assoc. done.
Qed.

Lemma sync_calls d w s tr :
  sync d w s tr = ((d w s).1, (d w s).2, tr ++ pass_calls (locks s)).
Proof.
  unfold sync, pass_calls. rewrite sync_range_loop.
  destruct (d w s) as [w' s']. simpl.
  by rewrite app_nil_r, <-!app_assoc.
Qed.

Lemma held_step_locks ls : ∀ hs,
  foldl held_step hs (Lock <$> ls) = reverse ls ++ hs.
Proof.
  induction ls as [|l ls IH]; intros hs; simpl; [done|].
  rewrite IH, reverse_cons, <-app_assoc. done.
Qed.

Lemma held_step_unlocks ls : ∀ hs,
  foldl held_step (reverse ls ++ hs) (Unlock <$> reverse ls) = hs.
Proof.
  induction ls as [|l ls IH]; intros hs; simpl; [done|].
  rewrite reverse_cons, fmap_app, foldl_app, <-app_assoc. simpl.
  rewrite IH. simpl. by rewrite decide_True.
Qed.

Lemma held_step_pass ls hs : foldl held_step hs (pass_calls ls) = hs.
Proof.
  unfold pass_calls. rewrite !foldl_app, held_step_locks. simpl.
  apply held_step_unlocks.
Qed.

Lemma held_pass tr ls : held (tr ++ pass_calls ls) = held tr.
Proof. unfold held. by rewrite foldl_app, held_step_pass. Qed.

Lemma held_locks tr ls : held (tr ++ (Lock <$> ls)) = held tr ++ ls.
Proof.
  unfold held. rewrite foldl_app, held_step_locks, reverse_app.
  by rewrite reverse_involutive.
Qed.

Lemma lock_calls_pass l ls :
  lock_calls l (pass_calls ls) = length (filter (λ h, h = l) ls).
Proof.
  unfold lock_calls, pass_calls. rewrite !filter_app, !length_app.
  assert (H1 : ∀ xs, length (filter (λ c, c = Lock l) (Lock <$> xs))
                 = length (filter (λ h, h = l) xs)).
  { induction xs as [|x xs IH]; [done|]. csimpl.
    rewrite !filter_cons. destruct (decide (x = l)) as [->|Hne].
    - rewrite decide_True by done. simpl. by rewrite IH.
    - rewrite decide_False by congruence. done. }
  assert (H2 : ∀ xs, filter (λ c, c = Lock l) (Unlock <$> xs) = []).
  { induction xs as [|x xs IH]; [done|]. csimpl.
    rewrite filter_cons, decide_False by done. done. }
  rewrite H1, H2, filter_cons, decide_False by done. simpl. lia.
Qed.

Lemma unlock_calls_pass l ls :
  unlock_calls l (pass_calls ls) = length (filter (λ h, h = l) ls).
Proof.
  unfold unlock_calls, pass_calls. rewrite !filter_app, !length_app.
  assert (H1 : ∀ xs, length (filter (λ c, c = Unlock l) (Unlock <$> xs))
                 = length (filter (λ h, h = l) xs)).
  { induction xs as [|x xs IH]; [done|]. csimpl.
    rewrite !filter_cons. destruct (decide (x = l)) as [->|Hne].
    - rewrite decide_True by done. simpl. by rewrite IH.
    - rewrite decide_False by congruence. done. }
  assert (H2 : ∀ xs, filter (λ c, c = Unlock l) (Lock <$> xs) = []).
  { induction xs as [|x xs IH]; [done|]. csimpl.
    rewrite filter_cons, decide_False by done. done. }
  rewrite H1, H2, filter_cons, decide_False by done. simpl.
  by rewrite filter_reverse, length_reverse.
Qed.

(** C4. Every call of [sync] locks the entries of the lock list it finds,
    in list order, calls the dispatcher with exactly these held, and then
    unlocks every one of them in the reverse order, whatever the dispatcher
    did to the state: for every handle the Lock and Unlock calls of the
    pass are equal in number, and the locks held after [sync] are those
    held before it (none, when none was held before). *)
Theorem sync_locks_balanced (d : dispatcher) (w : W) (s : state)
    (tr : list call) :
  (sync d w s tr).1 = d w s ∧
  (sync d w s tr).2 =
    tr ++ (Lock <$> locks s) ++ [Dispatch (locks s)]
       ++ (Unlock <$> reverse (locks s)) ∧
  held (tr ++ (Lock <$> locks s)) = held tr ++ locks s ∧
  (∀ l, lock_calls l (pass_calls (locks s))
        = unlock_calls l (pass_calls (locks s))) ∧
  held (sync d w s tr).2 = held tr ∧
  held (sync d w s []).2 = [].
Proof.
  rewrite !sync_calls. simpl. repeat split.
  - by destruct (d w s).
  - apply held_locks.
  - intros l. by rewrite lock_calls_pass, unlock_calls_pass.
  - apply held_pass.
  - apply (held_pass []).
Qed.

(** *** Facts about parse *)

Lemma parse_loop_done fuel d w s tr :
  parse_loop fuel d 0 w s tr = Returned w s tr.
Proof. by destruct fuel. Qed.

Lemma parse_loop_pass fuel d l w s tr :
  l ≠ 0%Z →
  parse_loop (S fuel) d l w s tr =
    parse_loop fuel d
      (Z.of_nat (length (locks s)) - Z.of_nat (length (locks (d w s).2)))
      (d w s).1 (d w s).2 (tr ++ pass_calls (locks s)).
Proof.
  intros Hl. cbn [parse_loop].
  destruct (Z.eqb_spec l 0) as [|_]; [done|].
  by rewrite sync_calls.
Qed.

Lemma before_pass_S d k w s :
  before_pass d (S k) w s = before_pass d k (d w s).1 (d w s).2.
Proof. simpl. by destruct (d w s). Qed.

Lemma before_pass_last d k w s :
  before_pass d (S k) w s
  = d (before_pass d k w s).1 (before_pass d k w s).2.
Proof.
  revert w s. induction k as [|k IH]; intros w s.
  - simpl. by destruct (d w s).
  - rewrite before_pass_S, IH. by rewrite <-before_pass_S.
Qed.

Lemma passes_calls_S d n w s :
  passes_calls d (S n) w s
  = pass_calls (locks s) ++ passes_calls d n (d w s).1 (d w s).2.
Proof. simpl. by destruct (d w s). Qed.

Lemma passes_calls_last d n w s :
  passes_calls d (S n) w s
  = passes_calls d n w s ++ pass_calls (locks (before_pass d n w s).2).
Proof.
  revert w s. induction n as [|n IH]; intros w s.
  - rewrite passes_calls_S. simpl. by rewrite app_nil_r.
  - rewrite passes_calls_S, IH, (passes_calls_S d n), before_pass_S.
    by rewrite <-app_assoc.
Qed.

Lemma stable_S d w s j :
  stable d w s (S j) ↔ stable d (d w s).1 (d w s).2 j.
Proof.
  unfold stable.
  rewrite (before_pass_S d (S j) w s), (before_pass_S d j w s). tauto.
Qed.

Lemma stable_0 d w s :
  stable d w s 0 ↔ length (locks (d w s).2) = length (locks s).
Proof. unfold stable. rewrite before_pass_S. simpl. tauto. Qed.

(** As long as no pass is stable the loop keeps going. *)
Lemma parse_loop_run d n : ∀ fuel l w s tr,
  l ≠ 0%Z →
  (∀ j, j < n → ¬ stable d w s j) →
  ∃ l', l' ≠ 0%Z ∧
    parse_loop (n + fuel) d l w s tr =
      parse_loop fuel d l' (before_pass d n w s).1 (before_pass d n w s).2
        (tr ++ passes_calls d n w s).
Proof.
  induction n as [|n IH]; intros fuel l w s tr Hl Hns.
  - exists l. split; [done|]. simpl. by rewrite app_nil_r.
  - cbn [Nat.add]. rewrite parse_loop_pass by done.
    destruct (IH fuel
      (Z.of_nat (length (locks s)) - Z.of_nat (length (locks (d w s).2)))%Z
      (d w s).1 (d w s).2 (tr ++ pass_calls (locks s))) as (l' & Hl' & Heq).
    + specialize (Hns 0 ltac:(lia)). rewrite stable_0 in Hns. lia.
    + intros j Hj. rewrite <-stable_S. apply Hns. lia.
    + exists l'. split; [done|]. rewrite Heq.
      by rewrite before_pass_S, passes_calls_S, <-app_assoc.
Qed.

(** The first stable pass is the last one. *)
Lemma parse_returns d w s k fuel :
  (∀ j, j < k → ¬ stable d w s j) →
  stable d w s k →
  parse (S k + fuel) d w s =
    Returned (before_pass d (S k) w s).1 (before_pass d (S k) w s).2
      (passes_calls d (S k) w s).
Proof.
  intros Hns Hst. unfold parse.
  replace (S k + fuel) with (k + S fuel) by lia.
  destruct (parse_loop_run d k (S fuel) (-1) w s [] ltac:(done) Hns)
    as (l' & Hl' & ->).
  rewrite parse_loop_pass by done.
  unfold stable in Hst. rewrite before_pass_last in Hst.
  rewrite Hst, Z.sub_diag, parse_loop_done.
  by rewrite before_pass_last, passes_calls_last.
Qed.

Lemma parse_loops d w s n :
  (∀ j, j < n → ¬ stable d w s j) →
  parse n d w s =
    Looping (before_pass d n w s).1 (before_pass d n w s).2
      (passes_calls d n w s).
Proof.
  intros Hns. unfold parse.
  replace n with (n + 0) at 1 by lia.
  destruct (parse_loop_run d n 0 (-1) w s [] ltac:(done) Hns)
    as (l' & Hl' & ->).
  simpl. by destruct (Z.eqb_spec l' 0).
Qed.

Lemma parse_loop_prefix fuel : ∀ d l w s tr,
  ∃ post, calls_of (parse_loop fuel d l w s tr) = tr ++ post.
Proof.
  induction fuel as [|fuel IH]; intros d l w s tr.
  - exists []. simpl. rewrite app_nil_r. by destruct (l =? 0)%Z.
  - destruct (Z.eqb_spec l 0) as [->|Hl].
    + exists []. by rewrite parse_loop_done, app_nil_r.
    + rewrite parse_loop_pass by done.
      destruct (IH d
        (Z.of_nat (length (locks s)) - Z.of_nat (length (locks (d w s).2)))%Z
        (d w s).1 (d w s).2 (tr ++ pass_calls (locks s))) as [post ->].
      exists (pass_calls (locks s) ++ post). by rewrite <-app_assoc.
Qed.

Lemma first_stable d w s n :
  (∃ k, k < n ∧ stable d w s k ∧ ∀ j, j < k → ¬ stable d w s j) ∨
  (∀ j, j < n → ¬ stable d w s j).
Proof.
  induction n as [|n [(k & Hk & Hst & Hns)|Hns]].
  - right. intros j Hj. lia.
  - left. exists k. split; [lia|done].
  - destruct (decide (length (locks (before_pass d (S n) w s).2)
                      = length (locks (before_pass d n w s).2))) as [Hst|Hst].
    + left. exists n. split; [lia|]. split; [exact Hst|exact Hns].
    + right. intros j Hj. destruct (decide (j = n)) as [->|Hne].
      * exact Hst.
      * apply Hns. lia.
Qed.

Lemma dispatched_pass ls : dispatched (pass_calls ls) = [ls].
Proof.
  unfold dispatched, pass_calls. rewrite !omap_app. simpl.
  assert (H1 : ∀ xs : list Inventory,
            omap (λ c, match c with Dispatch ls => Some ls | _ => None end)
              (Lock <$> xs) = []).
  { induction xs; [done|]. by csimpl. }
  assert (H2 : ∀ xs : list Inventory,
            omap (λ c, match c with Dispatch ls => Some ls | _ => None end)
              (Unlock <$> xs) = []).
  { induction xs; [done|]. by csimpl. }
  by rewrite H1, H2.
Qed.

Lemma dispatched_passes d n : ∀ w s,
  length (dispatched (passes_calls d n w s)) = n.
Proof.
  induction n as [|n IH]; intros w s; [done|].
  rewrite passes_calls_S. unfold dispatched in *.
  rewrite omap_app, length_app. fold (dispatched (pass_calls (locks s))).
  rewrite dispatched_pass, IH. done.
Qed.

Lemma held_passes d n : ∀ w s, held (passes_calls d n w s) = [].
Proof.
  induction n as [|n IH]; intros w s; [done|].
  rewrite passes_calls_last, held_pass. apply IH.
Qed.

(** C3. [parse] calls the dispatcher exactly once when that call leaves
    the lock list as long as it was.  When pass [k] of the loop is reached
    and its call makes the list longer, [parse] goes on to call the
    dispatcher once more, after locking the longer list, so that exactly the
    grown list is held during that call.  And [parse] returns only after a
    pass whose call left the length of the list unchanged, having called
    the dispatcher once per pass. *)
Theorem parse_passes (d : dispatcher) (w : W) (s : state) :
  (length (locks (d w s).2) = length (locks s) →
   ∀ fuel,
     parse (S fuel) d w s
       = Returned (d w s).1 (d w s).2 (pass_calls (locks s)) ∧
     dispatched (pass_calls (locks s)) = [locks s]) ∧
  (∀ k fuel,
     (∀ j, j < k → ¬ stable d w s j) →
     grows d w s k →
     ∃ post,
       calls_of (parse (S (S k) + fuel) d w s)
         = passes_calls d (S k) w s
           ++ (Lock <$> locks (before_pass d (S k) w s).2)
           ++ [Dispatch (locks (before_pass d (S k) w s).2)] ++ post ∧
       length (dispatched (passes_calls d (S k) w s)) = S k ∧
       held (passes_calls d (S k) w s
             ++ (Lock <$> locks (before_pass d (S k) w s).2))
         = locks (before_pass d (S k) w s).2) ∧
  (∀ fuel w' s' tr,
     parse fuel d w s = Returned w' s' tr →
     ∃ k, k < fuel ∧ stable d w s k ∧
          (∀ j, j < k → ¬ stable d w s j) ∧
          (w', s') = before_pass d (S k) w s ∧
          tr = passes_calls d (S k) w s ∧
          length (dispatched tr) = S k).
Proof.
  split; [|split].
  - intros Hst fuel. split; [|apply dispatched_pass].
    change (S fuel) with (1 + fuel).
    rewrite (parse_returns d w s 0 fuel).
    + rewrite before_pass_S, passes_calls_S. simpl. by rewrite app_nil_r.
    + intros j Hj. lia.
    + by apply stable_0.
  - intros k fuel Hns Hg.
    assert (Hns' : ∀ j, j < S k → ¬ stable d w s j).
    { intros j Hj. destruct (decide (j = k)) as [->|Hne].
      - unfold stable, grows in *. lia.
      - apply Hns. lia. }
    unfold parse. replace (S (S k) + fuel) with (S k + S fuel) by lia.
    destruct (parse_loop_run d (S k) (S fuel) (-1) w s [] ltac:(done) Hns')
      as (l' & Hl' & ->).
    rewrite parse_loop_pass by done. cbn [app].
    match goal with
    | |- context [parse_loop fuel d ?l ?w ?s ?tr] =>
        destruct (parse_loop_prefix fuel d l w s tr) as [post ->]
    end.
    exists ((Unlock <$> reverse (locks (before_pass d (S k) w s).2)) ++ post).
    split; [|split].
    + unfold pass_calls. by rewrite <-!app_assoc.
    + apply dispatched_passes.
    + by rewrite held_locks, held_passes.
  - intros fuel w' s' tr Hret.
    destruct (first_stable d w s fuel) as [(k & Hk & Hst & Hns)|Hns].
    + exists k. replace fuel with (S k + (fuel - S k)) in Hret by lia.
      rewrite (parse_returns d w s k _ Hns Hst) in Hret.
      injection Hret as <- <- <-.
      repeat split; try done.
      * exact (eq_sym (surjective_pairing (before_pass d (S k) w s))).
      * exact (dispatched_passes d (S k) w s).
    + by rewrite (parse_loops d w s fuel Hns) in Hret.
Qed.

(** *** Lock order and termination *)

(** Every [Lock] call in [tr] is made while the mutexes held, [hs] at the
    start, all have a smaller lock ID. *)
Fixpoint in_order (LockID : Inventory → N) (hs : list Inventory)
    (tr : list call) : Prop :=
  match tr with
  | [] => True
  | c :: tr =>
      match c with
      | Lock l => Forall (λ h, (LockID h < LockID l)%N) hs
      | _ => True
      end ∧ in_order LockID (held_step hs c) tr
  end.

Lemma in_order_app LockID tr1 : ∀ hs tr2,
  in_order LockID hs (tr1 ++ tr2) ↔
  in_order LockID hs tr1 ∧ in_order LockID (foldl held_step hs tr1) tr2.
Proof.
  induction tr1 as [|c tr1 IH]; intros hs tr2; simpl; [tauto|].
  rewrite IH. tauto.
Qed.

Lemma in_order_locks LockID ls : ∀ hs,
  StronglySorted (id_lt LockID) (reverse hs ++ ls) →
  in_order LockID hs (Lock <$> ls).
Proof.
  induction ls as [|l ls IH]; intros hs Hs; [done|]. csimpl. split.
  - apply Forall_forall. intros h Hh.
    apply (StronglySorted_app_1_elem_of _ _ _ h l Hs);
      [by apply elem_of_reverse|left].
  - apply IH. by rewrite reverse_cons, <-app_assoc.
Qed.

Lemma in_order_unlocks LockID ls : ∀ hs,
  in_order LockID hs (Unlock <$> ls).
Proof. induction ls as [|l ls IH]; intros hs; [done|]. csimpl. auto. Qed.

Lemma in_order_pass LockID ls :
  StronglySorted (id_lt LockID) ls → in_order LockID [] (pass_calls ls).
Proof.
  intros Hs. unfold pass_calls. apply in_order_app. split.
  - by apply in_order_locks.
  - simpl. split; [done|]. apply in_order_unlocks.
Qed.

Lemma in_order_passes LockID d n : ∀ w s,
  (∀ k, StronglySorted (id_lt LockID) (locks (before_pass d k w s).2)) →
  in_order LockID [] (passes_calls d n w s).
Proof.
  induction n as [|n IH]; intros w s Hs; [done|].
  rewrite passes_calls_S. apply in_order_app. split.
  - apply in_order_pass, (Hs 0).
  - rewrite held_step_pass. apply IH.
    intros k. rewrite <-before_pass_S. apply Hs.
Qed.

Lemma in_order_held LockID pre : ∀ hs l post,
  in_order LockID hs (pre ++ Lock l :: post) →
  Forall (λ h, (LockID h < LockID l)%N) (foldl held_step hs pre).
Proof.
  induction pre as [|c pre IH]; intros hs l post; simpl.
  - tauto.
  - intros [_ Hrest]. by eapply IH.
Qed.

(** The calls of a run of [parse] are those of its first passes. *)
Lemma parse_calls d w s fuel :
  ∃ n, calls_of (parse fuel d w s) = passes_calls d n w s.
Proof.
  destruct (first_stable d w s fuel) as [(k & Hk & Hst & Hns)|Hns].
  - exists (S k). replace fuel with (S k + (fuel - S k)) by lia.
    by rewrite (parse_returns d w s k _ Hns Hst).
  - exists fuel. by rewrite (parse_loops d w s fuel Hns).
Qed.

(** X5. [parse] takes its locks in ascending order of lock ID.  When the
    lock list is strictly ascending at the start and every call of the
    dispatcher leaves it so (as [AddLock] does), every [Lock] call of a
    run of [parse], however long, is made while each mutex held has a
    smaller lock ID than the one about to be locked. *)
Theorem parse_locks_ascending (LockID : Inventory → N) (d : dispatcher)
    (w : W) (s : state) :
  StronglySorted (id_lt LockID) (locks s) →
  (∀ w s, StronglySorted (id_lt LockID) (locks s) →
          StronglySorted (id_lt LockID) (locks (d w s).2)) →
  ∀ fuel pre l post,
    calls_of (parse fuel d w s) = pre ++ Lock l :: post →
    Forall (λ h, (LockID h < LockID l)%N) (held pre).
Proof.
  intros Hs Hd fuel pre l post Htr.
  assert (Hall : ∀ k, StronglySorted (id_lt LockID)
                        (locks (before_pass d k w s).2)).
  { induction k as [|k IH]; [done|].
    rewrite before_pass_last. by apply Hd. }
  destruct (parse_calls d w s fuel) as [n Hn].
  pose proof (in_order_passes LockID d n w s Hall) as Hord.
  rewrite <-Hn, Htr in Hord.
  unfold held. apply Forall_reverse. by eapply in_order_held.
Qed.

(** Without a stable pass the lock list grows with every pass. *)
Lemma unstable_grows d w s n :
  (∀ k, length (locks (before_pass d k w s).2)
        ≤ length (locks (before_pass d (S k) w s).2)) →
  (∀ j, j < n → ¬ stable d w s j) →
  length (locks s) + n ≤ length (locks (before_pass d n w s).2).
Proof.
  intros Hmono. induction n as [|n IH]; intros Hns; [simpl; lia|].
  specialize (Hns n ltac:(lia)) as Hn. unfold stable in Hn.
  specialize (Hmono n). specialize (IH ltac:(intros; apply Hns; lia)). lia.
Qed.

(** X6. [parse] returns when the dispatcher only ever adds locks and the
    lock list cannot grow beyond [bound] entries: it returns after at most
    [bound - len(s.locks) + 1] passes, with one dispatcher call per pass
    and no mutex held. *)
Theorem parse_returns_when_bounded (d : dispatcher) (w : W) (s : state)
    (bound : nat) :
  (∀ k, length (locks (before_pass d k w s).2)
        ≤ length (locks (before_pass d (S k) w s).2)) →
  (∀ k, length (locks (before_pass d k w s).2) ≤ bound) →
  ∃ k, k ≤ bound - length (locks s) ∧
    (∀ fuel,
       parse (S k + fuel) d w s =
         Returned (before_pass d (S k) w s).1 (before_pass d (S k) w s).2
           (passes_calls d (S k) w s)) ∧
    length (dispatched (passes_calls d (S k) w s)) = S k ∧
    held (passes_calls d (S k) w s) = [].
Proof.
  intros Hmono Hbound.
  destruct (first_stable d w s (S (bound - length (locks s))))
    as [(k & Hk & Hst & Hns)|Hns].
  - exists k. split; [lia|]. split; [|split].
    + intros fuel. by apply parse_returns.
    + apply dispatched_passes.
    + apply held_passes.
  - pose proof (unstable_grows d w s _ Hmono Hns) as Hg.
    specialize (Hbound 0) as H0. simpl in H0.
    specialize (Hbound (S (bound - length (locks s)))). lia.
Qed.

End Cycle.

(** *** Concrete runs *)

(** Lock IDs that run against the addresses, so that the two orders can be
    told apart. *)
Definition demo_LockID (a : Inventory) : N := (10 - a)%N.

Definition empty_state : state :=
  mkState (mkThing 0 None) None [] ""%string [] false [] (mkMsgs None None ∅).

Example AddLocks_by_id :
  locks (AddLocks demo_LockID empty_state [3; 1; 2; 3; 1]%N) = [3; 2; 1]%N.
Proof. reflexivity. Qed.

Example AddLock_shift :
  AddLock_loop demo_LockID 4 0 4 8%N 2%N [7; 5; 3; 8]%N = [8; 7; 5; 3]%N ∧
  AddLock_loop demo_LockID 4 0 4 4%N 6%N [7; 5; 3; 4]%N = [7; 5; 4; 3]%N ∧
  AddLock_loop demo_LockID 4 0 4 1%N 9%N [7; 5; 3; 1]%N = [7; 5; 3; 1]%N.
Proof. repeat split. Qed.

Lemma AddLock_sorted_nodup_perm_witness :
  locks (AddLocks demo_LockID empty_state [3; 1; 2]%N) = [3; 2; 1]%N ∧
  StronglySorted (id_lt demo_LockID)
    (locks (AddLocks demo_LockID empty_state [3; 1; 2]%N)) ∧
  NoDup (locks (AddLocks demo_LockID empty_state [3; 1; 2]%N)) ∧
  (∀ x, x ∈ locks (AddLocks demo_LockID empty_state [3; 1; 2]%N)
        ↔ x ∈ [3; 1; 2]%N) ∧
  (∀ hs', hs' ≡ₚ [3; 1; 2]%N →
     locks (AddLocks demo_LockID empty_state hs')
     = locks (AddLocks demo_LockID empty_state [3; 1; 2]%N)).
Proof.
  split; [reflexivity|].
  apply (AddLock_sorted_nodup_perm demo_LockID empty_state [3; 1; 2]%N).
  - reflexivity.
  - intros a b Ha Hb Heq. unfold demo_LockID in Heq.
    repeat (apply elem_of_cons in Ha as [->|Ha]);
      repeat (apply elem_of_cons in Hb as [->|Hb]);
      try apply elem_of_nil in Ha; try apply elem_of_nil in Hb;
      try done.
Defined.

(** White space and upper case for ASCII text. *)
Definition isSpace (c : ascii) : bool :=
  match c with
  | "009"%char | "010"%char | "011"%char | "012"%char | "013"%char
  | " "%char => true
  | _ => false
  end.

Fixpoint fields_from (cur : string) (s : string) : list string :=
  match s with
  | EmptyString => if decide (cur = ""%string) then [] else [cur]
  | String c r =>
      if isSpace c then
        if decide (cur = ""%string) then fields_from ""%string r
        else cur :: fields_from ""%string r
      else fields_from (cur +:+ String c EmptyString) r
  end.

Definition ascii_Fields (s : string) : list string := fields_from ""%string s.

Definition upper_char (c : ascii) : ascii :=
  let n := nat_of_ascii c in
  if (97 <=? n)%nat && (n <=? 122)%nat then ascii_of_nat (n - 32) else c.

Fixpoint ascii_ToUpper (s : string) : string :=
  match s with
  | EmptyString => EmptyString
  | String c r => String (upper_char c) (ascii_ToUpper r)
  end.

Definition demo_NewState : Thing → string → state :=
  NewState demo_LockID ascii_Fields ascii_ToUpper.

Example NewState_look :
  let s := demo_NewState (mkThing 1 (Some (Some 4%N))) "  look " in
  cmd s = "LOOK"%string ∧ words s = ["LOOK"%string] ∧
  input s = ["look"%string] ∧ where_ s = Some 4%N ∧ locks s = [4%N].
Proof. repeat split. Qed.

Example NewState_get_ball :
  let s := demo_NewState (mkThing 1 None) "get red ball" in
  cmd s = "GET"%string ∧ words s = ["RED"; "BALL"]%string ∧
  input s = ["red"; "ball"]%string ∧ locks s = [].
Proof. repeat split. Qed.

Lemma NewState_single_word_witness :
  ascii_Fields "look" = ["look"%string] ∧
  cmd (demo_NewState (mkThing 1 None) "look") = ascii_ToUpper "look" ∧
  words (demo_NewState (mkThing 1 None) "look") = [ascii_ToUpper "look"] ∧
  input (demo_NewState (mkThing 1 None) "look") = ["look"%string].
Proof.
  split; [reflexivity|].
  apply (proj1 (NewState_single_word demo_LockID ascii_Fields ascii_ToUpper
                  (mkThing 1 None) "look")).
  reflexivity.
Defined.

(** A dispatcher that asks for the lock of inventory 5 and counts its
    calls in the world. *)
Definition demo_dispatcher : dispatcher nat :=
  λ w s, (S w, AddLock demo_LockID s (Some 5%N)).

Example parse_two_passes :
  parse nat 5 demo_dispatcher 0 empty_state
  = Returned nat 2 (set_locks empty_state [5%N])
      [Dispatch []; Lock 5%N; Dispatch [5%N]; Unlock 5%N].
Proof. reflexivity. Qed.

Lemma parse_passes_witness :
  grows nat demo_dispatcher 0 empty_state 0 ∧
  ∃ post,
    calls_of nat (parse nat 2 demo_dispatcher 0 empty_state)
      = passes_calls nat demo_dispatcher 1 0 empty_state
        ++ (Lock <$> locks (before_pass nat demo_dispatcher 1 0 empty_state).2)
        ++ [Dispatch (locks (before_pass nat demo_dispatcher 1 0 empty_state).2)]
        ++ post ∧
    length (dispatched (passes_calls nat demo_dispatcher 1 0 empty_state)) = 1 ∧
    held (passes_calls nat demo_dispatcher 1 0 empty_state
          ++ (Lock <$> locks (before_pass nat demo_dispatcher 1 0 empty_state).2))
      = locks (before_pass nat demo_dispatcher 1 0 empty_state).2.
Proof.
  assert (Hg : grows nat demo_dispatcher 0 empty_state 0).
  { unfold grows. simpl. lia. }
  split; [exact Hg|].
  apply (proj1 (proj2 (parse_passes nat demo_dispatcher 0 empty_state)) 0 0).
  - intros j Hj. lia.
  - exact Hg.
Defined.

(** A state that holds the locks of inventories 3 and 1, with the lock IDs
    7 and 9, and one that holds the lock of inventory 7, with lock ID 3. *)
Definition two_locks : state := set_locks empty_state [3; 1]%N.
Definition one_lock : state := set_locks empty_state [7]%N.

Lemma AddLock_keeps_ascending_witness :
  StronglySorted (id_le demo_LockID) (locks two_locks) ∧
  locks (AddLock demo_LockID two_locks (Some 2%N)) = [3; 2; 1]%N ∧
  StronglySorted (id_le demo_LockID)
    (locks (AddLock demo_LockID two_locks (Some 2%N))).
Proof.
  assert (Hs : StronglySorted (id_le demo_LockID) (locks two_locks)).
  { repeat constructor; unfold id_le, demo_LockID; lia. }
  split; [exact Hs|]. split; [reflexivity|].
  exact (proj1 (AddLock_keeps_ascending demo_LockID two_locks (Some 2%N) Hs)).
Defined.

(** The dispatcher that asks for the lock of inventory 5 keeps the list
    ascending, and after its first call the list no longer grows. *)
Lemma demo_dispatcher_sorted (w : nat) (s : state) :
  StronglySorted (id_lt demo_LockID) (locks s) →
  StronglySorted (id_lt demo_LockID) (locks (demo_dispatcher w s).2).
Proof.
  intros Hs. unfold demo_dispatcher. cbn [snd]. rewrite AddLock_locks.
  match goal with
  | |- context [if ?c then _ else _] => destruct c eqn:Hc; [done|]
  end.
  apply insert_by_id_sorted; [done|].
  intros e He Heq. unfold demo_LockID in Heq.
  assert (e = 5%N) as -> by lia.
  apply CanLock_elem in He. congruence.
Qed.

Lemma demo_dispatcher_passes (k : nat) :
  locks (before_pass nat demo_dispatcher k 0 empty_state).2
  = match k with O => [] | S _ => [5%N] end.
Proof.
  induction k as [|k IH]; [done|].
  rewrite before_pass_last. unfold demo_dispatcher at 1. cbn [snd].
  rewrite AddLock_locks. unfold CanLock. rewrite IH. by destruct k.
Qed.

Lemma parse_locks_ascending_witness :
  calls_of nat (parse nat 5 demo_dispatcher 0 one_lock)
    = [Lock 7%N; Dispatch [7%N]; Unlock 7%N; Lock 7%N]
      ++ Lock 5%N :: [Dispatch [7; 5]%N; Unlock 5%N; Unlock 7%N] ∧
  Forall (λ h, (demo_LockID h < demo_LockID 5)%N)
    (held [Lock 7%N; Dispatch [7%N]; Unlock 7%N; Lock 7%N]).
Proof.
  split; [reflexivity|].
  apply (parse_locks_ascending nat demo_LockID demo_dispatcher 0 one_lock)
    with (fuel := 5) (post := [Dispatch [7; 5]%N; Unlock 5%N; Unlock 7%N]).
  - repeat constructor.
  - exact demo_dispatcher_sorted.
  - reflexivity.
Defined.

Lemma parse_returns_when_bounded_witness :
  ∃ k, k ≤ 1 - length (locks empty_state) ∧
    (∀ fuel,
       parse nat (S k + fuel) demo_dispatcher 0 empty_state =
         Returned nat (before_pass nat demo_dispatcher (S k) 0 empty_state).1
           (before_pass nat demo_dispatcher (S k) 0 empty_state).2
           (passes_calls nat demo_dispatcher (S k) 0 empty_state)) ∧
    length (dispatched (passes_calls nat demo_dispatcher (S k) 0 empty_state))
      = S k ∧
    held (passes_calls nat demo_dispatcher (S k) 0 empty_state) = [].
Proof.
  apply (parse_returns_when_bounded nat demo_dispatcher 0 empty_state 1).
  - intros k. rewrite !demo_dispatcher_passes. destruct k; simpl; lia.
  - intros k. rewrite demo_dispatcher_passes. destruct k; simpl; lia.
Defined.

End State.

(** ** Package command: the state of a command (the first part of
    src/utils/command/command.go) *)

Module Command.

(** A non-nil [thing.Interface] is the address of the thing behind it. *)
Definition Thing := N.

(** The issuer of a command: the thing, and whether its dynamic type
    implements [messaging.Responder] and [messaging.Broadcaster], which is
    what the type assertions of [Respond], [Broadcast] and [Flush] test. *)
Record issuer := mkIssuer {
  issuer_thing : Thing;
  is_Responder : bool;
  is_Broadcaster : bool
}.

Section Command.

(** The arguments of a format string, of type [interface{}]. *)
Variable Any : Type.

(** [UniqueId()] and [IsAlso()] of package thing. *)
Variable UniqueId : Thing → N.
Variable IsAlso : Thing → Thing → bool.

Record responseBuffer := mkResponse {
  format : list string;
  any : list Any
}.

Record broadcastBuffer := mkBroadcast {
  bb_responseBuffer : responseBuffer;
  omit : list Thing
}.

Record Command := mkCommand {
  Issuer : option issuer;
  Verb : string;
  Nouns : list string;
  Target : string;
  (* AddLock never stores nil, so the entries are non-nil things. *)
  Locks : list Thing;
  locksModified : bool;
  response : responseBuffer;
  broadcast : broadcastBuffer
}.

(** [responseBuffer.reset] and [broadcastBuffer.reset]. *)
Definition response_reset (rb : responseBuffer) : responseBuffer :=
  mkResponse [] [].

Definition broadcast_reset (bb : broadcastBuffer) : broadcastBuffer :=
  mkBroadcast (response_reset (bb_responseBuffer bb)) [].

Definition set_response (c : Command) (rb : responseBuffer) : Command :=
  mkCommand (Issuer c) (Verb c) (Nouns c) (Target c) (Locks c)
    (locksModified c) rb (broadcast c).

Definition set_broadcast (c : Command) (bb : broadcastBuffer) : Command :=
  mkCommand (Issuer c) (Verb c) (Nouns c) (Target c) (Locks c)
    (locksModified c) (response c) bb.

(** [strings.ToUpper] and [strings.Split(_, " ")] of the Go library;
    [Split] always returns at least one string. *)
Variable ToUpper : string → string.
Variable Split : string → list string.

(** The method [New]: a new input string for an existing command. *)
Definition New_input (c : Command) (inp : string) : Command :=
  let words := Split (ToUpper inp) in
  mkCommand (Issuer c) (default ""%string (words !! 0%nat)) (drop 1 words)
    (if (1 <? length words)%nat then default ""%string (words !! 1%nat)
     else ""%string)
    (Locks c) (locksModified c) (response c) (broadcast c).

(** The function [New]. *)
Definition New (i : option issuer) (inp : string) : Command :=
  New_input
    (mkCommand i ""%string [] ""%string [] false (mkResponse [] [])
       (mkBroadcast (mkResponse [] []) []))
    inp.

(** What [Flush] hands to the issuer. *)
Inductive delivery :=
  | Responded (to : issuer) (fmt : string) (args : list Any)
  | Broadcasted (from : issuer) (omitted : list Thing) (fmt : string)
      (args : list Any).

Definition newline : string := String "010"%char EmptyString.

(** [strings.Join(elems, "\n")]. *)
Definition Join (elems : list string) : string := String.concat newline elems.

Definition Responder (c : Command) : option issuer :=
  match Issuer c with
  | Some i => if is_Responder i then Some i else None
  | None => None
  end.

Definition Broadcaster (c : Command) : option issuer :=
  match Issuer c with
  | Some i => if is_Broadcaster i then Some i else None
  | None => None
  end.

(** The first block of [Flush]: the buffered responses go to the issuer
    if it is a [Responder], and the buffer is reset either way.  [out]
    collects the deliveries made so far. *)
Definition Flush_response (c : Command) (out : list delivery)
    : Command * list delivery :=
  if (0 <? length (format (response c)))%nat then
    (set_response c (response_reset (response c)),
     match Responder c with
     | Some r =>
         out ++ [Responded r (Join (format (response c))) (any (response c))]
     | None => out
     end)
  else (c, out).

(** The second block of [Flush], for the buffered broadcasts. *)
Definition Flush_broadcast (c : Command) (out : list delivery)
    : Command * list delivery :=
  if (0 <? length (format (bb_responseBuffer (broadcast c))))%nat then
    (set_broadcast c (broadcast_reset (broadcast c)),
     match Broadcaster c with
     | Some b =>
         out ++ [Broadcasted b (omit (broadcast c))
                   (Join (format (bb_responseBuffer (broadcast c))))
                   (any (bb_responseBuffer (broadcast c)))]
     | None => out
     end)
  else (c, out).

Definition Flush (c : Command) (out : list delivery) : Command * list delivery :=
  Flush_broadcast (Flush_response c out).1 (Flush_response c out).2.

Definition Respond (c : Command) (fmt : string) (args : list Any) : Command :=
  match Responder c with
  | Some _ =>
      set_response c
        (mkResponse (format (response c) ++ [fmt]) (any (response c) ++ args))
  | None => c
  end.

(** The [OMIT] loop of [Broadcast]: a thing is appended unless it
    [IsAlso] one already in the list. *)
Definition add_omitted (have : list Thing) (om : list Thing) : list Thing :=
  foldl (λ have o1, if existsb (λ o2, IsAlso o1 o2) have then have
                    else have ++ [o1]) have om.

Definition Broadcast (c : Command) (om : list Thing) (fmt : string)
    (args : list Any) : Command :=
  match Broadcaster c with
  | Some _ =>
      let bb := broadcast c in
      set_broadcast c
        (mkBroadcast
           (mkResponse (format (bb_responseBuffer bb) ++ [fmt])
              (any (bb_responseBuffer bb) ++ args))
           (add_omitted (omit bb) om))
  | None => c
  end.

(** [CanLock]: is the thing in the [Locks] slice? *)
Definition CanLock (c : Command) (t : Thing) : bool :=
  existsb (λ l, IsAlso t l) (Locks c).

Definition LocksModified (c : Command) : bool * Command :=
  (locksModified c,
   mkCommand (Issuer c) (Verb c) (Nouns c) (Target c) (Locks c) false
     (response c) (broadcast c)).

(** The [for i := 0; i < l; i++] loop of [AddLock] over the slice [a] that
    already ends in the appended thing [t]; [n] counts the iterations that
    are left, [i] is the loop index, [uid] is [t.UniqueId()]. *)
Fixpoint AddLock_loop (n i l : nat) (t : Thing) (uid : N) (a : list Thing)
    : list Thing :=
  match n with
  | O => a
  | S n' =>
      match a !! i with
      | Some e =>
          if (UniqueId e <? uid)%N
          then <[i := t]> (Slice.copy_within a (i + 1) l i (l - 1))
          else AddLock_loop n' (S i) l t uid a
      | None => a
      end
  end.

Definition AddLock (c : Command) (t : option Thing) : Command :=
  match t with
  | None => c
  | Some t =>
      if CanLock c t then c
      else
        let a := Locks c ++ [t] in
        let l := length a in
        mkCommand (Issuer c) (Verb c) (Nouns c) (Target c)
          (if (1 <? l)%nat then AddLock_loop l 0 l t (UniqueId t) a else a)
          true (response c) (broadcast c)
  end.

(** A sequence of [AddLock] calls with non-nil things. *)
Definition AddLocks (c : Command) (ts : list Thing) : Command :=
  foldl (λ c t, AddLock c (Some t)) c ts.

(** Ascending and descending by unique ID. *)
Definition uid_lt (a b : Thing) : Prop := (UniqueId a < UniqueId b)%N.
Definition uid_gt (a b : Thing) : Prop := (UniqueId b < UniqueId a)%N.

(** Nothing is buffered for the issuer, nothing for the location. *)
Definition response_empty (c : Command) : Prop :=
  format (response c) = [] ∧ any (response c) = [].

Definition broadcast_empty (c : Command) : Prop :=
  format (bb_responseBuffer (broadcast c)) = [] ∧
  any (bb_responseBuffer (broadcast c)) = [] ∧
  omit (broadcast c) = [].

(** The commands that the package can produce: made by [New], changed by
    its methods, and with the exported fields assigned at will. *)
Inductive reachable : Command → Prop :=
  | reach_New i inp : reachable (New i inp)
  | reach_New_input c inp : reachable c → reachable (New_input c inp)
  | reach_Respond c fmt args : reachable c → reachable (Respond c fmt args)
  | reach_Broadcast c om fmt args :
      reachable c → reachable (Broadcast c om fmt args)
  | reach_Flush c out : reachable c → reachable (Flush c out).1
  | reach_AddLock c t : reachable c → reachable (AddLock c t)
  | reach_LocksModified c : reachable c → reachable (LocksModified c).2
  | reach_assign c i v ns tg ls :
      reachable c →
      reachable (mkCommand i v ns tg ls (locksModified c) (response c)
                   (broadcast c)).

(** A buffer without a format holds nothing else either. *)
Definition buffers_paired (c : Command) : Prop :=
  (format (response c) = [] → any (response c) = []) ∧
  (format (bb_responseBuffer (broadcast c)) = [] →
     any (bb_responseBuffer (broadcast c)) = [] ∧ omit (broadcast c) = []).

(** *** Facts about the buffers *)

Lemma reachable_paired c : reachable c → buffers_paired c.
Proof.
  induction 1 as [i inp|c inp _ IH|c fmt args _ IH|c om fmt args _ IH
                 |c out _ IH|c t _ IH|c _ IH|c i v ns tg ls _ IH];
    unfold buffers_paired in *; simpl.
  - done.
  - done.
  - unfold Respond. destruct (Responder c); [|done]. simpl.
    split; [|apply IH]. intros Hf. by apply app_eq_nil in Hf as [_ ?].
  - unfold Broadcast. destruct (Broadcaster c); [|done]. simpl.
    split; [apply IH|]. intros Hf. by apply app_eq_nil in Hf as [_ ?].
  - unfold Flush, Flush_broadcast, Flush_response.
    destruct (0 <? length (format (response c)))%nat eqn:H1; simpl;
      destruct (0 <? length (format (bb_responseBuffer (broadcast c))))%nat
        eqn:H2; simpl; try done; split; try done; apply IH.
  - unfold AddLock. destruct t as [t|]; [|done].
    by destruct (CanLock c t).
  - done.
  - done.
Qed.

(** Whatever the command, [Flush] leaves no format string behind, and a
    second [Flush] right after it finds nothing to do. *)
Lemma Flush_formats c out :
  format (response (Flush c out).1) = [] ∧
  format (bb_responseBuffer (broadcast (Flush c out).1)) = [] ∧
  Flush (Flush c out).1 (Flush c out).2 = Flush c out.
Proof.
  assert (H0 : (0 <? length (@nil string))%nat = false) by done.
  unfold Flush, Flush_broadcast, Flush_response.
  destruct (0 <? length (format (response c)))%nat eqn:H1; simpl;
    destruct (0 <? length (format (bb_responseBuffer (broadcast c))))%nat
      eqn:H2; simpl; rewrite ?H0, ?H1, ?H2; simpl; rewrite ?H0, ?H1, ?H2;
    repeat split; try done.
  all: by destruct (format (response c));
       destruct (format (bb_responseBuffer (broadcast c))).
Qed.

Lemma Flush_keeps_paired c out :
  buffers_paired c → buffers_paired (Flush c out).1.
Proof.
  unfold buffers_paired, Flush, Flush_broadcast, Flush_response.
  intros [Hr Hb].
  destruct (0 <? length (format (response c)))%nat; simpl;
    destruct (0 <? length (format (bb_responseBuffer (broadcast c))))%nat;
    simpl; done.
Qed.

(** C10. After [Flush] on a command the package can produce, the response
    buffer and the broadcast buffer are both empty, whether or not the
    issuer implements [Responder] or [Broadcaster]; a [Flush] right after
    it delivers nothing more and changes nothing, so the two together
    deliver what the first alone delivers. *)
Theorem Flush_empties_buffers (c : Command) (out : list delivery) :
  reachable c →
  response_empty (Flush c out).1 ∧
  broadcast_empty (Flush c out).1 ∧
  (Flush (Flush c out).1 (Flush c out).2).2 = (Flush c out).2 ∧
  (Flush (Flush c out).1 (Flush c out).2).1 = (Flush c out).1.
Proof.
  intros Hc.
  destruct (Flush_formats c out) as (Hf1 & Hf2 & Hagain).
  destruct (Flush_keeps_paired c out (reachable_paired c Hc)) as [Hr Hb].
  unfold response_empty, broadcast_empty.
  rewrite Hagain. repeat split; try done.
  - by apply Hr.
  - by apply Hb.
  - by apply Hb.
Qed.

(** An issuer that is neither a [Responder] nor a [Broadcaster] is handed
    nothing; the buffers are reset all the same. *)
Lemma Flush_deaf_issuer c out :
  Responder c = None → Broadcaster c = None → (Flush c out).2 = out.
Proof.
  unfold Flush, Flush_broadcast, Flush_response. intros Hr Hb.
  destruct (0 <? length (format (response c)))%nat; simpl;
    destruct (0 <? length (format (bb_responseBuffer (broadcast c))))%nat;
    simpl; rewrite ?Hr; try done;
    unfold Broadcaster in *; simpl; by rewrite Hb.
Qed.

(** *** Facts about the lock list *)

Lemma AddLock_loop_by_uid n : ∀ i l t uid a,
  AddLock_loop n i l t uid a
  = Slice.insert_loop (λ e, (UniqueId e <? uid)%N) n i l t a.
Proof.
  induction n as [|n IH]; intros i l t uid a; [done|].
  simpl. destruct (a !! i) as [e|]; [|done].
  destruct (UniqueId e <? uid)%N; [done|]. apply IH.
Qed.

(** [AddLock] on a thing not yet listed inserts it before the first entry
    with a smaller unique ID. *)
Lemma AddLock_Locks c t :
  Locks (AddLock c (Some t)) =
    if CanLock c t then Locks c
    else Slice.insert_before (λ e, (UniqueId e <? UniqueId t)%N) t (Locks c).
Proof.
  unfold AddLock. destruct (CanLock c t); [done|]. cbn [Locks].
  destruct (Locks c) as [|e r] eqn:Hl; [done|].
  assert (Hlen : length ((e :: r) ++ [t]) = S (length (e :: r)))
    by (rewrite length_app; simpl; lia).
  rewrite Hlen at 1.
  replace (1 <? S (length (e :: r)))%nat with true by done.
  rewrite Hlen at 1. rewrite AddLock_loop_by_uid.
  exact (Slice.insert_loop_spec (λ e, (UniqueId e <? UniqueId t)%N)
           (e :: r) [] t 0 _ (N.ltb_irrefl _) eq_refl eq_refl).
Qed.

Lemma insert_before_descending t ls :
  StronglySorted uid_gt ls →
  (∀ e, e ∈ ls → UniqueId e ≠ UniqueId t) →
  StronglySorted uid_gt
    (Slice.insert_before (λ e, (UniqueId e <? UniqueId t)%N) t ls).
Proof.
  induction 1 as [|e r Hr IH He]; intros Hne; simpl.
  - repeat constructor.
  - destruct (UniqueId e <? UniqueId t)%N eqn:Hlt.
    + apply N.ltb_lt in Hlt. constructor; [by constructor|].
      constructor; [done|].
      eapply Forall_impl; [exact He|].
      unfold uid_gt. intros; lia.
    + apply N.ltb_ge in Hlt.
      assert (UniqueId e ≠ UniqueId t) by (apply Hne; left).
      constructor.
      * apply IH. intros e' He'. apply Hne. by right.
      * apply Forall_forall. intros x Hx.
        apply Slice.insert_before_elem in Hx as [->|Hx].
        -- unfold uid_gt. lia.
        -- rewrite Forall_forall in He. by apply He.
Qed.

(** What the code keeps: when [IsAlso] compares unique IDs, the [Locks]
    slice stays sorted from the highest unique ID to the lowest. *)
Lemma AddLocks_descending :
  (∀ a b, IsAlso a b = true ↔ UniqueId a = UniqueId b) →
  ∀ ts c,
    StronglySorted uid_gt (Locks c) →
    StronglySorted uid_gt (Locks (AddLocks c ts)).
Proof.
  intros HIs ts. induction ts as [|t ts IH]; intros c Hc; [done|].
  cbn [AddLocks foldl]. apply IH. rewrite AddLock_Locks.
  destruct (CanLock c t) eqn:Hcan; [done|].
  apply insert_before_descending; [done|].
  intros e He Heq.
  assert (CanLock c t = true); [|congruence].
  unfold CanLock. apply existsb_exists. exists e.
  split; [by apply list_elem_of_In|]. by apply HIs.
Qed.

(** *** Buffered messages *)

(** The calls that fill the buffers, and [New] with a new input string. *)
Inductive op :=
  | Op_Respond (fmt : string) (args : list Any)
  | Op_Broadcast (om : list Thing) (fmt : string) (args : list Any)
  | Op_New (inp : string).

Definition run_op (c : Command) (o : op) : Command :=
  match o with
  | Op_Respond fmt args => Respond c fmt args
  | Op_Broadcast om fmt args => Broadcast c om fmt args
  | Op_New inp => New_input c inp
  end.

(** The responses and the broadcasts among the calls, in call order. *)
Definition responses (ops : list op) : list (string * list Any) :=
  omap (λ o, match o with Op_Respond f a => Some (f, a) | _ => None end) ops.

Definition broadcasts (ops : list op) : list (list Thing * string * list Any) :=
  omap (λ o, match o with Op_Broadcast om f a => Some (om, f, a) | _ => None end)
    ops.

Lemma add_omitted_app have om1 om2 :
  add_omitted have (om1 ++ om2) = add_omitted (add_omitted have om1) om2.
Proof. apply foldl_app. Qed.

(** What the buffers of a new command hold after a run of calls. *)
Lemma run_buffers i inp ops :
  let c := foldl run_op (New (Some i) inp) ops in
  Issuer c = Some i ∧
  format (response c)
    = (if is_Responder i then (responses ops).*1 else []) ∧
  any (response c)
    = (if is_Responder i then concat (responses ops).*2 else []) ∧
  format (bb_responseBuffer (broadcast c))
    = (if is_Broadcaster i then (broadcasts ops).*1.*2 else []) ∧
  any (bb_responseBuffer (broadcast c))
    = (if is_Broadcaster i then concat (broadcasts ops).*2 else []) ∧
  omit (broadcast c)
    = (if is_Broadcaster i then add_omitted [] (concat (broadcasts ops).*1.*1)
       else []).
Proof.
  induction ops as [|o ops IH] using rev_ind; cbv zeta.
  - simpl. by destruct (is_Responder i), (is_Broadcaster i).
  - rewrite foldl_app. cbn [foldl].
    destruct IH as (Hi & Hf & Ha & Hbf & Hba & Hbo).
    unfold responses, broadcasts in *. rewrite !omap_app.
    destruct o as [fmt args|om fmt args|inp']; simpl.
    + unfold Respond, Responder. rewrite Hi.
      destruct (is_Responder i); simpl.
      * rewrite Hf, Ha, !fmap_app, concat_app. simpl.
        rewrite !app_nil_r. by destruct (is_Broadcaster i).
      * rewrite !app_nil_r. done.
    + unfold Broadcast, Broadcaster. rewrite Hi.
      destruct (is_Broadcaster i); simpl.
      * rewrite Hbf, Hba, Hbo, !fmap_app, !concat_app, add_omitted_app. simpl.
        rewrite !app_nil_r. done.
      * rewrite !app_nil_r. done.
    + rewrite !app_nil_r. done.
Qed.

(** X7. What [Flush] delivers for a new command after any run of
    [Respond], [Broadcast] and [New(input)] calls: at most one response,
    then at most one broadcast, whatever the order of the calls was.  The
    response carries the formats of all [Respond] calls joined by newlines
    and all their arguments, in call order; the broadcast likewise, with
    the omitted things of all [Broadcast] calls.  An issuer that is not a
    [Responder] (not a [Broadcaster]) gets no response (no broadcast), and
    [New(input)] loses nothing that is buffered. *)
Theorem Flush_delivers_buffered (i : issuer) (inp : string) (ops : list op)
    (out : list delivery) :
  (Flush (foldl run_op (New (Some i) inp) ops) out).2 =
    out
    ++ (if is_Responder i && negb (bool_decide (responses ops = []))
        then [Responded i (Join (responses ops).*1)
                (concat (responses ops).*2)]
        else [])
    ++ (if is_Broadcaster i && negb (bool_decide (broadcasts ops = []))
        then [Broadcasted i
                (add_omitted [] (concat (broadcasts ops).*1.*1))
                (Join (broadcasts ops).*1.*2)
                (concat (broadcasts ops).*2)]
        else []).
Proof.
  destruct (run_buffers i inp ops) as (Hi & Hf & Ha & Hbf & Hbo & Hom).
  set (c := foldl run_op (New (Some i) inp) ops) in *.
  unfold Flush, Flush_broadcast, Flush_response, Responder, Broadcaster.
  rewrite Hi, Hf, Ha.
  destruct (is_Responder i); simpl.
  - destruct (responses ops) as [|r rs] eqn:Hr; simpl.
    + rewrite Hi, Hbf, Hbo, Hom.
      destruct (is_Broadcaster i); simpl; [|by rewrite app_nil_r].
      destruct (broadcasts ops) as [|b bs]; simpl; [by rewrite app_nil_r|].
      done.
    + rewrite Hi, Hbf, Hbo, Hom.
      destruct (is_Broadcaster i); simpl; [|done].
      destruct (broadcasts ops) as [|b bs]; simpl; [done|].
      by rewrite <-app_assoc.
  - rewrite Hi, Hbf, Hbo, Hom.
    destruct (is_Broadcaster i); simpl; [|by rewrite app_nil_r].
    destruct (broadcasts ops) as [|b bs]; simpl; [by rewrite app_nil_r|].
    done.
Qed.

(** *** The omitted things of a broadcast *)

(** No entry of the list [IsAlso] an entry before it. *)
Definition omit_distinct (om : list Thing) : Prop :=
  ∀ i j o1 o2, i < j → om !! i = Some o1 → om !! j = Some o2 →
               IsAlso o2 o1 = false.

Lemma add_omitted_distinct om : ∀ have,
  omit_distinct have → omit_distinct (add_omitted have om).
Proof.
  induction om as [|o om IH]; intros have Hd; [done|].
  cbn [add_omitted foldl]. apply IH.
  destruct (existsb (λ o2, IsAlso o o2) have) eqn:Hex; [done|].
  intros i j o1 o2 Hij H1 H2.
  destruct (decide (j < length have)) as [Hj|Hj].
  - rewrite lookup_app_l in H1, H2 by lia. exact (Hd i j o1 o2 Hij H1 H2).
  - rewrite lookup_app_r in H2 by lia.
    apply list_lookup_singleton_Some in H2 as [Hj' <-].
    rewrite lookup_app_l in H1 by lia.
    destruct (IsAlso o o1) eqn:Hio; [|done].
    assert (existsb (λ o2, IsAlso o o2) have = true); [|congruence].
    apply existsb_exists. exists o1. split; [|done].
    apply list_elem_of_In. by eapply list_elem_of_lookup_2.
Qed.

Lemma add_omitted_prefix om : ∀ have, have `prefix_of` add_omitted have om.
Proof.
  induction om as [|o om IH]; intros have; [done|].
  cbn [add_omitted foldl].
  destruct (existsb (λ o2, IsAlso o o2) have); [apply IH|].
  etrans; [|apply IH]. by apply prefix_app_r.
Qed.

Lemma add_omitted_covers om : ∀ have o,
  o ∈ om →
  o ∈ add_omitted have om ∨
  ∃ o2, o2 ∈ add_omitted have om ∧ IsAlso o o2 = true.
Proof.
  induction om as [|o' om IH]; intros have o Ho; [by apply elem_of_nil in Ho|].
  cbn [add_omitted foldl].
  apply elem_of_cons in Ho as [->|Ho]; [|by apply IH].
  destruct (existsb (λ o2, IsAlso o' o2) have) eqn:Hex.
  - right. apply existsb_exists in Hex as (o2 & Hin & Hal).
    exists o2. split; [|done].
    eapply elem_of_prefix; [by apply list_elem_of_In|apply add_omitted_prefix].
  - left. eapply elem_of_prefix; [|apply add_omitted_prefix].
    apply elem_of_app. right. left.
Qed.

Lemma reachable_omit_distinct c :
  reachable c → omit_distinct (omit (broadcast c)).
Proof.
  assert (Hnil : omit_distinct []).
  { intros i j o1 o2 _ H1. by rewrite lookup_nil in H1. }
  induction 1 as [i inp|c inp _ IH|c fmt args _ IH|c om fmt args _ IH
                 |c out _ IH|c t _ IH|c _ IH|c i v ns tg ls _ IH]; simpl;
    try done.
  - unfold Respond. by destruct (Responder c).
  - unfold Broadcast. destruct (Broadcaster c); [|done]. simpl.
    by apply add_omitted_distinct.
  - unfold Flush, Flush_broadcast, Flush_response.
    destruct (0 <? length (format (response c)))%nat; simpl;
      by destruct (0 <? length (format (bb_responseBuffer (broadcast c))))%nat.
  - unfold AddLock. destruct t as [t|]; [|done].
    by destruct (CanLock c t).
Qed.

(** X8. [Broadcast] never lists an omitted thing twice: in every command
    the package can produce, no entry of the omit list [IsAlso] an entry
    before it.  A [Broadcast] by a [Broadcaster] keeps the entries there
    are, in their places, and every thing it is asked to omit is then in
    the list or [IsAlso] a thing that is. *)
Theorem Broadcast_omits_once (c : Command) (om : list Thing) (fmt : string)
    (args : list Any) :
  reachable c →
  omit_distinct (omit (broadcast c)) ∧
  omit_distinct (omit (broadcast (Broadcast c om fmt args))) ∧
  (Broadcaster c ≠ None →
   omit (broadcast c) `prefix_of` omit (broadcast (Broadcast c om fmt args)) ∧
   ∀ o, o ∈ om →
        o ∈ omit (broadcast (Broadcast c om fmt args)) ∨
        ∃ o2, o2 ∈ omit (broadcast (Broadcast c om fmt args)) ∧
              IsAlso o o2 = true).
Proof.
  intros Hc. split; [by apply reachable_omit_distinct|].
  split; [by apply reachable_omit_distinct, reach_Broadcast|].
  intros Hb. unfold Broadcast. destruct (Broadcaster c); [|done]. simpl.
  split; [apply add_omitted_prefix|]. intros o. apply add_omitted_covers.
Qed.

(** *** The modified flag *)

Lemma AddLock_flag c t :
  locksModified (AddLock c t)
  = match t with
    | Some x => locksModified c || negb (CanLock c x)
    | None => locksModified c
    end.
Proof.
  unfold AddLock. destruct t as [x|]; [|done].
  destruct (CanLock c x); simpl; [by rewrite orb_false_r|by rewrite orb_true_r].
Qed.

Lemma AddLocks_flag_stays ts : ∀ c,
  locksModified c = true → locksModified (AddLocks c ts) = true.
Proof.
  induction ts as [|t ts IH]; intros c Hc; [done|].
  cbn [AddLocks foldl]. apply IH. by rewrite AddLock_flag, Hc.
Qed.

(** X9. [LocksModified] returns the flag and clears it, leaving [Locks]
    alone, so that a second call returns false.  After that, [AddLock]
    sets the flag exactly when it adds a thing: not for nil, and not for a
    thing that [CanLock] finds in [Locks].  On a new command the flag is
    set by the first [AddLock] of a thing and by no call before it. *)
Theorem LocksModified_reports_additions (c : Command) (t : option Thing) :
  (LocksModified c).1 = locksModified c ∧
  Locks (LocksModified c).2 = Locks c ∧
  (LocksModified (LocksModified c).2).1 = false ∧
  (LocksModified (AddLock (LocksModified c).2 t)).1
    = match t with Some x => negb (CanLock c x) | None => false end ∧
  (∀ i inp ts,
     (LocksModified (AddLocks (New i inp) ts)).1 = negb (bool_decide (ts = []))).
Proof.
  split; [done|]. split; [done|]. split; [done|]. split.
  - cbn [LocksModified fst]. rewrite AddLock_flag. by destruct t.
  - intros i inp [|x ts]; [done|].
    cbn [LocksModified fst AddLocks foldl]. apply AddLocks_flag_stays.
    by rewrite AddLock_flag.
Qed.

(** X10. What [AddLock] keeps, when [IsAlso] holds between the things that
    have the same unique ID: a [Locks] slice that is sorted from the
    highest unique ID to the lowest stays so.  The slice then holds what
    it held and the thing added, and [CanLock] finds the thing. *)
Theorem AddLock_keeps_descending (c : Command) (t : Thing) :
  (∀ a b, IsAlso a b = true ↔ UniqueId a = UniqueId b) →
  StronglySorted uid_gt (Locks c) →
  StronglySorted uid_gt (Locks (AddLock c (Some t))) ∧
  (∀ x, x ∈ Locks (AddLock c (Some t)) ↔
        x ∈ Locks c ∨ (x = t ∧ CanLock c t = false)) ∧
  CanLock (AddLock c (Some t)) t = true.
Proof.
  intros HIs Hs.
  assert (Hel : ∀ x, x ∈ Locks (AddLock c (Some t)) ↔
                     x ∈ Locks c ∨ (x = t ∧ CanLock c t = false)).
  { intros x. rewrite AddLock_Locks. destruct (CanLock c t) eqn:Hcan.
    - split; [tauto|]. by intros [?|[_ ?]].
    - rewrite Slice.insert_before_elem. split; [|tauto].
      intros [->|?]; tauto. }
  split; [|split; [exact Hel|]].
  - exact (AddLocks_descending HIs [t] c Hs).
  - destruct (CanLock c t) eqn:Hcan.
    + unfold AddLock. by rewrite Hcan.
    + unfold CanLock. apply existsb_exists. exists t. split.
      * apply list_elem_of_In, Hel. by right.
      * by apply HIs.
Qed.

End Command.

(** *** Concrete runs *)

(** Things whose unique ID is their address. *)
Definition demo_UniqueId (t : Thing) : N := t.

(** Modelled from the spec: package thing, and with it [IsAlso], is not
    among the sources.  The spec has [AddLock] skip what is already
    present, "checked via identity equality", so [IsAlso] is taken to hold
    between a thing and itself only. *)
Definition demo_IsAlso (a b : Thing) : bool := bool_decide (a = b).

Fixpoint split_from (cur : string) (s : string) : list string :=
  match s with
  | EmptyString => [cur]
  | String c r =>
      if (c =? " ")%char then cur :: split_from ""%string r
      else split_from (cur +:+ String c EmptyString) r
  end.

(** [strings.Split(s, " ")] *)
Definition ascii_Split (s : string) : list string := split_from ""%string s.

Definition player : issuer := mkIssuer 1%N true true.
Definition lever : issuer := mkIssuer 2%N false false.

Definition demo_New (i : option issuer) (inp : string) : Command string :=
  New string State.ascii_ToUpper ascii_Split i inp.

Example New_get_ball :
  Verb string (demo_New (Some player) "get ball") = "GET"%string ∧
  Nouns string (demo_New (Some player) "get ball") = ["BALL"%string] ∧
  Target string (demo_New (Some player) "get ball") = "BALL"%string ∧
  Target string (demo_New (Some player) "look") = ""%string.
Proof. repeat split. Qed.

Definition demo_AddLocks (c : Command string) (ts : list Thing) : Command string :=
  AddLocks string demo_UniqueId demo_IsAlso c ts.

(** C2. [Command.AddLock] does not keep [Locks] ascending by unique ID.
    Two calls on a new command, for the things with unique IDs 3 and then 7,
    leave [Locks] as [7; 3]; the calls for 3, 7, 9 and 4 of the method's own
    comment leave [9; 7; 4; 3], not [3; 4; 7; 9]; and on the slice
    [3; 7; 9] of that comment the call for 4 gives [4; 3; 7; 9].  The test
    [uid > c.Locks[i].UniqueId()] finds the first entry with a smaller ID,
    not the first with a larger one. *)
Theorem AddLock_not_ascending :
  Locks string (demo_AddLocks (demo_New (Some player) "get ball") [3; 7]%N)
    = [7; 3]%N ∧
  ¬ StronglySorted (uid_lt demo_UniqueId)
      (Locks string
         (demo_AddLocks (demo_New (Some player) "get ball") [3; 7]%N)) ∧
  Locks string
    (demo_AddLocks (demo_New (Some player) "get ball") [3; 7; 9; 4]%N)
    = [9; 7; 4; 3]%N ∧
  AddLock_loop demo_UniqueId 4 0 4 4%N 4%N [3; 7; 9; 4]%N = [4; 3; 7; 9]%N.
Proof.
  repeat split.
  intros Hs. change (StronglySorted (uid_lt demo_UniqueId) [7; 3]%N) in Hs.
  apply StronglySorted_inv in Hs as [_ Hs].
  apply Forall_inv in Hs. unfold uid_lt, demo_UniqueId in Hs. lia.
Qed.

Example AddLocks_descending_run :
  StronglySorted (uid_gt demo_UniqueId)
    (Locks string
       (demo_AddLocks (demo_New (Some player) "get ball") [3; 7; 9; 4; 7]%N)).
Proof.
  apply AddLocks_descending.
  - intros a b. unfold demo_IsAlso, demo_UniqueId.
    apply bool_decide_eq_true.
  - constructor.
Qed.

(** A command with two responses and a broadcast in its buffers. *)
Definition busy_command (i : issuer) : Command string :=
  Respond string
    (Broadcast string demo_IsAlso
       (Respond string (demo_New (Some i) "say hi") "You say: %s" ["hi"%string])
       [1; 1]%N "%s says: %s" ["Someone"; "hi"]%string)
    "Ok." [].

Example Flush_player :
  (Flush string (busy_command player) []).2
  = [Responded string player ("You say: %s" +:+ newline +:+ "Ok.")
       ["hi"%string];
     Broadcasted string player [1%N] "%s says: %s" ["Someone"; "hi"]%string].
Proof. reflexivity. Qed.

Example Flush_lever :
  (Flush string (busy_command lever) []).2 = [].
Proof. reflexivity. Qed.

Lemma busy_command_reachable i : reachable string demo_UniqueId demo_IsAlso
                                State.ascii_ToUpper ascii_Split (busy_command i).
Proof.
  unfold busy_command. repeat constructor.
Qed.

Lemma Flush_empties_buffers_witness :
  response_empty string (Flush string (busy_command player) []).1 ∧
  broadcast_empty string (Flush string (busy_command player) []).1 ∧
  (Flush string (Flush string (busy_command player) []).1
     (Flush string (busy_command player) []).2).2
    = (Flush string (busy_command player) []).2 ∧
  (Flush string (Flush string (busy_command player) []).1
     (Flush string (busy_command player) []).2).1
    = (Flush string (busy_command player) []).1.
Proof.
  apply (Flush_empties_buffers string demo_UniqueId demo_IsAlso
           State.ascii_ToUpper ascii_Split (busy_command player) []).
  apply busy_command_reachable.
Defined.

Lemma Broadcast_omits_once_witness :
  omit_distinct demo_IsAlso (omit string (broadcast string (busy_command player))) ∧
  omit_distinct demo_IsAlso
    (omit string
       (broadcast string
          (Broadcast string demo_IsAlso (busy_command player) [3; 1; 3]%N
             "%s waves." ["Someone"%string]))) ∧
  omit string
    (broadcast string
       (Broadcast string demo_IsAlso (busy_command player) [3; 1; 3]%N
          "%s waves." ["Someone"%string])) = [1; 3]%N.
Proof.
  destruct (Broadcast_omits_once string demo_UniqueId demo_IsAlso
              State.ascii_ToUpper ascii_Split (busy_command player)
              [3; 1; 3]%N "%s waves." ["Someone"%string]
              (busy_command_reachable player)) as (H1 & H2 & _).
  split; [exact H1|]. split; [exact H2|reflexivity].
Defined.

Lemma AddLock_keeps_descending_witness :
  StronglySorted (uid_gt demo_UniqueId)
    (Locks string (demo_AddLocks (demo_New (Some player) "get ball") [3; 7]%N)) ∧
  Locks string
    (AddLock string demo_UniqueId demo_IsAlso
       (demo_AddLocks (demo_New (Some player) "get ball") [3; 7]%N) (Some 4%N))
    = [7; 4; 3]%N ∧
  StronglySorted (uid_gt demo_UniqueId)
    (Locks string
       (AddLock string demo_UniqueId demo_IsAlso
          (demo_AddLocks (demo_New (Some player) "get ball") [3; 7]%N)
          (Some 4%N))).
Proof.
  assert (Hs : StronglySorted (uid_gt demo_UniqueId)
                 (Locks string
                    (demo_AddLocks (demo_New (Some player) "get ball")
                       [3; 7]%N))).
  { repeat constructor. }
  split; [exact Hs|]. split; [reflexivity|].
  apply (AddLock_keeps_descending string demo_UniqueId demo_IsAlso
           (demo_AddLocks (demo_New (Some player) "get ball") [3; 7]%N) 4%N).
  - intros a b. unfold demo_IsAlso, demo_UniqueId. apply bool_decide_eq_true.
  - exact Hs.
Defined.

End Command.

(** ** Package attr: the Action attribute ([action.go],
    src/unnamed/part_000) *)

Module Attr.

Definition Thing := N.

(** The address of an [*Action]. *)
Definition addr := N.

(** A channel made by [event.Queue]; [event.Cancel] is a channel type. *)
Definition chan := N.

(** [time.Duration] and [time.Time], in nanoseconds; 0 is the zero time. *)
Definition Duration := Z.
Definition Time := Z.

Record Action := mkAction {
  parent : option Thing;   (* the embedded Attribute *)
  after : Duration;
  jitter : Duration;
  due : Time;
  Cancel : option chan     (* nil, or the channel of the queued event *)
}.

(** Modelled from the spec: package event is not among the sources.  An
    event is queued for a thing with the input it will submit and its fire
    time; it has fired or not.  [queued_by] is bookkeeping for the proofs:
    the Action attribute whose [Action] call queued the event. *)
Record queued := mkQueued {
  for_thing : option Thing;
  submits : string;
  fires_at : Time;
  fired : bool;
  queued_by : addr
}.

(** The heap of Action attributes, the events of the scheduler by their
    cancel channel, the channels closed so far, and the events seen to
    fire, in the order they fired. *)
Record world := mkWorld {
  actions : gmap addr Action;
  events : gmap chan queued;
  closed : gset chan;
  fires : list chan
}.

Definition set_actions (w : world) (m : gmap addr Action) : world :=
  mkWorld m (events w) (closed w) (fires w).

(** Modelled from the spec: [event.Queue] "computes fireTime = now +
    baseDelay + uniformRandom(jitter), installs a new timer, and returns a
    cancellation token plus the computed fireTime".  The token is a channel
    not in use; [now] is the clock and [rnd] the random draw. *)
Definition Queue (who : addr) (t : option Thing) (inp : string)
    (delay jit : Duration) (now rnd : Z) (w : world) : chan * Time * world :=
  let ch := fresh (dom (events w)) in
  let d := (now + delay + rnd)%Z in
  (ch, d,
   mkWorld (actions w) (<[ch := mkQueued t inp d false who]> (events w))
     (closed w) (fires w)).

(** [close(ch)]; closing a closed channel panics ([None]). *)
Definition close (ch : chan) (w : world) : option world :=
  if decide (ch ∈ closed w) then None
  else Some (mkWorld (actions w) (events w) ({[ch]} ∪ closed w) (fires w)).

(** Modelled from the spec: "cancelling a live token prevents the
    associated timer callback from firing".  An event is pending, and may
    fire, while it has not fired and its channel is open. *)
Definition pending (w : world) (ch : chan) : bool :=
  match events w !! ch with
  | Some q => negb (fired q) && bool_decide (ch ∉ closed w)
  | None => false
  end.

(** The scheduler fires a pending event. *)
Definition fire (ch : chan) (w : world) : option world :=
  if pending w ch then
    Some (mkWorld (actions w)
            (alter (λ q, mkQueued (for_thing q) (submits q) (fires_at q) true
                           (queued_by q)) ch (events w))
            (closed w) (fires w ++ [ch]))
  else None.

Section Methods.

(** [FindOnAction(p)], with [Found()] and [ActionText()]: the action text
    of the parent's OnAction attribute, if it has one. *)
Variable FindOnAction : option Thing → option string.

(** [NewAction]: a new attribute on the heap. *)
Definition NewAction (aft jit : Duration) (w : world) : addr * world :=
  let a := fresh (dom (actions w)) in
  (a, set_actions w (<[a := mkAction None aft jit 0%Z None]> (actions w))).

(** The parent of the embedded Attribute, which is not among the sources,
    is set when the attribute is added to a thing. *)
Definition SetParent (a : addr) (p : option Thing) (w : world) : world :=
  match actions w !! a with
  | Some act =>
      set_actions w
        (<[a := mkAction p (after act) (jitter act) (due act) (Cancel act)]>
           (actions w))
  | None => w
  end.

(** [Copy]; the receiver [None] is the nil [*Action]. *)
Definition Action_Copy (r : option addr) (w : world) : option addr * world :=
  match r with
  | None => (None, w)
  | Some a =>
      match actions w !! a with
      | Some act =>
          let '(na, w1) := NewAction (after act) (jitter act) w in
          (Some na,
           set_actions w1
             (alter (λ n, mkAction (parent n) (after n) (jitter n) (due act)
                            (Cancel n)) na (actions w1)))
      | None => (None, w)
      end
  end.

(** [Abort] *)
Definition Action_Abort (r : option addr) (w : world) : option world :=
  match r with
  | None => Some w
  | Some a =>
      match actions w !! a with
      | Some act =>
          match Cancel act with
          | Some ch =>
              w1 ← close ch w;
              Some (set_actions w1
                      (<[a := mkAction (parent act) (after act) (jitter act)
                                (due act) None]> (actions w1)))
          | None => Some w
          end
      | None => Some w
      end
  end.

(** [Action] *)
Definition Action_Action (r : option addr) (now rnd : Z) (w : world)
    : option world :=
  match r with
  | None => Some w
  | Some a =>
      w1 ← Action_Abort (Some a) w;
      match actions w1 !! a with
      | Some act =>
          let p := parent act in
          match FindOnAction p with
          | Some text =>
              let '(ch, d, w2) :=
                Queue a p ("$ACTION " +:+ text) (after act) (jitter act)
                  now rnd w1 in
              Some (set_actions w2
                      (<[a := mkAction (parent act) (after act) (jitter act)
                                d (Some ch)]> (actions w2)))
          | None => Some w1
          end
      | None => Some w1
      end
  end.

(** [Pending]; a nil receiver panics ([None]). *)
Definition Action_Pending (r : option addr) (w : world) : option bool :=
  a ← r; act ← actions w !! a; Some (bool_decide (Cancel act ≠ None)).

(** [Free]: [Abort], then [Attribute.Free()], which is not among the
    sources and is taken to drop the parent. *)
Definition Action_Free (r : option addr) (w : world) : option world :=
  match r with
  | None => Some w
  | Some a => w1 ← Action_Abort (Some a) w; Some (SetParent a None w1)
  end.

(** One move of the program: an attribute is made, given a parent, copied,
    scheduled, aborted or freed, or the scheduler fires a pending event.
    No other code closes a [Cancel] channel. *)
Inductive step : world → world → Prop :=
  | step_NewAction w aft jit : step w (NewAction aft jit w).2
  | step_SetParent w a p : step w (SetParent a p w)
  | step_Copy w r : step w (Action_Copy r w).2
  | step_Abort w r w' : Action_Abort r w = Some w' → step w w'
  | step_Action w r now rnd w' : Action_Action r now rnd w = Some w' → step w w'
  | step_Free w r w' : Action_Free r w = Some w' → step w w'
  | step_fire w ch w' : fire ch w = Some w' → step w w'.

(** The worlds the program can be in, starting with no attribute and no
    event. *)
Definition reachable (w : world) : Prop := rtc step (mkWorld ∅ ∅ ∅ []) w.

(** The pending events that attribute [a] queued. *)
Definition pending_of (w : world) (a : addr) (ch : chan) : Prop :=
  pending w ch = true ∧ ∃ q, events w !! ch = Some q ∧ queued_by q = a.

(** What holds in every reachable world. *)
Record invariant (w : world) : Prop := mkInvariant {
  inv_cancel : ∀ a act ch,
    actions w !! a = Some act → Cancel act = Some ch →
    (ch ∉ closed w) ∧ (∃ q, events w !! ch = Some q ∧ queued_by q = a);
  inv_pending : ∀ ch q,
    events w !! ch = Some q → pending w ch = true →
    ∃ act, actions w !! (queued_by q) = Some act ∧ Cancel act = Some ch;
  inv_closed : closed w ⊆ dom (events w);
  inv_fires : NoDup (fires w) ∧
    ∀ ch, ch ∈ fires w ↔ ∃ q, events w !! ch = Some q ∧ fired q = true
}.

(** *** Facts about pending events *)

Lemma pending_true w ch :
  pending w ch = true ↔
  ∃ q, events w !! ch = Some q ∧ fired q = false ∧ ch ∉ closed w.
Proof.
  unfold pending. destruct (events w !! ch) as [q|]; split.
  - intros [Hf Hc]%andb_true_iff. exists q.
    apply negb_true_iff in Hf. apply bool_decide_eq_true in Hc. done.
  - intros (q' & [= <-] & Hf & Hc). apply andb_true_iff. split.
    + by apply negb_true_iff.
    + by apply bool_decide_eq_true.
  - done.
  - by intros (q & ? & _).
Qed.

(** A closed channel's event never fires. *)
Lemma closed_never_fires w ch : ch ∈ closed w → fire ch w = None.
Proof.
  intros Hc. unfold fire.
  destruct (pending w ch) eqn:Hp; [|done].
  apply pending_true in Hp as (q & _ & _ & Hn). done.
Qed.

Lemma invariant_init : invariant (mkWorld ∅ ∅ ∅ []).
Proof.
  split; simpl.
  - intros a act ch Ha. by rewrite lookup_empty in Ha.
  - intros ch q Hq. by rewrite lookup_empty in Hq.
  - done.
  - split; [constructor|]. intros ch. split.
    + by intros ?%elem_of_nil.
    + intros (q & Hq & _). by rewrite lookup_empty in Hq.
Qed.

(** A new attribute without an event. *)
Lemma invariant_alloc w a act :
  invariant w → actions w !! a = None → Cancel act = None →
  invariant (set_actions w (<[a := act]> (actions w))).
Proof.
  intros [I1 I2 I3 I4] Ha Hc. split; simpl; [| |done|done].
  - intros a' act' ch Ha' Hc'.
    destruct (decide (a = a')) as [<-|Hne].
    + rewrite lookup_insert_eq in Ha'. congruence.
    + rewrite lookup_insert_ne in Ha' by done. eauto.
  - intros ch q Hq Hp.
    destruct (I2 ch q Hq Hp) as (act' & Ha' & Hc').
    exists act'. split; [|done].
    rewrite lookup_insert_ne; [done|]. intros Heq. congruence.
Qed.

(** A change to an attribute that keeps its channel. *)
Lemma invariant_update w a act act' :
  invariant w → actions w !! a = Some act → Cancel act' = Cancel act →
  invariant (set_actions w (<[a := act']> (actions w))).
Proof.
  intros [I1 I2 I3 I4] Ha Hc. split; simpl; [| |done|done].
  - intros a' act'' ch Ha' Hc'.
    destruct (decide (a = a')) as [<-|Hne].
    + rewrite lookup_insert_eq in Ha'. injection Ha' as <-.
      apply (I1 a act ch Ha). congruence.
    + rewrite lookup_insert_ne in Ha' by done. eauto.
  - intros ch q Hq Hp.
    destruct (I2 ch q Hq Hp) as (act'' & Ha' & Hc').
    destruct (decide (a = queued_by q)) as [Heq|Hne].
    + exists act'. rewrite <-Heq, lookup_insert_eq. split; [done|].
      rewrite <-Heq in Ha'. congruence.
    + exists act''. by rewrite lookup_insert_ne.
Qed.

(** Closing the channel of an attribute and forgetting it. *)
Lemma invariant_abort w a act ch :
  invariant w → actions w !! a = Some act → Cancel act = Some ch →
  invariant
    (mkWorld
       (<[a := mkAction (parent act) (after act) (jitter act) (due act) None]>
          (actions w))
       (events w) ({[ch]} ∪ closed w) (fires w)).
Proof.
  intros [I1 I2 I3 I4] Ha Hc.
  destruct (I1 a act ch Ha Hc) as (Hnc & q & Hq & Hby).
  split; simpl.
  - intros a' act' ch' Ha' Hc'.
    destruct (decide (a = a')) as [<-|Hne].
    + rewrite lookup_insert_eq in Ha'. by injection Ha' as <-.
    + rewrite lookup_insert_ne in Ha' by done.
      destruct (I1 a' act' ch' Ha' Hc') as (Hnc' & q' & Hq' & Hby').
      split; [|eauto]. intros [->%elem_of_singleton|?]%elem_of_union; [|done].
      congruence.
  - intros ch' q' Hq' Hp'.
    apply pending_true in Hp' as (q'' & Hq'' & Hf & Hnc'). simpl in *.
    assert (ch' ≠ ch) as Hne by set_solver.
    destruct (I2 ch' q' Hq') as (act' & Ha' & Hc').
    { apply pending_true. exists q''. set_solver. }
    exists act'. split; [|done].
    rewrite lookup_insert_ne; [done|]. intros Heq. congruence.
  - apply union_least; [|done].
    apply singleton_subseteq_l, elem_of_dom. eauto.
  - done.
Qed.

(** Queueing an event for an attribute that has none. *)
Lemma invariant_queue w a act t inp d d' :
  invariant w → actions w !! a = Some act → Cancel act = None →
  invariant
    (mkWorld
       (<[a := mkAction (parent act) (after act) (jitter act) d'
                 (Some (fresh (dom (events w))))]> (actions w))
       (<[fresh (dom (events w)) := mkQueued t inp d false a]> (events w))
       (closed w) (fires w)).
Proof.
  intros [I1 I2 I3 I4] Ha Hc.
  pose proof (is_fresh (dom (events w))) as Hfresh.
  assert (Hnone : events w !! fresh (dom (events w)) = None)
    by (by apply not_elem_of_dom).
  split; simpl.
  - intros a' act' ch' Ha' Hc'.
    destruct (decide (a = a')) as [<-|Hne].
    + rewrite lookup_insert_eq in Ha'. injection Ha' as <-.
      injection Hc' as <-. split; [set_solver|].
      eexists. by rewrite lookup_insert_eq.
    + rewrite lookup_insert_ne in Ha' by done.
      destruct (I1 a' act' ch' Ha' Hc') as (Hnc' & q' & Hq' & Hby').
      split; [done|]. exists q'. split; [|done].
      rewrite lookup_insert_ne; [done|]. intros Heq. congruence.
  - intros ch' q' Hq' Hp'.
    destruct (decide (fresh (dom (events w)) = ch')) as [<-|Hne].
    + rewrite lookup_insert_eq in Hq'. injection Hq' as <-. simpl.
      eexists. by rewrite lookup_insert_eq.
    + rewrite lookup_insert_ne in Hq' by done.
      destruct (I2 ch' q' Hq') as (act' & Ha' & Hc').
      { apply pending_true in Hp' as (q'' & Hq'' & Hf & Hnc'). simpl in *.
        rewrite lookup_insert_ne in Hq'' by done.
        apply pending_true. eauto. }
      exists act'. split; [|done].
      rewrite lookup_insert_ne; [done|]. intros Heq. congruence.
  - rewrite dom_insert_L. set_solver.
  - destruct I4 as [Hnd Hf]. split; [done|]. intros ch'. rewrite Hf.
    split; intros (q' & Hq' & Hfq).
    + exists q'. split; [|done]. rewrite lookup_insert_ne; [done|].
      intros Heq. congruence.
    + destruct (decide (fresh (dom (events w)) = ch')) as [<-|Hne].
      * rewrite lookup_insert_eq in Hq'. by injection Hq' as <-.
      * rewrite lookup_insert_ne in Hq' by done. eauto.
Qed.

(** Firing a pending event. *)
Lemma invariant_fire w ch w' :
  invariant w → fire ch w = Some w' → invariant w'.
Proof.
  intros [I1 I2 I3 I4]. unfold fire.
  destruct (pending w ch) eqn:Hp; [|done]. intros [= <-].
  apply pending_true in Hp as (q & Hq & Hfq & Hnc).
  split; simpl.
  - intros a act ch' Ha Hc.
    destruct (I1 a act ch' Ha Hc) as (Hnc' & q' & Hq' & Hby').
    split; [done|].
    destruct (decide (ch = ch')) as [<-|Hne].
    + eexists. rewrite lookup_alter_eq, Hq'. simpl. split; [done|done].
    + exists q'. by rewrite lookup_alter_ne.
  - intros ch' q' Hq' Hp'.
    apply pending_true in Hp' as (q'' & Hq'' & Hf & Hnc'). simpl in *.
    destruct (decide (ch = ch')) as [<-|Hne].
    + rewrite lookup_alter_eq, Hq in Hq''. simpl in Hq''.
      injection Hq'' as <-. done.
    + rewrite lookup_alter_ne in Hq', Hq'' by done.
      apply (I2 ch' q' Hq'). apply pending_true. eauto.
  - by rewrite dom_alter_L.
  - destruct I4 as [Hnd Hf]. split.
    + apply NoDup_app. split; [done|]. split; [|apply NoDup_singleton].
      intros x Hx ->%list_elem_of_singleton.
      apply Hf in Hx as (q' & Hq' & Hfq'). congruence.
    + intros ch'. rewrite elem_of_app, list_elem_of_singleton, Hf.
      destruct (decide (ch = ch')) as [<-|Hne].
      * rewrite lookup_alter_eq, Hq. simpl. split; [eauto|]. by right.
      * rewrite lookup_alter_ne by done. split; [|eauto].
        intros [?| ->]; done.
Qed.

(** *** The methods keep the invariant *)

Lemma fresh_action w : actions w !! fresh (dom (actions w)) = None.
Proof. apply not_elem_of_dom, is_fresh. Qed.

Lemma NewAction_invariant w aft jit :
  invariant w → invariant (NewAction aft jit w).2.
Proof.
  intros Hw. unfold NewAction. simpl.
  by apply invariant_alloc; [|apply fresh_action|].
Qed.

Lemma SetParent_invariant w a p : invariant w → invariant (SetParent a p w).
Proof.
  intros Hw. unfold SetParent.
  destruct (actions w !! a) as [act|] eqn:Ha; [|done].
  by apply (invariant_update w a act).
Qed.

(** What [Copy] returns and leaves behind. *)
Lemma Copy_result w a act :
  actions w !! a = Some act →
  Action_Copy (Some a) w =
    (Some (fresh (dom (actions w))),
     set_actions w
       (<[fresh (dom (actions w)) :=
            mkAction None (after act) (jitter act) (due act) None]>
          (actions w))).
Proof.
  intros Ha. unfold Action_Copy, NewAction. rewrite Ha. simpl.
  unfold set_actions. simpl. f_equal. f_equal.
  apply map_eq. intros i.
  destruct (decide (fresh (dom (actions w)) = i)) as [<-|Hne].
  - by rewrite lookup_alter_eq, !lookup_insert_eq.
  - by rewrite lookup_alter_ne, !lookup_insert_ne.
Qed.

Lemma Copy_invariant w r : invariant w → invariant (Action_Copy r w).2.
Proof.
  intros Hw. destruct r as [a|]; [|done].
  destruct (actions w !! a) as [act|] eqn:Ha.
  - rewrite (Copy_result w a act Ha). simpl.
    by apply invariant_alloc; [|apply fresh_action|].
  - unfold Action_Copy. by rewrite Ha.
Qed.

(** [Abort] never closes a channel twice: it returns, with the channel of
    the attribute closed and forgotten. *)
Lemma Abort_result w a act :
  invariant w → actions w !! a = Some act →
  Action_Abort (Some a) w =
    Some match Cancel act with
         | Some ch =>
             mkWorld
               (<[a := mkAction (parent act) (after act) (jitter act)
                         (due act) None]> (actions w))
               (events w) ({[ch]} ∪ closed w) (fires w)
         | None => w
         end.
Proof.
  intros Hw Ha. unfold Action_Abort. rewrite Ha.
  destruct (Cancel act) as [ch|] eqn:Hc; [|done].
  destruct (inv_cancel w Hw a act ch Ha Hc) as [Hnc _].
  unfold close. by rewrite decide_False.
Qed.

Lemma Abort_invariant w r w' :
  invariant w → Action_Abort r w = Some w' → invariant w'.
Proof.
  intros Hw. destruct r as [a|]; [|by intros [= <-]].
  destruct (actions w !! a) as [act|] eqn:Ha.
  - rewrite (Abort_result w a act Hw Ha). intros [= <-].
    destruct (Cancel act) as [ch|] eqn:Hc; [|done].
    by apply invariant_abort.
  - unfold Action_Abort. rewrite Ha. by intros [= <-].
Qed.

(** After [Abort] the attribute is still there and has no channel. *)
Lemma Abort_clears w a act w1 :
  invariant w → actions w !! a = Some act →
  Action_Abort (Some a) w = Some w1 →
  actions w1 !! a
    = Some (mkAction (parent act) (after act) (jitter act) (due act) None) ∧
  (∀ ch, Cancel act = Some ch → ch ∈ closed w1) ∧
  events w1 = events w.
Proof.
  intros Hw Ha. rewrite (Abort_result w a act Hw Ha). intros [= <-].
  destruct (Cancel act) as [ch|] eqn:Hc; simpl.
  - rewrite lookup_insert_eq. split; [done|]. split; [|done].
    intros ch' [= <-]. set_solver.
  - split; [|done]. rewrite Ha. destruct act; simpl in *. by subst.
Qed.

(** What [Action] does after its [Abort]. *)
Lemma Action_result w a act now rnd w1 :
  Action_Abort (Some a) w = Some w1 →
  actions w1 !! a = Some act →
  Action_Action (Some a) now rnd w =
    Some match FindOnAction (parent act) with
         | Some text =>
             mkWorld
               (<[a := mkAction (parent act) (after act) (jitter act)
                         (now + after act + rnd)%Z
                         (Some (fresh (dom (events w1))))]> (actions w1))
               (<[fresh (dom (events w1)) :=
                    mkQueued (parent act) ("$ACTION " +:+ text)
                      (now + after act + rnd)%Z false a]> (events w1))
               (closed w1) (fires w1)
         | None => w1
         end.
Proof.
  intros Hab Ha. unfold Action_Action. rewrite Hab. simpl. rewrite Ha.
  by destruct (FindOnAction (parent act)).
Qed.

Lemma Action_invariant w r now rnd w' :
  invariant w → Action_Action r now rnd w = Some w' → invariant w'.
Proof.
  intros Hw. destruct r as [a|]; [|by intros [= <-]].
  destruct (actions w !! a) as [act|] eqn:Ha.
  - destruct (Action_Abort (Some a) w) as [w1|] eqn:Hab.
    2: { by rewrite (Abort_result w a act Hw Ha) in Hab. }
    destruct (Abort_clears w a act w1 Hw Ha Hab) as (Ha1 & _ & _).
    rewrite (Action_result w a _ now rnd w1 Hab Ha1). simpl. intros [= <-].
    pose proof (Abort_invariant w (Some a) w1 Hw Hab) as Hw1.
    destruct (FindOnAction (parent act)) as [text|]; [|done].
    by apply (invariant_queue w1 a _ _ _ _ _ Hw1 Ha1).
  - unfold Action_Action, Action_Abort. rewrite Ha. simpl. rewrite Ha.
    by intros [= <-].
Qed.

Lemma Free_invariant w r w' :
  invariant w → Action_Free r w = Some w' → invariant w'.
Proof.
  intros Hw. destruct r as [a|]; [|by intros [= <-]].
  unfold Action_Free.
  destruct (Action_Abort (Some a) w) as [w1|] eqn:Hab; [|done].
  simpl. intros [= <-]. apply SetParent_invariant.
  by apply (Abort_invariant w (Some a)).
Qed.

Lemma step_invariant w w' : invariant w → step w w' → invariant w'.
Proof.
  intros Hw. destruct 1;
    eauto using NewAction_invariant, SetParent_invariant, Copy_invariant,
      Abort_invariant, Action_invariant, Free_invariant, invariant_fire.
Qed.

Lemma steps_invariant w w' : invariant w → rtc step w w' → invariant w'.
Proof. induction 2; eauto using step_invariant. Qed.

Lemma reachable_invariant w : reachable w → invariant w.
Proof. apply steps_invariant, invariant_init. Qed.

(** A move closes channels but opens none, and an event that has fired
    after the move had fired before it or was pending. *)
Lemma Abort_closed w r w' :
  Action_Abort r w = Some w' →
  closed w ⊆ closed w' ∧ fires w' = fires w ∧ events w' = events w.
Proof.
  destruct r as [a|]; [|by intros [= <-]]. unfold Action_Abort.
  destruct (actions w !! a) as [act|]; [|by intros [= <-]].
  destruct (Cancel act) as [ch|]; [|by intros [= <-]].
  unfold close. destruct (decide (ch ∈ closed w)); [done|].
  simpl. intros [= <-]. simpl. split; [set_solver|done].
Qed.

Lemma SetParent_closed w a p :
  closed (SetParent a p w) = closed w ∧ fires (SetParent a p w) = fires w ∧
  events (SetParent a p w) = events w.
Proof. unfold SetParent. by destruct (actions w !! a). Qed.

Lemma step_closed w w' :
  step w w' →
  closed w ⊆ closed w' ∧
  ∀ ch, ch ∈ fires w' → ch ∈ fires w ∨ pending w ch = true.
Proof.
  destruct 1 as [w aft jit|w a p|w r|w r w' Hab|w r now rnd w' Hact
                |w r w' Hfree|w ch w' Hfire].
  - simpl. split; [done|]. by left.
  - destruct (SetParent_closed w a p) as (-> & -> & _). split; [done|].
    by left.
  - destruct r as [a|]; [|split; [done|by left]].
    unfold Action_Copy. destruct (actions w !! a); simpl;
      split; try done; by left.
  - destruct (Abort_closed w r w' Hab) as (Hc & -> & _). split; [done|].
    by left.
  - destruct r as [a|]; [|injection Hact as <-; split; [done|by left]].
    unfold Action_Action in Hact.
    destruct (Action_Abort (Some a) w) as [w1|] eqn:Hab; [|done].
    destruct (Abort_closed w (Some a) w1 Hab) as (Hc & Hf & _).
    simpl in Hact. destruct (actions w1 !! a) as [act|].
    + destruct (FindOnAction (parent act)); injection Hact as <-; simpl;
        rewrite ?Hf; split; try done; by left.
    + injection Hact as <-. rewrite Hf. split; [done|]. by left.
  - destruct r as [a|]; [|injection Hfree as <-; split; [done|by left]].
    unfold Action_Free in Hfree.
    destruct (Action_Abort (Some a) w) as [w1|] eqn:Hab; [|done].
    destruct (Abort_closed w (Some a) w1 Hab) as (Hc & Hf & _).
    simpl in Hfree. injection Hfree as <-.
    destruct (SetParent_closed w1 a None) as (-> & -> & _).
    rewrite Hf. split; [done|]. by left.
  - unfold fire in Hfire. destruct (pending w ch) eqn:Hp; [|done].
    injection Hfire as <-. simpl. split; [done|].
    intros ch' [?| ->%list_elem_of_singleton]%elem_of_app; [by left|by right].
Qed.

(** Once its channel is closed, an event that has not fired never will. *)
Lemma closed_stays_quiet w w' ch :
  rtc step w w' → ch ∈ closed w → ch ∈ fires w' → ch ∈ fires w.
Proof.
  induction 1 as [w|w w1 w' Hstep _ IH]; [done|]. intros Hc Hf.
  destruct (step_closed w w1 Hstep) as [Hsub Hfired].
  destruct (Hfired ch (IH (Hsub ch Hc) Hf)) as [?|Hp]; [done|].
  apply pending_true in Hp as (q & _ & _ & Hn). done.
Qed.

(** An attribute without a channel has no pending event. *)
Lemma no_channel_no_pending w a act ch :
  invariant w → actions w !! a = Some act → Cancel act = None →
  ¬ pending_of w a ch.
Proof.
  intros Hw Ha Hc (Hp & q & Hq & Hby).
  destruct (inv_pending w Hw ch q Hq Hp) as (act' & Ha' & Hc').
  congruence.
Qed.

Lemma one_pending w a ch1 ch2 :
  invariant w → pending_of w a ch1 → pending_of w a ch2 → ch1 = ch2.
Proof.
  intros Hw (Hp1 & q1 & Hq1 & Hby1) (Hp2 & q2 & Hq2 & Hby2).
  destruct (inv_pending w Hw ch1 q1 Hq1 Hp1) as (act1 & Ha1 & Hc1).
  destruct (inv_pending w Hw ch2 q2 Hq2 Hp2) as (act2 & Ha2 & Hc2).
  congruence.
Qed.

(** C5. In every world the program can reach, [Action] on a non-nil
    attribute first runs [Abort], which returns with the channel of the
    attribute closed and its [Cancel] nil, so that no event of the
    attribute is pending any more; only then, if the parent has an OnAction
    attribute, it queues one new event, on a new channel, which is then the
    only pending event of the attribute, while the event it replaced stays
    cancelled.  At any time an attribute has at most one pending event,
    every event is seen to fire at most once, and an event whose channel
    is closed does not fire, now or after any further moves. *)
Theorem Action_one_pending_event (w : world) :
  reachable w →
  (∀ a act now rnd,
     actions w !! a = Some act →
     ∃ w1 w2,
       Action_Abort (Some a) w = Some w1 ∧
       (∀ ch, Cancel act = Some ch → ch ∈ closed w1 ∧ pending w1 ch = false) ∧
       (∃ act1, actions w1 !! a = Some act1 ∧ Cancel act1 = None) ∧
       (∀ ch, ¬ pending_of w1 a ch) ∧
       Action_Action (Some a) now rnd w = Some w2 ∧
       (∀ ch, Cancel act = Some ch → ch ∈ closed w2 ∧ pending w2 ch = false) ∧
       match FindOnAction (parent act) with
       | Some text =>
           ∃ ch' act2,
             events w1 !! ch' = None ∧
             actions w2 !! a = Some act2 ∧ Cancel act2 = Some ch' ∧
             pending_of w2 a ch' ∧
             ∀ ch, pending_of w2 a ch → ch = ch'
       | None => w2 = w1
       end) ∧
  (∀ a ch1 ch2, pending_of w a ch1 → pending_of w a ch2 → ch1 = ch2) ∧
  NoDup (fires w) ∧
  (∀ ch, ch ∈ closed w → fire ch w = None) ∧
  (∀ w' ch, rtc step w w' → ch ∈ closed w → ch ∈ fires w' → ch ∈ fires w).
Proof.
  intros Hr. pose proof (reachable_invariant w Hr) as Hw.
  split; [|split; [|split; [|split]]].
  - intros a act now rnd Ha.
    destruct (Action_Abort (Some a) w) as [w1|] eqn:Hab.
    2: { by rewrite (Abort_result w a act Hw Ha) in Hab. }
    destruct (Abort_clears w a act w1 Hw Ha Hab) as (Ha1 & Hcl & Hev).
    pose proof (Abort_invariant w (Some a) w1 Hw Hab) as Hw1.
    pose proof (Action_result w a _ now rnd w1 Hab Ha1) as Hact.
    simpl in Hact.
    assert (Hquiet : ∀ w' ch, closed w1 ⊆ closed w' → Cancel act = Some ch →
              ch ∈ closed w' ∧ pending w' ch = false).
    { intros w' ch Hsub Hc. split; [by apply Hsub, Hcl|].
      destruct (pending w' ch) eqn:Hp; [|done].
      apply pending_true in Hp as (q & _ & _ & Hn).
      destruct Hn. by apply Hsub, Hcl. }
    eexists w1, _. split; [done|].
    split; [|split; [|split; [|split; [|split]]]].
    + intros ch. by apply Hquiet.
    + eauto.
    + intros ch. by apply (no_channel_no_pending w1 a _ ch Hw1 Ha1).
    + exact Hact.
    + intros ch. apply Hquiet.
      by destruct (FindOnAction (parent act)).
    + destruct (FindOnAction (parent act)) as [text|]; [|done].
      set (ch' := fresh (dom (events w1))).
      assert (Hnone : events w1 !! ch' = None)
        by apply not_elem_of_dom, is_fresh.
      assert (Hpend : pending_of
                (mkWorld
                   (<[a := mkAction (parent act) (after act) (jitter act)
                             (now + after act + rnd)%Z (Some ch')]> (actions w1))
                   (<[ch' := mkQueued (parent act) ("$ACTION " +:+ text)
                               (now + after act + rnd)%Z false a]> (events w1))
                   (closed w1) (fires w1)) a ch').
      { split.
        - apply pending_true. eexists. simpl. rewrite lookup_insert_eq.
          split; [done|]. split; [done|].
          intros Hc. apply (inv_closed w1 Hw1), elem_of_dom in Hc as [? ?].
          congruence.
        - eexists. simpl. by rewrite lookup_insert_eq. }
      exists ch', (mkAction (parent act) (after act) (jitter act)
                     (now + after act + rnd)%Z (Some ch')).
      split; [done|]. simpl. rewrite lookup_insert_eq.
      split; [done|]. split; [done|]. split; [exact Hpend|].
      intros ch Hp.
      eapply one_pending; [|exact Hp|exact Hpend].
      by apply (invariant_queue w1 a _ _ _ _ _ Hw1 Ha1).
  - intros a ch1 ch2. by apply one_pending.
  - apply (inv_fires w Hw).
  - intros ch. apply closed_never_fires.
  - intros w' ch. apply closed_stays_quiet.
Qed.

(** C9. [Copy] on a non-nil Action returns a new Action with the same
    [after], [jitter] and [due] and a nil [Cancel], so that [Pending] is
    false for the copy whatever channel the original holds; the original,
    the queued events, the closed channels and the fires seen are as they
    were, so every event is pending after the copy exactly when it was
    before. *)
Theorem Copy_has_no_event (w : world) (a : addr) (act : Action) :
  actions w !! a = Some act →
  ∃ na nact,
    (Action_Copy (Some a) w).1 = Some na ∧
    actions w !! na = None ∧
    actions (Action_Copy (Some a) w).2 !! na = Some nact ∧
    after nact = after act ∧ jitter nact = jitter act ∧
    due nact = due act ∧ Cancel nact = None ∧
    Action_Pending (Some na) (Action_Copy (Some a) w).2 = Some false ∧
    actions (Action_Copy (Some a) w).2 !! a = Some act ∧
    Action_Pending (Some a) (Action_Copy (Some a) w).2
      = Action_Pending (Some a) w ∧
    events (Action_Copy (Some a) w).2 = events w ∧
    closed (Action_Copy (Some a) w).2 = closed w ∧
    fires (Action_Copy (Some a) w).2 = fires w ∧
    (∀ ch, pending (Action_Copy (Some a) w).2 ch = pending w ch).
Proof.
  intros Ha. rewrite (Copy_result w a act Ha). simpl.
  pose proof (fresh_action w) as Hnew.
  assert (Hne : fresh (dom (actions w)) ≠ a) by (intros Heq; congruence).
  eexists _, _. split; [done|]. split; [exact Hnew|].
  rewrite lookup_insert_eq. split; [done|]. simpl.
  repeat split; try done.
  - by rewrite lookup_insert_ne.
  - unfold Action_Pending. simpl. by rewrite lookup_insert_ne.
Qed.

(** X11. In every world the program can reach, [Abort] on a non-nil
    attribute returns (it never closes a channel twice), and a second
    [Abort] right after it changes nothing.  [Pending] is then false for
    the attribute.  [Abort] touches no other attribute and cancels no
    event but the attribute's own: every other event is pending after it
    exactly when it was before. *)
Theorem Abort_cancels_own_event_only (w : world) (a : addr) (act : Action) :
  reachable w →
  actions w !! a = Some act →
  ∃ w1,
    Action_Abort (Some a) w = Some w1 ∧
    Action_Abort (Some a) w1 = Some w1 ∧
    Action_Pending (Some a) w1 = Some false ∧
    (∀ b, b ≠ a → actions w1 !! b = actions w !! b) ∧
    (∀ ch, Cancel act ≠ Some ch → pending w1 ch = pending w ch) ∧
    (∀ b ch, b ≠ a → pending_of w b ch → pending_of w1 b ch).
Proof.
  intros Hr Ha. pose proof (reachable_invariant w Hr) as Hw.
  pose proof (Abort_result w a act Hw Ha) as Hab.
  destruct (Action_Abort (Some a) w) as [w1|] eqn:Hab1; [|done].
  destruct (Abort_clears w a act w1 Hw Ha Hab1) as (Ha1 & Hcl & Hev).
  pose proof (Abort_invariant w (Some a) w1 Hw Hab1) as Hw1.
  assert (Hframe : ∀ ch, Cancel act ≠ Some ch → pending w1 ch = pending w ch).
  { intros ch Hne. injection Hab as ->.
    destruct (Cancel act) as [ch'|] eqn:Hc; [|done].
    unfold pending. simpl. destruct (events w !! ch) as [q|]; [|done].
    f_equal. apply bool_decide_ext.
    assert (ch ≠ ch') by congruence. set_solver. }
  exists w1. split; [done|]. split; [|split; [|split; [|split]]].
  - unfold Action_Abort. by rewrite Ha1.
  - unfold Action_Pending. simpl. by rewrite Ha1.
  - intros b Hb. injection Hab as ->.
    destruct (Cancel act); [|done]. simpl. by rewrite lookup_insert_ne.
  - exact Hframe.
  - intros b ch Hb (Hp & q & Hq & Hby). split.
    + rewrite Hframe; [done|]. intros Hc.
      destruct (inv_cancel w Hw a act ch Ha Hc) as (_ & q' & Hq' & Hby').
      congruence.
    + exists q. by rewrite Hev.
Qed.

(** X12. In every world the program can reach, [Pending] agrees with the
    scheduler as far as it can: when it returns false the attribute has no
    pending event, and when the attribute has a pending event it returns
    true and [Cancel] is the channel of that event.  When it returns true
    the attribute holds the open channel of an event it queued, which may
    have fired already. *)
Theorem Pending_reports_event (w : world) (a : addr) (act : Action) :
  reachable w →
  actions w !! a = Some act →
  (Action_Pending (Some a) w = Some false → ∀ ch, ¬ pending_of w a ch) ∧
  (∀ ch, pending_of w a ch →
         Action_Pending (Some a) w = Some true ∧ Cancel act = Some ch) ∧
  (Action_Pending (Some a) w = Some true →
   ∃ ch q, Cancel act = Some ch ∧ events w !! ch = Some q ∧
           queued_by q = a ∧ ch ∉ closed w).
Proof.
  intros Hr Ha. pose proof (reachable_invariant w Hr) as Hw.
  assert (Hp : Action_Pending (Some a) w
               = Some (bool_decide (Cancel act ≠ None))).
  { unfold Action_Pending. simpl. by rewrite Ha. }
  assert (Hown : ∀ ch, pending_of w a ch → Cancel act = Some ch).
  { intros ch (Hpe & q & Hq & Hby).
    destruct (inv_pending w Hw ch q Hq Hpe) as (act' & Ha' & Hc').
    congruence. }
  rewrite Hp. split; [|split].
  - intros [= Hf] ch Hpe. apply bool_decide_eq_false in Hf.
    apply Hown in Hpe. apply Hf. congruence.
  - intros ch Hpe. specialize (Hown ch Hpe). split; [|done].
    f_equal. apply bool_decide_eq_true. congruence.
  - intros [= Ht]. apply bool_decide_eq_true in Ht.
    destruct (Cancel act) as [ch|] eqn:Hc; [|done].
    destruct (inv_cancel w Hw a act ch Ha Hc) as (Hnc & q & Hq & Hby).
    eauto 6.
Qed.

End Methods.

(** *** Concrete runs *)

(** A frog (thing 7) with an OnAction text and an Action attribute that
    fires 8 to 12 seconds after it is scheduled. *)
Definition frog_OnAction (p : option Thing) : option string :=
  match p with
  | Some _ => Some "The frog croaks."%string
  | None => None
  end.

Definition second : Duration := 1000000000%Z.

Definition frog_made : addr * world :=
  NewAction (8 * second)%Z (4 * second)%Z (mkWorld ∅ ∅ ∅ []).

Definition frog_placed : world := SetParent frog_made.1 (Some 7%N) frog_made.2.

(** The frog's attribute is scheduled at time 100s with a draw of 1s. *)
Definition croaking : world :=
  default frog_placed
    (Action_Action frog_OnAction (Some frog_made.1) (100 * second)%Z second
       frog_placed).

(** ... and scheduled again one second later. *)
Definition croaking_again : world :=
  default croaking
    (Action_Action frog_OnAction (Some frog_made.1) (101 * second)%Z 0%Z
       croaking).

Example croaking_event :
  actions croaking !! frog_made.1
    = Some (mkAction (Some 7%N) (8 * second)%Z (4 * second)%Z (109 * second)%Z
              (Some 0%N)) ∧
  pending croaking 0%N = true.
Proof. split; reflexivity. Qed.

Example croaking_again_events :
  actions croaking_again !! frog_made.1
    = Some (mkAction (Some 7%N) (8 * second)%Z (4 * second)%Z (109 * second)%Z
              (Some 1%N)) ∧
  pending croaking_again 0%N = false ∧
  pending croaking_again 1%N = true ∧
  fire 0%N croaking_again = None.
Proof. repeat split; reflexivity. Qed.

Lemma croaking_reachable : reachable frog_OnAction croaking.
Proof.
  unfold reachable.
  eapply rtc_l; [apply (step_NewAction _ _ (8 * second)%Z (4 * second)%Z)|].
  eapply rtc_l; [apply (step_SetParent _ _ frog_made.1 (Some 7%N))|].
  apply rtc_once.
  apply (step_Action frog_OnAction frog_placed (Some frog_made.1)
           (100 * second)%Z second).
  reflexivity.
Qed.

Lemma Action_one_pending_event_witness :
  reachable frog_OnAction croaking ∧
  (∀ a ch1 ch2,
     pending_of croaking a ch1 → pending_of croaking a ch2 → ch1 = ch2) ∧
  NoDup (fires croaking).
Proof.
  split; [exact croaking_reachable|].
  destruct (Action_one_pending_event frog_OnAction croaking
              croaking_reachable) as (_ & Hone & Hnd & _ & _).
  split; [exact Hone|exact Hnd].
Defined.

Lemma Copy_has_no_event_witness :
  Action_Pending (Some frog_made.1) croaking = Some true ∧
  ∃ na nact,
    (Action_Copy (Some frog_made.1) croaking).1 = Some na ∧
    actions croaking !! na = None ∧
    actions (Action_Copy (Some frog_made.1) croaking).2 !! na = Some nact ∧
    after nact = (8 * second)%Z ∧ jitter nact = (4 * second)%Z ∧
    due nact = (109 * second)%Z ∧ Cancel nact = None ∧
    Action_Pending (Some na) (Action_Copy (Some frog_made.1) croaking).2
      = Some false ∧
    actions (Action_Copy (Some frog_made.1) croaking).2 !! frog_made.1
      = Some (mkAction (Some 7%N) (8 * second)%Z (4 * second)%Z (109 * second)%Z
                (Some 0%N)) ∧
    Action_Pending (Some frog_made.1)
        (Action_Copy (Some frog_made.1) croaking).2
      = Action_Pending (Some frog_made.1) croaking ∧
    events (Action_Copy (Some frog_made.1) croaking).2 = events croaking ∧
    closed (Action_Copy (Some frog_made.1) croaking).2 = closed croaking ∧
    fires (Action_Copy (Some frog_made.1) croaking).2 = fires croaking ∧
    (∀ ch, pending (Action_Copy (Some frog_made.1) croaking).2 ch
           = pending croaking ch).
Proof.
  split; [reflexivity|].
  apply (Copy_has_no_event croaking frog_made.1
           (mkAction (Some 7%N) (8 * second)%Z (4 * second)%Z (109 * second)%Z
              (Some 0%N))).
  reflexivity.
Defined.

Lemma Abort_cancels_own_event_only_witness :
  reachable frog_OnAction croaking ∧
  ∃ w1,
    Action_Abort (Some frog_made.1) croaking = Some w1 ∧
    Action_Abort (Some frog_made.1) w1 = Some w1 ∧
    Action_Pending (Some frog_made.1) w1 = Some false ∧
    (∀ b, b ≠ frog_made.1 → actions w1 !! b = actions croaking !! b) ∧
    (∀ ch, Some 0%N ≠ Some ch → pending w1 ch = pending croaking ch) ∧
    (∀ b ch, b ≠ frog_made.1 → pending_of croaking b ch → pending_of w1 b ch).
Proof.
  split; [exact croaking_reachable|].
  apply (Abort_cancels_own_event_only frog_OnAction croaking frog_made.1
           (mkAction (Some 7%N) (8 * second)%Z (4 * second)%Z (109 * second)%Z
              (Some 0%N)) croaking_reachable).
  reflexivity.
Defined.

Lemma Pending_reports_event_witness :
  reachable frog_OnAction croaking ∧
  Action_Pending (Some frog_made.1) croaking = Some true ∧
  ∃ ch q, Some 0%N = Some ch ∧ events croaking !! ch = Some q ∧
          queued_by q = frog_made.1 ∧ ch ∉ closed croaking.
Proof.
  split; [exact croaking_reachable|]. split; [reflexivity|].
  apply (Pending_reports_event frog_OnAction croaking frog_made.1
           (mkAction (Some 7%N) (8 * second)%Z (4 * second)%Z (109 * second)%Z
              (Some 0%N)) croaking_reachable).
  - reflexivity.
  - reflexivity.
Defined.

End Attr.

(** ** Package core: the combat commands ([combat.go], the second part of
    src/utils/command/command.go) *)

Module Core.

(** The address of a [*Thing]; a pointer that may be nil is an [option]. *)
Definition ptr := N.

(** The keys of a thing's maps that combat.go uses. *)
Inductive asKey :=
  | Name | UName | TheName | UTheName | Description | UID | VetoCombat
  | OnCleanup | PromptStyle.
Inductive anyKey := Alias | Qualifier | Opponents.
Inductive intKey := HealthCurrent | HealthMaximum | CleanupAfter | CombatAfter.
Inductive refKey := Where | Opponent.
Inductive eventKey := Action | Cleanup | Combat | Health.

#[global] Instance asKey_eq_dec : EqDecision asKey.
Proof. solve_decision. Defined.
#[global] Instance anyKey_eq_dec : EqDecision anyKey.
Proof. solve_decision. Defined.
#[global] Instance intKey_eq_dec : EqDecision intKey.
Proof. solve_decision. Defined.
#[global] Instance refKey_eq_dec : EqDecision refKey.
Proof. solve_decision. Defined.
#[global] Instance eventKey_eq_dec : EqDecision eventKey.
Proof. solve_decision. Defined.

#[global] Instance asKey_countable : Countable asKey.
Proof.
  refine (inj_countable'
    (λ k, match k with
          | Name => 0 | UName => 1 | TheName => 2 | UTheName => 3
          | Description => 4 | UID => 5 | VetoCombat => 6 | OnCleanup => 7
          | PromptStyle => 8
          end)
    (λ n, match n with
          | 0 => Name | 1 => UName | 2 => TheName | 3 => UTheName
          | 4 => Description | 5 => UID | 6 => VetoCombat | 7 => OnCleanup
          | _ => PromptStyle
          end) _).
  by intros [].
Defined.

#[global] Instance anyKey_countable : Countable anyKey.
Proof.
  refine (inj_countable'
    (λ k, match k with Alias => 0 | Qualifier => 1 | Opponents => 2 end)
    (λ n, match n with 0 => Alias | 1 => Qualifier | _ => Opponents end) _).
  by intros [].
Defined.

#[global] Instance intKey_countable : Countable intKey.
Proof.
  refine (inj_countable'
    (λ k, match k with
          | HealthCurrent => 0 | HealthMaximum => 1 | CleanupAfter => 2
          | CombatAfter => 3
          end)
    (λ n, match n with
          | 0 => HealthCurrent | 1 => HealthMaximum | 2 => CleanupAfter
          | _ => CombatAfter
          end) _).
  by intros [].
Defined.

#[global] Instance refKey_countable : Countable refKey.
Proof.
  refine (inj_countable'
    (λ k, match k with Where => 0 | Opponent => 1 end)
    (λ n, match n with 0 => Where | _ => Opponent end) _).
  by intros [].
Defined.

#[global] Instance eventKey_countable : Countable eventKey.
Proof.
  refine (inj_countable'
    (λ k, match k with Action => 0 | Cleanup => 1 | Combat => 2 | Health => 3 end)
    (λ n, match n with 0 => Action | 1 => Cleanup | 2 => Combat | _ => Health end)
    _).
  by intros [].
Defined.

(** The fields of a [Thing] that combat.go reads and writes.  [Event] holds
    the kinds of event that are scheduled for the thing. *)
Record Thing := mkThing {
  As : gmap asKey string;
  Any : gmap anyKey (list string);
  Int : gmap intKey Z;
  Ref : gmap refKey ptr;
  In : gmap string ptr;
  Who : gmap string ptr;
  Is : N;
  Event : gset eventKey
}.

(** Reading a Go map gives the zero value for a missing key. *)
Definition as_ (t : Thing) (k : asKey) : string := default ""%string (As t !! k).
Definition any_ (t : Thing) (k : anyKey) : list string := default [] (Any t !! k).
Definition int_ (t : Thing) (k : intKey) : Z := default 0%Z (Int t !! k).
Definition ref_ (t : Thing) (k : refKey) : option ptr := Ref t !! k.

Definition set_As (k : asKey) (v : string) (t : Thing) : Thing :=
  mkThing (<[k := v]> (As t)) (Any t) (Int t) (Ref t) (In t) (Who t) (Is t)
    (Event t).
Definition set_Any (k : anyKey) (v : list string) (t : Thing) : Thing :=
  mkThing (As t) (<[k := v]> (Any t)) (Int t) (Ref t) (In t) (Who t) (Is t)
    (Event t).
Definition set_Int (k : intKey) (v : Z) (t : Thing) : Thing :=
  mkThing (As t) (Any t) (<[k := v]> (Int t)) (Ref t) (In t) (Who t) (Is t)
    (Event t).
Definition set_Ref (k : refKey) (v : ptr) (t : Thing) : Thing :=
  mkThing (As t) (Any t) (Int t) (<[k := v]> (Ref t)) (In t) (Who t) (Is t)
    (Event t).
Definition set_In (uid : string) (v : ptr) (t : Thing) : Thing :=
  mkThing (As t) (Any t) (Int t) (Ref t) (<[uid := v]> (In t)) (Who t) (Is t)
    (Event t).
Definition set_Who (uid : string) (v : ptr) (t : Thing) : Thing :=
  mkThing (As t) (Any t) (Int t) (Ref t) (In t) (<[uid := v]> (Who t)) (Is t)
    (Event t).
Definition delete_Who (uid : string) (t : Thing) : Thing :=
  mkThing (As t) (Any t) (Int t) (Ref t) (In t) (delete uid (Who t)) (Is t)
    (Event t).
Definition add_Event (e : eventKey) (t : Thing) : Thing :=
  mkThing (As t) (Any t) (Int t) (Ref t) (In t) (Who t) (Is t)
    ({[e]} ∪ Event t).

(** The calls of combat.go into code that is not part of it. *)
Inductive effect :=
  | Msg (to : ptr) (text : list string)
  | MsgAppend (to : ptr) (text : list string)
  | Scheduled (t : ptr) (e : eventKey)
  | Junked (t : ptr)
  | Prompted (t : ptr) (style : string)
  | Subparsed (t : ptr) (inp : string).

(** The calls other than messages. *)
Definition quiet (cs : list effect) : list effect :=
  List.filter (λ e, match e with Msg _ _ | MsgAppend _ _ => false | _ => true end)
    cs.

(** The things on the heap and the calls made so far. *)
Record world := mkWorld {
  heap : gmap ptr Thing;
  calls : list effect
}.

(** A command runs on the world and returns a value or panics ([None]);
    the world is kept either way. *)
Definition M (A : Type) : Type := world → option A * world.

#[global] Instance M_ret : MRet M := λ A a w, (Some a, w).

#[global] Instance M_bind : MBind M := λ A B k m w,
  match m w with
  | (Some a, w') => k a w'
  | (None, w') => (None, w')
  end.

Definition panic {A} : M A := λ w, (None, w).

(** [*p] for a pointer that may be nil. *)
Definition deref (p : option ptr) : M Thing :=
  λ w, (p ≫= λ a, heap w !! a, w).

(** A write through the pointer [p]. *)
Definition update (p : ptr) (f : Thing → Thing) : M unit :=
  λ w, (Some tt, mkWorld (alter f p (heap w)) (calls w)).

Definition call (e : effect) : M unit :=
  λ w, (Some tt, mkWorld (heap w) (calls w ++ [e])).

(** An optional value that has to be there. *)
Definition must {A} (o : option A) : M A := λ w, (o, w).

(** [int64] arithmetic wraps around. *)
Definition int64 (z : Z) : Z :=
  ((z + 2 ^ 63) mod 2 ^ 64 - 2 ^ 63)%Z.

(** [strings.Repeat(s, count)] for a count that is not negative. *)
Fixpoint Repeat (s : string) (count : nat) : string :=
  match count with
  | O => ""%string
  | S n => (s +:+ Repeat s n)%string
  end.

(** [strings.ReplaceAll(s, " ", new)] *)
Fixpoint ReplaceSpaces (s : string) (new : string) : string :=
  match s with
  | EmptyString => EmptyString
  | String c r =>
      if (c =? " ")%char then (new +:+ ReplaceSpaces r new)%string
      else String c (ReplaceSpaces r new)
  end.

(** The symbol for space, U+2420, three bytes in UTF-8. *)
Definition visible_space : string :=
  String "226"%char (String "144"%char (String "160"%char EmptyString)).

Definition newline : string := String "010"%char EmptyString.

(** The helper [center] of [Hit]: [pad := (80 - len(text)) / 2], a
    division that truncates toward zero, and [strings.Repeat] panics when
    [pad] is negative. *)
Definition center (text : string) : M string :=
  let pad := ((80 - Z.of_nat (String.length text)) ÷ 2)%Z in
  if (pad <? 0)%Z then panic
  else mret (ReplaceSpaces (Repeat visible_space (Z.to_nat pad) +:+ text)
               visible_space).

(** The state of a command: who runs it, and the words after the verb. *)
Record state := mkState {
  actor : ptr;
  word : list string
}.

Section Combat.

(** What combat.go takes from the rest of package core: [Match], which
    turns words into the UIDs of the things they name at a location;
    [cfg.crowdSize]; the [Player] bit of [Thing.Is]; the start locations
    [WorldStart]; the colour codes of package text; and [radius]. *)
Variable Match : list string → Thing → list string.
Variable crowdSize : Z.
Variable Player : N.
Variable WorldStart : list ptr.
Variables text_Info text_Good text_Bad text_Cyan : string.
Variable radius : nat → ptr → gmap ptr Thing → list (list ptr).

(** The UID [NewThing] gives to the thing it makes at an address. *)
Variable NewUID : ptr → string.

(** Modelled from the spec: [NewThing] is not among the sources.
    [createCorpse] counts on it for a new thing whose maps can be written,
    with a UID of its own in [As[UID]] that is also among its aliases ("new
    UID was added by NewThing"). *)
Definition NewThing : M ptr := λ w,
  let p := fresh (dom (heap w)) in
  (Some p,
   mkWorld
     (<[p := mkThing {[UID := NewUID p]} {[Alias := [NewUID p]]} ∅ ∅ ∅ ∅ 0 ∅]>
        (heap w))
     (calls w)).

(** Modelled from the spec: [Schedule] installs a pending event of the
    given kind on the thing. *)
Definition Schedule (t : ptr) (e : eventKey) : M unit :=
  update t (add_Event e);; call (Scheduled t e).

(** [Junk], [Prompt[style]] and [subparseFor] are not among the sources:
    a call of one of them is recorded, and the heap is left as it is. *)
Definition Junk (t : ptr) : M unit := call (Junked t).
Definition Prompt (style : string) (t : ptr) : M unit := call (Prompted t style).
Definition subparseFor (t : ptr) (inp : string) : M unit := call (Subparsed t inp).

(** A read of a field through a pointer. *)
Definition get {A} (p : ptr) (f : Thing → A) : M A :=
  t ← deref (Some p); mret (f t).

Definition createCorpse (t : ptr) : M ptr :=
  c ← NewThing;
  name ← get t (λ x, as_ x Name);
  update c (set_As Name ("a corpse of " +:+ name));;
  update c (set_As UName ("A corpse of " +:+ name));;
  update c (set_As TheName ("the corpse of " +:+ name));;
  update c (set_As UTheName ("The corpse of " +:+ name));;
  description ← get t (λ x, as_ x Description);
  update c (set_As Description description);;
  alias ← get t (λ x, any_ x Alias);
  update c (λ x, set_Any Alias (any_ x Alias ++ alias) x);;
  qualifier ← get t (λ x, any_ x Qualifier);
  update c (λ x, set_Any Qualifier (any_ x Qualifier ++ qualifier) x);;
  (* c.Ref[Where] = t.Ref[Where] *)
  t_where ← get t (λ x, ref_ x Where);
  where_ ← must t_where;
  update c (set_Ref Where where_);;
  (* c.Ref[Where].In[c.As[UID]] = t *)
  c_where ← get c (λ x, ref_ x Where);
  deref c_where;;
  c_uid ← get c (λ x, as_ x UID);
  where_ ← must c_where;
  update where_ (set_In c_uid t);;
  update c (set_Int CleanupAfter (60 * 1000000000));;
  c_utn ← get c (λ x, as_ x UTheName);
  update c (set_As OnCleanup (c_utn +:+ " turns to dust."));;
  (* the original UID among the aliases becomes "CORPSE" *)
  t_uid ← get t (λ x, as_ x UID);
  update c (λ x, set_Any Alias
                   ((λ alias, if decide (alias = t_uid) then "CORPSE"%string
                              else alias) <$> any_ x Alias) x);;
  mret c.

(** The kill of [Hit]: the case [what.Int[HealthCurrent] <= damage]. *)
Definition Hit_kill (s : state) (where_ what : ptr) (damageTxt : string)
    (rnd_start : nat) : M unit :=
  a ← deref (Some (actor s));
  wt ← deref (Some what);
  call (Msg (actor s)
          [text_Good; "You kill "; as_ wt TheName; " ("; damageTxt; ")."]%string);;
  rip ← center " :==[ Rest In Peace ]==:";
  c_name ← center (as_ wt Name);
  slain ← center "Slain By";
  c_actor ← center (as_ a Name);
  call (Msg what
          [text_Bad; as_ a UTheName; " kills you ("; damageTxt; ").";
           text_Cyan; newline; newline; rip; newline; newline; c_name;
           newline; slain; newline; c_actor; text_Good;
           newline +:+ newline
             +:+ "You must know people in high places, you are to be given another chance..."
             +:+ newline]%string);;
  call (Msg where_
          [text_Info; "You see "; as_ a TheName; " kill "; as_ wt Name; "."]%string);;
  (* Create and place corpse *)
  c ← createCorpse what;
  c_uid ← get c (λ x, as_ x UID);
  update where_ (set_In c_uid c);;
  Schedule c Cleanup;;
  (* Remove original *)
  flags ← get what Is;
  (if decide (N.land flags Player = 0%N) then
     maxh ← get what (λ x, int_ x HealthMaximum);
     update what (set_Int HealthCurrent maxh);;
     Junk what
   else
     update what (set_Int HealthCurrent 1);;
     w_uid ← get what (λ x, as_ x UID);
     update where_ (delete_Who w_uid);;
     (* rand.Intn panics when there is no start *)
     (if decide (length WorldStart = 0) then panic else mret tt);;
     start ← must (WorldStart !! rnd_start);
     update what (set_Ref Where start);;
     w_uid ← get what (λ x, as_ x UID);
     deref (Some start);;
     update start (set_Who w_uid what);;
     subparseFor what "$POOF");;
  style ← get what (λ x, as_ x PromptStyle);
  Prompt style what.

(** The default case of [Hit]: the target lives on. *)
Definition Hit_wound (s : state) (where_ what : ptr) (damage : Z)
    (damageTxt : string) : M unit :=
  h ← get what (λ x, int_ x HealthCurrent);
  update what (set_Int HealthCurrent (int64 (h - damage)));;
  wt ← deref (Some what);
  (if decide ((Health ∉ Event wt) ∧ (int_ wt HealthCurrent < int_ wt HealthMaximum)%Z)
   then Schedule what Health else mret tt);;
  Prompt (as_ wt PromptStyle) what;;
  a ← deref (Some (actor s));
  call (Msg (actor s)
          [text_Good; "You hit "; as_ wt TheName; " ("; damageTxt; ")."]%string);;
  call (Msg what
          [text_Bad; as_ a UTheName; " hits you ("; damageTxt; ")."]%string);;
  call (Msg where_
          [text_Info; "You see "; as_ a Name; " hit "; as_ wt Name; "."]%string);;
  (if decide (int_ wt HealthCurrent < 4)%Z then
     call (MsgAppend (actor s)
             [text_Good; " "; as_ wt UTheName; " looks nearly dead."]%string);;
     call (MsgAppend what [text_Bad; " You are almost dead."]%string);;
     call (MsgAppend where_
             [text_Info; " "; as_ wt UTheName; " is almost dead."]%string)
   else mret tt);;
  a_where ← must (ref_ a Where);
  locs ← (λ w, (Some (radius 1 a_where (heap w)), w));
  near ← must (locs !! 1);
  foldr (λ l rest,
           lt ← deref (Some l);
           (if decide (0 < size (Who lt) ∧ (Z.of_nat (size (Who lt)) < crowdSize)%Z)
            then call (Msg l [text_Info; "You hear fighting nearby."]%string)
            else mret tt);;
           rest)
    (mret tt) near.

(** [Hit]; [rnd_damage] is the value of [rand.Int63n(2+1)] and [rnd_start]
    the value of [rand.Intn(len(WorldStart))]. *)
Definition Hit (s : state) (rnd_damage : Z) (rnd_start : nat) : M unit :=
  if decide (length (word s) = 0) then
    call (Msg (actor s) [text_Info; "You go to hit... someone?"]%string)
  else
    let damage := (2 + rnd_damage)%Z in
    let damageTxt := pretty damage in
    a ← deref (Some (actor s));
    wh ← deref (ref_ a Where);
    where_ ← must (ref_ a Where);
    let notify := bool_decide (Z.of_nat (size (Who wh)) < crowdSize)%Z in
    uid ← must (Match (word s) wh !! 0);
    let what := match Who wh !! uid with
                | Some p => Some p
                | None => In wh !! uid
                end in
    match what with
    | None =>
        call (Msg (actor s) [text_Bad; "You see no '"; uid; "' to hit."]%string)
    | Some what =>
        if decide (actor s = what) then
          call (Msg (actor s)
                  [text_Good; "You give yourself a slap. Awake now?"]%string);;
          call (Msg where_ [text_Info; as_ a UName; " slaps themself."]%string)
        else if decide (as_ wh VetoCombat ≠ ""%string) then
          call (Msg (actor s) [text_Bad; as_ wh VetoCombat])
        else if negb notify then
          call (Msg (actor s)
                  [text_Bad; "It's too crowded to start a fight."]%string)
        else
          wt ← deref (Some what);
          if decide (int_ wt HealthMaximum = 0%Z) then
            call (Msg (actor s)
                    [text_Bad; "You cannot kill "; as_ wt Name; "."]%string)
          else if decide (int_ wt HealthCurrent ≤ damage)%Z then
            Hit_kill s where_ what damageTxt rnd_start
          else Hit_wound s where_ what damage damageTxt
    end.

(** The roles of a round of [Combat]: attacker and defender start as the
    actor and its opponent and are swapped when the draw
    [rand.Int63n(100+1)] is below 50. *)
Definition Combat_roles (actor what : ptr) (rnd_swap : Z) : ptr * ptr :=
  let '(attacker, defender) := (actor, what) in
  if (rnd_swap <? 50)%Z then (defender, attacker) else (attacker, defender).

(** *** Combat *)

Definition delete_Ref (k : refKey) (t : Thing) : Thing :=
  mkThing (As t) (Any t) (Int t) (delete k (Ref t)) (In t) (Who t) (Is t)
    (Event t).
Definition delete_Any (k : anyKey) (t : Thing) : Thing :=
  mkThing (As t) (delete k (Any t)) (Int t) (Ref t) (In t) (Who t) (Is t)
    (Event t).
Definition remove_Event (e : eventKey) (t : Thing) : Thing :=
  mkThing (As t) (Any t) (Int t) (Ref t) (In t) (Who t) (Is t)
    (Event t ∖ {[e]}).

(** Modelled from the spec: [Cancel] is not among the sources.  Cancelling
    "immediately marks the entity as having no pending event of that
    kind". *)
Definition Cancel (t : ptr) (e : eventKey) : M unit :=
  update t (remove_Event e).

(** [remainder] of package core, which is not among the sources: its first
    result, for the list and the words to take out of it. *)
Variable remainder : list string → list string → list string.

(** [subparse] runs a command for the actor of the state; like
    [subparseFor] it is not among the sources, and the call is recorded. *)
Definition subparse (s : state) (inp : string) : M unit :=
  call (Subparsed (actor s) inp).

(** [3 * time.Second], in nanoseconds. *)
Definition roundDuration : Z := 3 * 1000000000.

(** [stopCombat]; a method call on a nil [who] panics. *)
Definition stopCombat (who what : option ptr) : M unit :=
  match what with
  | None =>
      who ← must who;
      deref (Some who);;
      Cancel who Combat;;
      Schedule who Action;;
      update who (delete_Ref Opponent);;
      update who (delete_Any Opponents)
  | Some what =>
      who ← must who;
      opponents ← get who (λ x, any_ x Opponents);
      uid ← get what (λ x, as_ x UID);
      update who (set_Any Opponents (remainder opponents [uid]));;
      opponents ← get who (λ x, any_ x Opponents);
      if decide (length opponents = 0) then
        Schedule who Action;;
        Cancel who Combat;;
        update who (delete_Ref Opponent);;
        update who (delete_Any Opponents)
      else mret tt
  end.

(** The loop of [Combat] over the opponents of the defender: the others
    who fight the defender are told of the kill and stop fighting it. *)
Definition stop_opponents (where_ attacker defender : ptr)
    (opponents : list string) : M unit :=
  foldr (λ uid rest,
           wh ← deref (Some where_);
           att ← deref (Some attacker);
           def ← deref (Some defender);
           let who := Who wh !! uid in
           match who with
           | Some p =>
               if decide (p ≠ attacker) then
                 call (Msg p [text_Info; as_ att UTheName; " kills ";
                              as_ def Name; "!"]%string);;
                 call (Msg p [text_Info; "You stop fighting "; as_ def Name;
                              "."]%string)
               else mret tt
           | None => mret tt
           end;;
           let who := match who with
                      | Some p => Some p
                      | None => In wh !! uid
                      end in
           stopCombat who (Some defender);;
           rest)
    (mret tt) opponents.

(** [Combat], the method of the state; [rnd_swap] is the value of [rand.Int63n(100+1)],
    [rnd_damage] that of [rand.Int63n(2+1)] and [rnd_start] that of
    [rand.Intn(len(WorldStart))].  A message to a location that is nil is
    taken to panic. *)
Definition state_Combat (s : state) (rnd_swap rnd_damage : Z) (rnd_start : nat)
    : M unit :=
  a ← deref (Some (actor s));
  let what := ref_ a Opponent in
  let where_ := ref_ a Where in
  (* what == nil || where != what.Ref[Where] *)
  gone ← match what with
         | None => mret true
         | Some p =>
             wt ← deref (Some p);
             mret (bool_decide (where_ ≠ ref_ wt Where))
         end;
  if gone : bool then
    stopCombat (Some (actor s)) None;;
    call (Msg (actor s)
            [text_Info;
             newline +:+ "You stop fighting, your opponent disappeared..."]%string)
  else
    what ← must what;
    let '(attacker, defender) := Combat_roles (actor s) what rnd_swap in
    let damage := (2 + rnd_damage)%Z in
    let damageText := (" doing " +:+ pretty damage +:+ " damage.")%string in
    h ← get defender (λ x, int_ x HealthCurrent);
    update defender (set_Int HealthCurrent (int64 (h - damage)));;
    call (Msg (actor s) [newline]);;
    att ← deref (Some attacker);
    def ← deref (Some defender);
    call (MsgAppend attacker
            [text_Good; "You hit "; as_ def TheName; damageText]%string);;
    call (MsgAppend defender
            [text_Bad; as_ att UTheName; " hits you"; damageText]%string);;
    where_ ← must where_;
    call (Msg where_
            [text_Info; as_ att UTheName; " hits "; as_ def Name; "."]%string);;
    (* defender not killed, do health bookkeeping and go another round *)
    if decide (0 < int_ def HealthCurrent)%Z then
      Prompt (as_ def PromptStyle) defender;;
      (if decide (Health ∉ Event def) then Schedule defender Health
       else mret tt);;
      update (actor s) (set_Int CombatAfter roundDuration);;
      Schedule (actor s) Combat
    else
      call (Msg attacker ["You kill "; as_ def Name; "!"]%string);;
      call (Msg defender [as_ att UTheName; " kills you!"]%string);;
      call (Msg where_ [as_ att UTheName; " kills "; as_ def Name; "!"]%string);;
      stop_opponents where_ attacker defender (any_ def Opponents);;
      stopCombat (Some defender) None;;
      (* Create and place corpse *)
      c ← createCorpse defender;
      c_uid ← get c (λ x, as_ x UID);
      update where_ (set_In c_uid c);;
      Schedule c Cleanup;;
      (* Remove defender from location *)
      d_uid ← get defender (λ x, as_ x UID);
      update where_ (delete_Who d_uid);;
      (* If not a player junk for a reset *)
      flags ← get defender Is;
      if decide (N.land flags Player = 0%N) then Junk defender
      else
        (* Place player back into the world *)
        (if decide (length WorldStart = 0) then panic else mret tt);;
        start ← must (WorldStart !! rnd_start);
        update defender (set_Int HealthCurrent 1);;
        update defender (set_Ref Where start);;
        d_uid ← get defender (λ x, as_ x UID);
        deref (Some start);;
        update start (set_Who d_uid defender);;
        if decide (actor s = defender) then subparse s "$POOF"
        else subparseFor defender "$POOF".

(** *** Stepping through a command *)

Lemma step_ret {A B} (a : A) (k : A → M B) w : (mret a ≫= k) w = k a w.
Proof. done. Qed.

Lemma step_get {A B} p (f : Thing → A) (k : A → M B) w t :
  heap w !! p = Some t → (get p f ≫= k) w = k (f t) w.
Proof.
  intros Hp. unfold get, deref, mbind, M_bind, mret, M_ret. simpl.
  by rewrite Hp.
Qed.

Lemma step_deref {B} p (k : Thing → M B) w t :
  heap w !! p = Some t → (deref (Some p) ≫= k) w = k t w.
Proof. intros Hp. unfold deref, mbind, M_bind. simpl. by rewrite Hp. Qed.

Lemma step_update {B} p g (k : unit → M B) w :
  (update p g ≫= k) w = k tt (mkWorld (alter g p (heap w)) (calls w)).
Proof. done. Qed.

Lemma step_call {B} e (k : unit → M B) w :
  (call e ≫= k) w = k tt (mkWorld (heap w) (calls w ++ [e])).
Proof. done. Qed.

Lemma step_must {A B} (o : option A) (k : A → M B) w a :
  o = Some a → (must o ≫= k) w = k a w.
Proof. by intros ->. Qed.

Lemma step_assoc {A B C} (m : M A) (k : A → M B) (k' : B → M C) w :
  ((m ≫= k) ≫= k') w = (m ≫= λ a, k a ≫= k') w.
Proof.
  unfold mbind, M_bind. destruct (m w) as [[a|] w']; done.
Qed.

(** [center] returns for a text of at most 81 bytes and panics for a
    longer one. *)
Definition centered (text : string) : string :=
  ReplaceSpaces
    (Repeat visible_space (Z.to_nat ((80 - Z.of_nat (String.length text)) ÷ 2))
       +:+ text) visible_space.

Lemma center_fits text w :
  String.length text ≤ 81 → center text w = (Some (centered text), w).
Proof.
  intros Hl. unfold center.
  destruct (Z.ltb_spec ((80 - Z.of_nat (String.length text)) ÷ 2) 0)
    as [Hneg|_]; [|done].
  assert (-2 < 80 - Z.of_nat (String.length text))%Z by lia.
  pose proof (Z.quot_le_mono (-1) (80 - Z.of_nat (String.length text)) 2).
  assert ((-1) ÷ 2 = 0)%Z by done. lia.
Qed.

Lemma center_panics text w :
  82 ≤ String.length text → center text w = (None, w).
Proof.
  intros Hl. unfold center.
  destruct (Z.ltb_spec ((80 - Z.of_nat (String.length text)) ÷ 2) 0)
    as [_|Hpos]; [done|].
  pose proof (Z.quot_le_mono (80 - Z.of_nat (String.length text)) (-2) 2).
  assert ((-2) ÷ 2 = -1)%Z by done. lia.
Qed.

Lemma step_center {B} text (k : string → M B) w :
  String.length text ≤ 81 → (center text ≫= k) w = k (centered text) w.
Proof.
  intros Hl. unfold mbind, M_bind. by rewrite center_fits.
Qed.

(** Field reads and writes are unfolded on a thing that is written out. *)
Arguments as_ !_ _ /.
Arguments any_ !_ _ /.
Arguments int_ !_ _ /.
Arguments ref_ !_ _ /.
Arguments set_As _ _ !_ /.
Arguments set_Any _ _ !_ /.
Arguments set_Int _ _ !_ /.
Arguments set_Ref _ _ !_ /.
Arguments set_In _ _ !_ /.
Arguments set_Who _ _ !_ /.
Arguments delete_Who _ !_ /.
Arguments add_Event _ !_ /.
Arguments delete_Ref _ !_ /.
Arguments delete_Any _ !_ /.
Arguments remove_Event _ !_ /.

Lemma alter_present (h : gmap ptr Thing) p f t :
  h !! p = Some t → alter f p h = <[p := f t]> h.
Proof.
  intros Hp. apply map_eq. intros q.
  destruct (decide (p = q)) as [<-|Hne].
  - by rewrite lookup_alter_eq, lookup_insert_eq, Hp.
  - by rewrite lookup_alter_ne, lookup_insert_ne.
Qed.

(** Tactics that run a command one call at a time on a heap in which the
    things written so far are the outermost insertions. *)
Ltac heap_ne := first [done | congruence].

Ltac thing_fields :=
  cbn [set_As set_Any set_Int set_Ref set_In set_Who delete_Who add_Event
       As Any Int Ref In Who Is Event as_ any_ int_ ref_];
  repeat first
    [ rewrite lookup_insert_eq
    | rewrite lookup_insert_ne by done
    | rewrite lookup_singleton_eq
    | rewrite lookup_singleton_ne by done
    | rewrite lookup_empty ];
  cbn [default from_option].

Ltac heap_find :=
  cbn [heap calls];
  repeat (rewrite lookup_insert_ne by heap_ne);
  first [apply lookup_insert_eq | eassumption].

Ltac heap_write :=
  cbn [heap calls];
  repeat first
    [ rewrite alter_insert_eq
    | rewrite alter_insert_ne by heap_ne
    | erewrite alter_present by eassumption ].

Ltac step :=
  first
    [ rewrite step_ret
    | rewrite step_update; heap_write
    | rewrite step_call; cbn [heap calls]
    | erewrite step_get by heap_find
    | erewrite step_deref by heap_find
    | erewrite step_must by (cbn; first [eassumption | reflexivity])
    | rewrite step_center by done ];
  thing_fields.


(** What [createCorpse] makes of the thing [t] at the location [where_]:
    a thing with the given UID that carries the names, the description,
    the aliases and the qualifiers of [t]. *)
Definition is_corpse (u : string) (t : Thing) (where_ : ptr) (c : Thing) : Prop :=
  as_ c UID = u ∧
  as_ c Name = ("a corpse of " +:+ as_ t Name)%string ∧
  as_ c UName = ("A corpse of " +:+ as_ t Name)%string ∧
  as_ c TheName = ("the corpse of " +:+ as_ t Name)%string ∧
  as_ c UTheName = ("The corpse of " +:+ as_ t Name)%string ∧
  as_ c Description = as_ t Description ∧
  as_ c OnCleanup
    = ("The corpse of " +:+ as_ t Name +:+ " turns to dust.")%string ∧
  any_ c Alias
    = (λ alias, if decide (alias = as_ t UID) then "CORPSE"%string else alias)
        <$> (u :: any_ t Alias) ∧
  any_ c Qualifier = any_ t Qualifier ∧
  ref_ c Where = Some where_ ∧
  int_ c CleanupAfter = 60000000000%Z ∧
  In c = ∅ ∧ Who c = ∅ ∧ Is c = 0%N.

Lemma createCorpse_result w t tt_ where_ wh :
  heap w !! t = Some tt_ →
  ref_ tt_ Where = Some where_ →
  heap w !! where_ = Some wh →
  t ≠ where_ →
  ∃ ct,
    is_corpse (NewUID (fresh (dom (heap w)))) tt_ where_ ct ∧
    Event ct = ∅ ∧
    createCorpse t w =
      (Some (fresh (dom (heap w))),
       mkWorld
         (<[fresh (dom (heap w)) := ct]>
            (<[where_ := set_In (NewUID (fresh (dom (heap w)))) t wh]> (heap w)))
         (calls w)).
Proof.
  intros Ht Hwhere Hwh Hne.
  set (c := fresh (dom (heap w))).
  assert (Hc : heap w !! c = None) by apply not_elem_of_dom, is_fresh.
  assert (Hct : c ≠ t) by congruence.
  assert (Hcw : c ≠ where_) by congruence.
  unfold createCorpse.
  unfold NewThing at 1. unfold mbind at 1, M_bind at 1. fold c.
  repeat step. cbn [id].
  eexists. split; [|split; [|reflexivity]].
  - unfold is_corpse. repeat split; thing_fields; try done.
  - done.
Qed.

Lemma quiet_app cs cs' : quiet (cs ++ cs') = quiet cs ++ quiet cs'.
Proof. apply List.filter_app. Qed.

Lemma step_createCorpse {B} (k : ptr → M B) w t tt_ where_ wh :
  heap w !! t = Some tt_ →
  ref_ tt_ Where = Some where_ →
  heap w !! where_ = Some wh →
  t ≠ where_ →
  ∃ ct,
    is_corpse (NewUID (fresh (dom (heap w)))) tt_ where_ ct ∧
    Event ct = ∅ ∧
    (createCorpse t ≫= k) w =
      k (fresh (dom (heap w)))
        (mkWorld
           (<[fresh (dom (heap w)) := ct]>
              (<[where_ := set_In (NewUID (fresh (dom (heap w)))) t wh]> (heap w)))
           (calls w)).
Proof.
  intros Ht Hwhere Hwh Hne.
  destruct (createCorpse_result w t tt_ where_ wh Ht Hwhere Hwh Hne)
    as (ct & Hct & Hev & Heq).
  exists ct. split; [done|]. split; [done|].
  unfold mbind, M_bind. by rewrite Heq.
Qed.

Lemma as_set_Int k v t k' : as_ (set_Int k v t) k' = as_ t k'.
Proof. done. Qed.

Lemma as_set_Ref k v t k' : as_ (set_Ref k v t) k' = as_ t k'.
Proof. done. Qed.

Ltac step' :=
  first
    [ rewrite step_assoc
    | rewrite step_center by first [eassumption | (vm_compute; lia)]
    | step ];
  rewrite ?as_set_Int, ?as_set_Ref.

(** What the kill of [Hit] leaves behind, for a target [what] (the thing
    [wt]) at the location [where_] (the thing [wh]) in the world [w]. *)
Definition killed (w w' : world) (where_ what : ptr) (wh wt : Thing)
    (rnd_start : nat) : Prop :=
  let c := fresh (dom (heap w)) in
  (* one new thing, the corpse, carrying what describes the target ... *)
  heap w !! c = None ∧
  (∃ ct, heap w' !! c = Some ct ∧ is_corpse (NewUID c) wt where_ ct ∧
         Event ct = {[Cleanup]}) ∧
  (* ... is put into the location, and nothing else is ... *)
  (∃ wh', heap w' !! where_ = Some wh' ∧ In wh' = <[NewUID c := c]> (In wh) ∧
          (N.land (Is wt) Player = 0%N → Who wh' = Who wh) ∧
          (∀ start, N.land (Is wt) Player ≠ 0%N →
                    WorldStart !! rnd_start = Some start → start ≠ where_ →
                    Who wh' = delete (as_ wt UID) (Who wh))) ∧
  (* ... with its Cleanup scheduled; then the target is junked, or, as a
     player, put into a start location with a health of 1. *)
  (N.land (Is wt) Player = 0%N →
     heap w' !! what
       = Some (set_Int HealthCurrent (int_ wt HealthMaximum) wt) ∧
     quiet (calls w')
       = quiet (calls w)
         ++ [Scheduled c Cleanup; Junked what;
             Prompted what (as_ wt PromptStyle)]) ∧
  (N.land (Is wt) Player ≠ 0%N →
     ∃ start st',
       WorldStart !! rnd_start = Some start ∧
       heap w' !! what
         = Some (set_Ref Where start (set_Int HealthCurrent 1 wt)) ∧
       heap w' !! start = Some st' ∧
       Who st' !! as_ wt UID = Some what ∧
       quiet (calls w')
         = quiet (calls w)
           ++ [Scheduled c Cleanup; Subparsed what "$POOF";
               Prompted what (as_ wt PromptStyle)]).

Lemma Hit_kill_effects (s : state) (w : world) (damageTxt : string)
    (rnd_start : nat) a where_ wh what wt :
  heap w !! actor s = Some a →
  heap w !! where_ = Some wh →
  heap w !! what = Some wt →
  what ≠ where_ →
  ref_ wt Where = Some where_ →
  String.length (as_ wt Name) ≤ 81 →
  String.length (as_ a Name) ≤ 81 →
  (N.land (Is wt) Player ≠ 0%N →
   ∃ start st, WorldStart !! rnd_start = Some start ∧
               heap w !! start = Some st ∧ start ≠ what) →
  ∃ w', Hit_kill s where_ what damageTxt rnd_start w = (Some tt, w') ∧
        killed w w' where_ what wh wt rnd_start.
Proof.
  intros Ha Hwh Hwt Hne Hwhere Hl1 Hl2 Hstart.
  set (c := fresh (dom (heap w))).
  assert (Hc : heap w !! c = None) by apply not_elem_of_dom, is_fresh.
  assert (Hcw : c ≠ what) by congruence.
  assert (Hcl : c ≠ where_) by congruence.
  assert (Hne' : where_ ≠ what) by congruence.
  unfold Hit_kill, Schedule, Junk, Prompt, subparseFor.
  repeat step'.
  match goal with
  | |- context [(createCorpse what ≫= ?k) ?w1] =>
      destruct (step_createCorpse k w1 what wt where_ wh)
        as (ct & Hcorpse & Hev & ->); [done..|]
  end.
  cbn [heap calls]. fold c.
  repeat step'.
  rewrite (proj1 Hcorpse).
  repeat step'.
  destruct (decide (N.land (Is wt) Player = 0%N)) as [Hnp|Hp].
  - (* not a player *)
    repeat step'. unfold call.
    eexists. split; [reflexivity|].
    unfold killed. fold c. cbn [heap calls].
    split; [done|]. split; [|split; [|split]].
    + eexists. split; [heap_find|]. split; [done|].
      unfold add_Event. simpl. rewrite Hev. set_solver.
    + eexists. split; [heap_find|].
      split; [|split]; [|done|done].
      unfold set_In; simpl. apply insert_insert_eq.
    + intros _. split; [heap_find|].
      rewrite !quiet_app. simpl. by rewrite !app_nil_r, <-!app_assoc.
    + done.
  - (* a player *)
    destruct (Hstart Hp) as (start & st & Hws & Hst & Hsw).
    assert (Hcs : c ≠ start) by congruence.
    assert (Hsw' : what ≠ start) by congruence.
    repeat step'.
    rewrite decide_False
      by (intros Hz; apply nil_length_inv in Hz; by rewrite Hz in Hws).
    repeat step'.
    destruct (decide (start = where_)) as [->|Hsl].
    + (* the player dies in the start location it returns to *)
      repeat step'. unfold call.
      eexists. split; [reflexivity|].
      unfold killed. fold c. cbn [heap calls].
      split; [done|]. split; [|split; [|split]].
      * eexists. split; [heap_find|]. split; [done|].
        unfold add_Event. simpl. rewrite Hev. set_solver.
      * eexists. split; [heap_find|].
        split; [|split]; [|done|].
        -- unfold set_In, set_Who, delete_Who; simpl. apply insert_insert_eq.
        -- intros start' _ Hws' Hne''. congruence.
      * done.
      * intros _. exists where_. eexists.
        split; [done|]. split; [heap_find|]. split; [heap_find|].
        split.
        -- unfold set_In, set_Who, delete_Who; simpl. apply lookup_insert_eq.
        -- rewrite !quiet_app. simpl. by rewrite !app_nil_r, <-!app_assoc.
    + assert (Hls : where_ ≠ start) by congruence.
      repeat step'. unfold call.
      eexists. split; [reflexivity|].
      unfold killed. fold c. cbn [heap calls].
      split; [done|]. split; [|split; [|split]].
      * eexists. split; [heap_find|]. split; [done|].
        unfold add_Event. simpl. rewrite Hev. set_solver.
      * eexists. split; [heap_find|].
        split; [|split]; [|done|].
        -- unfold set_In, set_Who, delete_Who; simpl. apply insert_insert_eq.
        -- intros start' _ Hws' Hne''.
           by unfold set_In, set_Who, delete_Who; simpl.
      * done.
      * intros _. exists start. eexists.
        split; [done|]. split; [heap_find|]. split; [heap_find|].
        split.
        -- unfold set_Who; simpl. apply lookup_insert_eq.
        -- rewrite !quiet_app. simpl. by rewrite !app_nil_r, <-!app_assoc.
Qed.

(** [Hit] reaches its kill: there are words, the actor is at a location,
    the first match is a thing [what] other than the actor, the location
    does not veto combat and is not crowded, and [what] can be killed and
    has no more health than the damage. *)
Definition kill_due (s : state) (w : world) (rnd_damage : Z)
    (a : Thing) (where_ : ptr) (wh : Thing) (what : ptr) (wt : Thing) : Prop :=
  word s ≠ [] ∧
  heap w !! actor s = Some a ∧
  ref_ a Where = Some where_ ∧
  heap w !! where_ = Some wh ∧
  (∃ uid, Match (word s) wh !! 0 = Some uid ∧
          match Who wh !! uid with
          | Some p => Some p
          | None => In wh !! uid
          end = Some what) ∧
  actor s ≠ what ∧
  heap w !! what = Some wt ∧
  as_ wh VetoCombat = ""%string ∧
  (Z.of_nat (size (Who wh)) < crowdSize)%Z ∧
  (0 < int_ wt HealthMaximum)%Z ∧
  (int_ wt HealthCurrent ≤ 2 + rnd_damage)%Z.

Lemma Hit_reaches_kill s w rnd_damage rnd_start a where_ wh what wt :
  kill_due s w rnd_damage a where_ wh what wt →
  Hit s rnd_damage rnd_start w
  = Hit_kill s where_ what (pretty (2 + rnd_damage)%Z) rnd_start w.
Proof.
  intros (Hword & Ha & Hwhere & Hwh & (uid & Hm & Hwhat) & Hself & Hwt
          & Hveto & Hcrowd & Hmax & Hdmg).
  unfold Hit.
  rewrite decide_False by (by destruct (word s)).
  cbv zeta.
  erewrite step_deref by eassumption.
  rewrite Hwhere.
  erewrite step_deref by eassumption.
  erewrite step_must by reflexivity.
  erewrite step_must by eassumption.
  rewrite Hwhat.
  rewrite decide_False by done.
  rewrite decide_False by (by rewrite Hveto; intros ?).
  rewrite bool_decide_eq_true_2 by done. cbn [negb].
  erewrite step_deref by eassumption.
  rewrite decide_False by lia.
  by rewrite decide_True by done.
Qed.

(** When the kill is due for a target that is where the actor is, and the
    names of both fit the 80 columns of [center], [Hit] returns, and what
    it leaves behind is the kill. *)
Lemma Hit_kills s w rnd_damage rnd_start a where_ wh what wt :
  kill_due s w rnd_damage a where_ wh what wt →
  what ≠ where_ →
  ref_ wt Where = Some where_ →
  String.length (as_ wt Name) ≤ 81 →
  String.length (as_ a Name) ≤ 81 →
  (N.land (Is wt) Player ≠ 0%N →
   ∃ start st, WorldStart !! rnd_start = Some start ∧
               heap w !! start = Some st ∧ start ≠ what) →
  ∃ w', Hit s rnd_damage rnd_start w = (Some tt, w') ∧
        killed w w' where_ what wh wt rnd_start.
Proof.
  intros Hdue Hne Hwhere Hl1 Hl2 Hstart.
  rewrite (Hit_reaches_kill s w rnd_damage rnd_start a where_ wh what wt Hdue).
  destruct Hdue as (_ & Ha & _ & Hwh & _ & _ & Hwt & _).
  by apply (Hit_kill_effects s w _ rnd_start a where_ wh what wt).
Qed.

(** When the kill is due for a target whose name is 82 bytes or longer,
    [Hit] panics in [center] after its first message: nothing on the heap
    has changed, and no call but that message has been made. *)
Lemma Hit_panics s w rnd_damage rnd_start a where_ wh what wt :
  kill_due s w rnd_damage a where_ wh what wt →
  82 ≤ String.length (as_ wt Name) →
  ∃ w', Hit s rnd_damage rnd_start w = (None, w') ∧
        heap w' = heap w ∧ quiet (calls w') = quiet (calls w).
Proof.
  intros Hdue Hlong.
  rewrite (Hit_reaches_kill s w rnd_damage rnd_start a where_ wh what wt Hdue).
  destruct Hdue as (_ & Ha & _ & Hwh & _ & _ & Hwt & _).
  unfold Hit_kill.
  repeat step'.
  unfold mbind at 1, M_bind at 1. rewrite center_panics by done.
  eexists. split; [reflexivity|]. cbn [heap calls].
  split; [done|]. rewrite quiet_app. simpl. by rewrite app_nil_r.
Qed.

(** The values [rand.Int63n(n)] returns; a uniform source returns each
    with the same probability. *)
Definition Int63n_values (n : Z) : list Z := seqZ 0 n.

(** The probability of an event over the draw [rand.Int63n(n)] of a
    uniform source: the share of the values on which it holds. *)
Definition probability (n : Z) (ev : Z → bool)
    : QArith_base.Q :=
  QArith_base.Qmake (Z.of_nat (length (List.filter ev (Int63n_values n)))) (Z.to_pos n).

(** The roles come out swapped: the opponent attacks and the actor
    defends. *)
Definition swapped (actor what : ptr) (rnd_swap : Z) : bool :=
  bool_decide (Combat_roles actor what rnd_swap = (what, actor)).

(** *** What [Hit] leaves alone *)

Lemma quiet_msg cs to text : quiet (cs ++ [Msg to text]) = quiet cs.
Proof. rewrite quiet_app. simpl. apply app_nil_r. Qed.

Lemma quiet_msg_append cs to text : quiet (cs ++ [MsgAppend to text]) = quiet cs.
Proof. rewrite quiet_app. simpl. apply app_nil_r. Qed.

(** X13. [Hit] changes a thing, or makes a call other than a message, only
    when it has a target to fight: words that name a thing at the actor's
    location other than the actor, in a location that does not veto combat
    and is not crowded, and a target whose maximum health is not zero.  In
    every other case, the panics included, the heap is as it was and
    nothing is scheduled, junked, prompted or parsed. *)
Theorem Hit_fights_only_a_target (s : state) (rnd_damage : Z) (rnd_start : nat)
    (w : world) :
  (heap (Hit s rnd_damage rnd_start w).2 = heap w ∧
   quiet (calls (Hit s rnd_damage rnd_start w).2) = quiet (calls w)) ∨
  (∃ a where_ wh uid what wt,
     word s ≠ [] ∧
     heap w !! actor s = Some a ∧ ref_ a Where = Some where_ ∧
     heap w !! where_ = Some wh ∧
     Match (word s) wh !! 0 = Some uid ∧
     match Who wh !! uid with
     | Some p => Some p
     | None => In wh !! uid
     end = Some what ∧
     heap w !! what = Some wt ∧
     actor s ≠ what ∧
     as_ wh VetoCombat = ""%string ∧
     (Z.of_nat (size (Who wh)) < crowdSize)%Z ∧
     int_ wt HealthMaximum ≠ 0%Z).
Proof.
  assert (Hleaf : ∀ (r : option unit * world) o to text,
            (o, mkWorld (heap w) (calls w ++ [Msg to text])) = r →
            heap r.2 = heap w ∧ quiet (calls r.2) = quiet (calls w)).
  { intros r o to text <-. simpl. by rewrite quiet_msg. }
  generalize (eq_refl (Hit s rnd_damage rnd_start w)).
  generalize (Hit s rnd_damage rnd_start w) at 2 3 4 as r.
  intros r Hr. unfold Hit in Hr.
  destruct (decide (length (word s) = 0)) as [Hnil|Hword].
  { left. by eapply Hleaf. }
  cbv zeta in Hr. unfold mbind at 1, M_bind at 1, deref at 1 in Hr.
  simpl in Hr.
  destruct (heap w !! actor s) as [a|] eqn:Ha; [|subst r; by left].
  unfold mbind at 1, M_bind at 1, deref at 1 in Hr. simpl in Hr.
  destruct (ref_ a Where) as [where_|] eqn:Hwhere; simpl in Hr;
    [|subst r; by left].
  destruct (heap w !! where_) as [wh|] eqn:Hwh; [|subst r; by left].
  unfold mbind at 1, M_bind at 1, must at 1 in Hr.
  unfold mbind at 1, M_bind at 1, must at 1 in Hr.
  destruct (Match (word s) wh !! 0) as [uid|] eqn:Hm; [|subst r; by left].
  destruct (match Who wh !! uid with
            | Some p => Some p
            | None => In wh !! uid
            end) as [what|] eqn:Hwhat.
  2: { left. by eapply Hleaf. }
  destruct (decide (actor s = what)) as [Hself|Hself].
  { left. subst r. unfold mbind, M_bind, call. simpl. by rewrite !quiet_msg. }
  destruct (decide (as_ wh VetoCombat ≠ ""%string)) as [Hveto|Hveto].
  { left. by eapply Hleaf. }
  destruct (bool_decide (Z.of_nat (size (Who wh)) < crowdSize)%Z) eqn:Hcrowd;
    cbn [negb] in Hr.
  2: { left. by eapply Hleaf. }
  unfold mbind at 1, M_bind at 1, deref at 1 in Hr. simpl in Hr.
  destruct (heap w !! what) as [wt|] eqn:Hwt; [|subst r; by left].
  destruct (decide (int_ wt HealthMaximum = 0%Z)) as [Hmax|Hmax].
  { left. by eapply Hleaf. }
  right. exists a, where_, wh, uid, what, wt.
  apply bool_decide_eq_true in Hcrowd.
  repeat split; try done.
  - intros Hw. by rewrite Hw in Hword.
  - by apply dec_stable.
Qed.

(** *** The hit that wounds *)

Lemma int_set_Int_eq k v t : int_ (set_Int k v t) k = v.
Proof. unfold int_, set_Int. simpl. by rewrite lookup_insert_eq. Qed.

Lemma int_set_Int_ne k v t k' : k ≠ k' → int_ (set_Int k v t) k' = int_ t k'.
Proof. intros Hne. unfold int_, set_Int. simpl. by rewrite lookup_insert_ne. Qed.


(** [Hit] reaches its default case: as for the kill, but the target has
    more health than the damage. *)
Definition wound_due (s : state) (w : world) (rnd_damage : Z)
    (a : Thing) (where_ : ptr) (wh : Thing) (what : ptr) (wt : Thing) : Prop :=
  word s ≠ [] ∧
  heap w !! actor s = Some a ∧
  ref_ a Where = Some where_ ∧
  heap w !! where_ = Some wh ∧
  (∃ uid, Match (word s) wh !! 0 = Some uid ∧
          match Who wh !! uid with
          | Some p => Some p
          | None => In wh !! uid
          end = Some what) ∧
  actor s ≠ what ∧
  heap w !! what = Some wt ∧
  as_ wh VetoCombat = ""%string ∧
  (Z.of_nat (size (Who wh)) < crowdSize)%Z ∧
  int_ wt HealthMaximum ≠ 0%Z ∧
  (2 + rnd_damage < int_ wt HealthCurrent)%Z.

Lemma Hit_reaches_wound s w rnd_damage rnd_start a where_ wh what wt :
  wound_due s w rnd_damage a where_ wh what wt →
  Hit s rnd_damage rnd_start w
  = Hit_wound s where_ what (2 + rnd_damage) (pretty (2 + rnd_damage)%Z) w.
Proof.
  intros (Hword & Ha & Hwhere & Hwh & (uid & Hm & Hwhat) & Hself & Hwt
          & Hveto & Hcrowd & Hmax & Hdmg).
  unfold Hit.
  rewrite decide_False by (by destruct (word s)).
  cbv zeta.
  erewrite step_deref by eassumption.
  rewrite Hwhere.
  erewrite step_deref by eassumption.
  erewrite step_must by reflexivity.
  erewrite step_must by eassumption.
  rewrite Hwhat.
  rewrite decide_False by done.
  rewrite decide_False by (by rewrite Hveto; intros ?).
  rewrite bool_decide_eq_true_2 by done. cbn [negb].
  erewrite step_deref by eassumption.
  rewrite decide_False by done.
  by rewrite decide_False by lia.
Qed.

(** The messages to the locations nearby change no thing, and they are
    messages only, also when a location is missing and the loop panics. *)
Lemma nearby_quiet (near : list ptr) : ∀ w r,
  foldr (λ l rest,
           lt ← deref (Some l);
           (if decide (0 < size (Who lt)
                       ∧ (Z.of_nat (size (Who lt)) < crowdSize)%Z)
            then call (Msg l [text_Info; "You hear fighting nearby."]%string)
            else mret tt);;
           rest) (mret tt) near w = r →
  heap r.2 = heap w ∧ quiet (calls r.2) = quiet (calls w) ∧
  ((∀ l, l ∈ near → is_Some (heap w !! l)) → r.1 = Some tt).
Proof.
  induction near as [|l near IH]; intros w r Hr; cbn [foldr] in Hr.
  { by subst r. }
  unfold mbind at 1, M_bind at 1, deref at 1 in Hr. simpl in Hr.
  destruct (heap w !! l) as [lt|] eqn:Hl; simpl in Hr.
  2: { subst r. split; [done|]. split; [done|]. intros Hall.
       destruct (Hall l) as [? ?]; [left|congruence]. }
  destruct (decide (0 < size (Who lt)
                    ∧ (Z.of_nat (size (Who lt)) < crowdSize)%Z)).
  - rewrite step_call in Hr.
    destruct (IH _ _ Hr) as (Hh & Hq & Hret). cbn [heap calls] in *.
    rewrite quiet_msg in Hq.
    split; [done|]. split; [done|]. intros Hall. apply Hret.
    intros l' Hl'. apply Hall. by right.
  - rewrite step_ret in Hr. destruct (IH _ _ Hr) as (Hh & Hq & Hret).
    split; [done|]. split; [done|]. intros Hall. apply Hret.
    intros l' Hl'. apply Hall. by right.
Qed.

(** X14. A hit that does not kill.  When [Hit] has a target with more
    health than the damage (2 to 4), the target loses exactly the damage
    and keeps a health above zero; its Health event is scheduled if none
    is and the health is below the maximum; its prompt is shown.  No other
    thing changes and nothing is added to the heap, whether or not the
    messages to the nearby locations can all be sent; when the locations
    that [radius] names exist, [Hit] returns. *)
Theorem Hit_wounds (s : state) (w : world) (rnd_damage : Z) (rnd_start : nat)
    (a : Thing) (where_ : ptr) (wh : Thing) (what : ptr) (wt : Thing) :
  wound_due s w rnd_damage a where_ wh what wt →
  (0 ≤ rnd_damage ≤ 2)%Z →
  (int_ wt HealthCurrent < 2 ^ 63)%Z →
  let h := (int_ wt HealthCurrent - (2 + rnd_damage))%Z in
  let fresh_event :=
    bool_decide ((Health ∉ Event wt) ∧ (h < int_ wt HealthMaximum)%Z) in
  let wt' :=
    if fresh_event then add_Event Health (set_Int HealthCurrent h wt)
    else set_Int HealthCurrent h wt in
  let r := Hit s rnd_damage rnd_start w in
  (0 < h)%Z ∧
  heap r.2 = <[what := wt']> (heap w) ∧
  quiet (calls r.2)
    = quiet (calls w)
      ++ (if fresh_event then [Scheduled what Health] else [])
      ++ [Prompted what (as_ wt PromptStyle)] ∧
  (∀ near, radius 1 where_ (<[what := wt']> (heap w)) !! 1 = Some near →
           (∀ l, l ∈ near → l = what ∨ is_Some (heap w !! l)) →
           r.1 = Some tt).
Proof.
  intros Hdue Hrnd Hmax63 h fresh_event wt' r.
  assert (Hh : (0 < h)%Z).
  { destruct Hdue as (_ & _ & _ & _ & _ & _ & _ & _ & _ & _ & Hd).
    unfold h. lia. }
  split; [done|].
  assert (Hwrap : int64 h = h).
  { unfold int64, h in *. rewrite Z.mod_small; lia. }
  assert (Hr : Hit s rnd_damage rnd_start w = r) by done. clearbody r.
  rewrite (Hit_reaches_wound s w rnd_damage rnd_start a where_ wh what wt Hdue)
    in Hr.
  destruct Hdue as (_ & Ha & Hwhere & Hwh & _ & Hself & Hwt & _).
  assert (Hself' : what ≠ actor s) by congruence.
  revert r Hr.
  unfold Hit_wound, Schedule, Prompt.
  erewrite step_get by eassumption.
  rewrite step_update. cbn [heap calls].
  erewrite alter_present by eassumption.
  fold h. rewrite Hwrap.
  erewrite step_deref by (cbn [heap]; apply lookup_insert_eq).
  rewrite !int_set_Int_eq, !int_set_Int_ne by done.
  change (Event (set_Int HealthCurrent h wt)) with (Event wt).
  change (as_ (set_Int HealthCurrent h wt)) with (as_ wt).
  assert (Htail : ∀ wt1 cs r,
            (deref (Some (actor s)) ≫= λ a0,
               call (Msg (actor s)
                       [text_Good; "You hit "; as_ wt TheName; " (";
                        pretty (2 + rnd_damage)%Z; ")."]%string);;
               call (Msg what
                       [text_Bad; as_ a0 UTheName; " hits you (";
                        pretty (2 + rnd_damage)%Z; ")."]%string);;
               call (Msg where_
                       [text_Info; "You see "; as_ a0 Name; " hit ";
                        as_ wt Name; "."]%string);;
               (if decide (h < 4)%Z then
                  call (MsgAppend (actor s)
                          [text_Good; " "; as_ wt UTheName;
                           " looks nearly dead."]%string);;
                  call (MsgAppend what [text_Bad; " You are almost dead."]%string);;
                  call (MsgAppend where_
                          [text_Info; " "; as_ wt UTheName;
                           " is almost dead."]%string)
                else mret tt);;
               a_where ← must (ref_ a0 Where);
               locs ← (λ w, (Some (radius 1 a_where (heap w)), w));
               near ← must (locs !! 1);
               foldr (λ l rest,
                        lt ← deref (Some l);
                        (if decide (0 < size (Who lt)
                                    ∧ (Z.of_nat (size (Who lt)) < crowdSize)%Z)
                         then call (Msg l [text_Info;
                                           "You hear fighting nearby."]%string)
                         else mret tt);;
                        rest)
                 (mret tt) near)
              (mkWorld (<[what := wt1]> (heap w)) cs) = r →
            heap r.2 = <[what := wt1]> (heap w) ∧
            quiet (calls r.2) = quiet cs ∧
            (∀ near,
               radius 1 where_ (<[what := wt1]> (heap w)) !! 1 = Some near →
               (∀ l, l ∈ near → l = what ∨ is_Some (heap w !! l)) →
               r.1 = Some tt)).
  { intros wt1 cs r.
    repeat step'.
    assert (Hmsgs : ∀ cs' r,
              (must (Some where_) ≫= λ a_where,
                 locs ← (λ w, (Some (radius 1 a_where (heap w)), w));
                 near ← must (locs !! 1);
                 foldr (λ l rest,
                          lt ← deref (Some l);
                          (if decide (0 < size (Who lt)
                                      ∧ (Z.of_nat (size (Who lt)) < crowdSize)%Z)
                           then call (Msg l [text_Info;
                                             "You hear fighting nearby."]%string)
                           else mret tt);;
                          rest)
                   (mret tt) near)
                (mkWorld (<[what := wt1]> (heap w)) cs') = r →
              quiet cs' = quiet cs →
              heap r.2 = <[what := wt1]> (heap w) ∧
              quiet (calls r.2) = quiet cs ∧
              (∀ near,
                 radius 1 where_ (<[what := wt1]> (heap w)) !! 1 = Some near →
                 (∀ l, l ∈ near → l = what ∨ is_Some (heap w !! l)) →
                 r.1 = Some tt)).
    { intros cs' r' Hr' Hcs. erewrite step_must in Hr' by reflexivity.
      unfold mbind at 1, M_bind at 1 in Hr'. cbn [heap calls] in Hr'.
      unfold mbind at 1, M_bind at 1, must at 1 in Hr'.
      destruct (radius 1 where_ (<[what := wt1]> (heap w)) !! 1)
        as [near|] eqn:Hnear.
      - destruct (nearby_quiet near _ _ Hr') as (Hh' & Hq' & Hret).
        cbn [heap calls] in *. rewrite Hq', Hcs.
        split; [done|]. split; [done|].
        intros near' [= <-] Hall. apply Hret. intros l Hl.
        destruct (decide (l = what)) as [->|Hne].
        + rewrite lookup_insert_eq. eauto.
        + rewrite lookup_insert_ne by done.
          destruct (Hall l Hl) as [?|?]; done.
      - subst r'. cbn [heap calls snd fst]. by rewrite Hcs. }
    rewrite Hwhere.
    destruct (decide (h < 4)%Z).
    - repeat step'. intros Hr. eapply Hmsgs; [exact Hr|].
      by rewrite !quiet_msg_append, !quiet_msg.
    - repeat step'. intros Hr. eapply Hmsgs; [exact Hr|].
      by rewrite !quiet_msg. }
  unfold wt', fresh_event.
  destruct (decide ((Health ∉ Event wt) ∧ (h < int_ wt HealthMaximum)%Z))
    as [Hev|Hev].
  - rewrite bool_decide_eq_true_2 by done.
    rewrite step_assoc, step_update. heap_write.
    rewrite step_call. cbn [heap calls]. rewrite step_call. cbn [heap calls].
    intros r Hr. destruct (Htail _ _ _ Hr) as (Hheap & Hq & Hret).
    split; [done|]. split; [|done].
    rewrite Hq, !quiet_app. simpl. by rewrite <-?app_assoc.
  - rewrite bool_decide_eq_false_2 by done.
    rewrite step_ret, step_call. cbn [heap calls].
    intros r Hr. destruct (Htail _ _ _ Hr) as (Hheap & Hq & Hret).
    split; [done|]. split; [|done].
    rewrite Hq, !quiet_app. simpl. by rewrite <-?app_assoc.
Qed.

(** *** The kill and the corpse *)


(** X16. [createCorpse] makes one new thing and changes the location of
    the original, nothing else; it schedules nothing.  It enters the
    original thing, not the corpse, into the location under the corpse's
    UID (it is for the caller to put the corpse there).  The corpse has
    the aliases of the original after its own UID, with the UID of the
    original replaced by CORPSE, so the UID of the original never names
    the corpse.  For a thing that is nowhere [createCorpse] panics. *)
Theorem createCorpse_registers_original (w : world) (t : ptr) (tt_ : Thing) :
  heap w !! t = Some tt_ →
  (ref_ tt_ Where = None → (createCorpse t w).1 = None) ∧
  (∀ where_ wh,
     ref_ tt_ Where = Some where_ → heap w !! where_ = Some wh → t ≠ where_ →
     ∃ c ct,
       heap w !! c = None ∧
       createCorpse t w =
         (Some c,
          mkWorld (<[c := ct]>
                     (<[where_ := set_In (as_ ct UID) t wh]> (heap w)))
            (calls w)) ∧
       is_corpse (NewUID c) tt_ where_ ct ∧
       Event ct = ∅ ∧
       length (any_ ct Alias) = S (length (any_ tt_ Alias)) ∧
       (as_ tt_ UID ≠ "CORPSE"%string → as_ tt_ UID ∉ any_ ct Alias)).
Proof.
  intros Ht. split.
  - intros Hnone.
    set (c := fresh (dom (heap w))).
    assert (Hc : heap w !! c = None) by apply not_elem_of_dom, is_fresh.
    assert (Hct : c ≠ t) by congruence.
    unfold createCorpse.
    unfold NewThing at 1. unfold mbind at 1, M_bind at 1. fold c.
    repeat step. rewrite Hnone. done.
  - intros where_ wh Hwhere Hwh Hne.
    destruct (createCorpse_result w t tt_ where_ wh Ht Hwhere Hwh Hne)
      as (ct & Hcorpse & Hev & Heq).
    exists (fresh (dom (heap w))), ct.
    split; [apply not_elem_of_dom, is_fresh|].
    pose proof Hcorpse as (Huid & _ & _ & _ & _ & _ & _ & Halias & _).
    rewrite Huid. split; [done|]. split; [done|]. split; [done|].
    rewrite Halias. split.
    + by rewrite length_fmap.
    + intros Hnc Hin. apply list_elem_of_fmap in Hin as (x & Hx & _).
      destruct (decide (x = as_ tt_ UID)); congruence.
Qed.

(** *** A round of combat *)

(** What [stopCombat(who, nil)] makes of the thing [who]. *)
Definition stopped (t : Thing) : Thing :=
  delete_Any Opponents
    (delete_Ref Opponent (add_Event Action (remove_Event Combat t))).

Lemma step_stopCombat_nil {B} (k : unit → M B) w who t :
  heap w !! who = Some t →
  (stopCombat (Some who) None ≫= k) w
  = k tt (mkWorld (<[who := stopped t]> (heap w))
            (calls w ++ [Scheduled who Action])).
Proof.
  intros Hw. unfold stopCombat, Cancel, Schedule.
  rewrite ?step_assoc. erewrite step_must by reflexivity.
  rewrite ?step_assoc. erewrite step_deref by eassumption.
  rewrite ?step_assoc, step_update. cbn [heap calls].
  erewrite alter_present by eassumption.
  rewrite ?step_assoc, step_update. cbn [heap calls].
  rewrite alter_insert_eq.
  rewrite ?step_assoc, step_call. cbn [heap calls].
  rewrite ?step_assoc, step_update. cbn [heap calls].
  rewrite alter_insert_eq.
  rewrite step_update. cbn [heap calls].
  by rewrite alter_insert_eq.
Qed.

(** X17. When the opponent is gone, the round is off.  If the actor of
    [Combat] has no opponent, or the opponent is not where the actor is,
    [Combat] returns after it has stopped the combat of the actor: the
    actor's Combat event is cancelled and its Action scheduled, it has no
    opponent and no list of opponents any more, and it is told so.  No
    thing but the actor changes, and nobody is hurt. *)
Theorem Combat_opponent_gone (s : state) (rnd_swap rnd_damage : Z)
    (rnd_start : nat) (w : world) (a : Thing) :
  heap w !! actor s = Some a →
  (ref_ a Opponent = None ∨
   ∃ what wt, ref_ a Opponent = Some what ∧ heap w !! what = Some wt ∧
              ref_ a Where ≠ ref_ wt Where) →
  ∃ w',
    state_Combat s rnd_swap rnd_damage rnd_start w = (Some tt, w') ∧
    heap w' = <[actor s := stopped a]> (heap w) ∧
    int_ (stopped a) HealthCurrent = int_ a HealthCurrent ∧
    ref_ (stopped a) Opponent = None ∧
    any_ (stopped a) Opponents = [] ∧
    (Combat ∉ Event (stopped a)) ∧ (Action ∈ Event (stopped a)) ∧
    quiet (calls w') = quiet (calls w) ++ [Scheduled (actor s) Action].
Proof.
  intros Ha Hgone.
  assert (Hrun : state_Combat s rnd_swap rnd_damage rnd_start w
            = (Some tt,
               mkWorld (<[actor s := stopped a]> (heap w))
                 ((calls w ++ [Scheduled (actor s) Action])
                  ++ [Msg (actor s)
                        [text_Info;
                         (newline
                          +:+ "You stop fighting, your opponent disappeared...")%string]]))).
  { unfold state_Combat. erewrite step_deref by eassumption. cbv zeta.
    destruct Hgone as [Hnone|(what & wt & Hsome & Hwt & Hne)].
    - rewrite Hnone, step_ret.
      by erewrite step_stopCombat_nil by eassumption.
    - rewrite Hsome, step_assoc. erewrite step_deref by eassumption.
      rewrite step_ret, bool_decide_eq_true_2 by done.
      by erewrite step_stopCombat_nil by eassumption. }
  eexists. split; [exact Hrun|]. cbn [heap calls].
  split; [done|]. unfold stopped.
  split; [done|]. split; [|split; [|split; [|split]]].
  - unfold ref_. simpl. apply lookup_delete_eq.
  - unfold any_. simpl. by rewrite lookup_delete_eq.
  - simpl. set_solver.
  - simpl. set_solver.
  - rewrite quiet_msg, quiet_app. simpl. done.
Qed.

(** What a round that the defender survives makes of the defender [t],
    whose health becomes [h], and of the actor. *)
Definition wounded (h : Z) (t : Thing) : Thing :=
  let t := set_Int HealthCurrent h t in
  if bool_decide (Health ∈ Event t) then t else add_Event Health t.

Definition rearmed (t : Thing) : Thing :=
  add_Event Combat (set_Int CombatAfter roundDuration t).

(** X18. A round of [Combat] that the defender survives.  The actor and
    its opponent, who are at the same location, are attacker and defender
    as the draw says; the defender loses the damage of 2 to 4, and when
    its health stays above zero it is prompted, its Health event is
    scheduled unless it is already, and the next round, three seconds on,
    is scheduled for the actor, whoever attacked.  The attacker's health
    is as it was; no other thing changes and no corpse is made. *)
Theorem Combat_round_survived (s : state) (rnd_swap rnd_damage : Z)
    (rnd_start : nat) (w : world) (a : Thing) (what : ptr) (wt : Thing)
    (where_ : ptr) (dt : Thing) :
  heap w !! actor s = Some a →
  ref_ a Opponent = Some what →
  actor s ≠ what →
  heap w !! what = Some wt →
  ref_ a Where = Some where_ →
  ref_ wt Where = Some where_ →
  (0 ≤ rnd_damage ≤ 2)%Z →
  let attacker := (Combat_roles (actor s) what rnd_swap).1 in
  let defender := (Combat_roles (actor s) what rnd_swap).2 in
  let h := (int_ dt HealthCurrent - (2 + rnd_damage))%Z in
  heap w !! defender = Some dt →
  (2 + rnd_damage < int_ dt HealthCurrent < 2 ^ 63)%Z →
  ∃ w',
    state_Combat s rnd_swap rnd_damage rnd_start w = (Some tt, w') ∧
    heap w' = alter rearmed (actor s) (<[defender := wounded h dt]> (heap w)) ∧
    (0 < h)%Z ∧
    (∃ dt', heap w' !! defender = Some dt' ∧ int_ dt' HealthCurrent = h) ∧
    (∃ at0 at', heap w !! attacker = Some at0 ∧ heap w' !! attacker = Some at' ∧
                int_ at' HealthCurrent = int_ at0 HealthCurrent) ∧
    (∃ a', heap w' !! actor s = Some a' ∧
           int_ a' CombatAfter = 3000000000%Z ∧ Combat ∈ Event a') ∧
    quiet (calls w')
      = quiet (calls w)
        ++ [Prompted defender (as_ dt PromptStyle)]
        ++ (if bool_decide (Health ∈ Event dt) then []
            else [Scheduled defender Health])
        ++ [Scheduled (actor s) Combat].
Proof.
  intros Ha Hopp Hne Hwt Hwa Hww Hrnd attacker defender h Hdt Hh.
  assert (Hpos : (0 < h)%Z) by (unfold h; lia).
  assert (Hwrap : int64 h = h).
  { unfold int64, h in *. rewrite Z.mod_small; lia. }
  assert (Hne' : what ≠ actor s) by congruence.
  assert (Hrun : ∃ cs,
            state_Combat s rnd_swap rnd_damage rnd_start w
            = (Some tt,
               mkWorld (alter rearmed (actor s)
                          (<[defender := wounded h dt]> (heap w))) cs) ∧
            quiet cs
            = quiet (calls w)
              ++ [Prompted defender (as_ dt PromptStyle)]
              ++ (if bool_decide (Health ∈ Event dt) then []
                  else [Scheduled defender Health])
              ++ [Scheduled (actor s) Combat]).
  { unfold state_Combat. erewrite step_deref by eassumption. cbv zeta.
    rewrite Hopp, step_assoc. erewrite step_deref by eassumption.
    rewrite step_ret, Hwa, Hww, bool_decide_eq_false_2 by (by intros ?).
    erewrite step_must by reflexivity.
    unfold attacker, defender, wounded, Schedule, Prompt in *.
    unfold Combat_roles in *.
    destruct (rnd_swap <? 50)%Z; cbn [fst snd] in *.
    - (* the opponent attacks, the actor defends *)
      assert (dt = a) as -> by congruence.
      repeat step'. fold h. rewrite Hwrap.
      rewrite decide_True by (by rewrite int_set_Int_eq).
      repeat step'.
      change (Event (set_Int HealthCurrent h a)) with (Event a).
      destruct (decide (Health ∉ Event a)) as [Hev|Hev].
      + rewrite bool_decide_eq_false_2 by done.
        repeat step'. unfold call.
        eexists. split; [reflexivity|].
        cbn [calls]. rewrite !quiet_app. simpl.
        by rewrite ?app_nil_r, <-?app_assoc.
      + apply dec_stable in Hev. rewrite bool_decide_eq_true_2 by done.
        repeat step'. unfold call.
        eexists. split; [reflexivity|].
        cbn [calls]. rewrite !quiet_app. simpl.
        by rewrite ?app_nil_r, <-?app_assoc.
    - (* the actor attacks, the opponent defends *)
      assert (dt = wt) as -> by congruence.
      repeat step'. fold h. rewrite Hwrap.
      rewrite decide_True by (by rewrite int_set_Int_eq).
      repeat step'.
      change (Event (set_Int HealthCurrent h wt)) with (Event wt).
      destruct (decide (Health ∉ Event wt)) as [Hev|Hev].
      + rewrite bool_decide_eq_false_2 by done.
        repeat step'. unfold call.
        eexists. split; [reflexivity|].
        cbn [calls]. rewrite !quiet_app. simpl.
        by rewrite ?app_nil_r, <-?app_assoc.
      + apply dec_stable in Hev. rewrite bool_decide_eq_true_2 by done.
        repeat step'. unfold call.
        eexists. split; [reflexivity|].
        cbn [calls]. rewrite !quiet_app. simpl.
        by rewrite ?app_nil_r, <-?app_assoc. }
  destruct Hrun as (cs & Hrun & Hq).
  eexists. split; [exact Hrun|]. cbn [heap calls].
  split; [done|]. split; [done|].
  assert (Hw : int_ (wounded h dt) HealthCurrent = h).
  { unfold wounded. destruct (bool_decide _); apply int_set_Int_eq. }
  assert (Hr : ∀ t, int_ (rearmed t) HealthCurrent = int_ t HealthCurrent).
  { intros t. unfold rearmed, add_Event, int_. simpl.
    by rewrite lookup_insert_ne. }
  unfold attacker, defender, Combat_roles in *.
  destruct (rnd_swap <? 50)%Z; cbn [fst snd] in *.
  - (* the actor defends *)
    rewrite lookup_alter_eq, lookup_insert_eq, lookup_alter_ne,
      lookup_insert_ne, Hwt by done.
    cbn [fmap option_fmap option_map].
    split; [exists (rearmed (wounded h dt)); by rewrite Hr|].
    split; [by exists wt, wt|].
    split; [|done].
    exists (rearmed (wounded h dt)). split; [done|].
    split; [apply int_set_Int_eq|]. unfold rearmed, add_Event. simpl.
    set_solver.
  - (* the actor attacks *)
    rewrite lookup_alter_eq, lookup_alter_ne, lookup_insert_eq,
      lookup_insert_ne, Ha by done.
    cbn [fmap option_fmap option_map].
    split; [by exists (wounded h dt)|].
    split; [exists a, (rearmed a); by rewrite Hr|].
    split; [|done].
    exists (rearmed a). split; [done|].
    split; [apply int_set_Int_eq|]. unfold rearmed, add_Event. simpl.
    set_solver.
Qed.

(** X19. A round of [Combat] that kills panics when the defender lists an
    opponent that is no longer at the location: for a uid of the
    defender's Opponents found neither among the players nor among the
    things of the location, [stopCombat] is called on nil.  The defender
    is left with the damage taken, at or below zero health; no corpse is
    made and nothing is scheduled or junked. *)
Theorem Combat_kill_absent_opponent_panics (s : state)
    (rnd_swap rnd_damage : Z) (rnd_start : nat) (w : world) (a : Thing)
    (what : ptr) (wt : Thing) (where_ : ptr) (wh dt : Thing)
    (uid : string) (rest : list string) :
  heap w !! actor s = Some a →
  ref_ a Opponent = Some what →
  actor s ≠ what →
  heap w !! what = Some wt →
  ref_ a Where = Some where_ →
  ref_ wt Where = Some where_ →
  heap w !! where_ = Some wh →
  actor s ≠ where_ →
  what ≠ where_ →
  let defender := (Combat_roles (actor s) what rnd_swap).2 in
  let h := (int_ dt HealthCurrent - (2 + rnd_damage))%Z in
  heap w !! defender = Some dt →
  (- 2 ^ 63 ≤ h ≤ 0)%Z →
  any_ dt Opponents = uid :: rest →
  Who wh !! uid = None →
  In wh !! uid = None →
  ∃ w',
    state_Combat s rnd_swap rnd_damage rnd_start w = (None, w') ∧
    heap w' = <[defender := set_Int HealthCurrent h dt]> (heap w) ∧
    quiet (calls w') = quiet (calls w).
Proof.
  intros Ha Hopp Hne Hwt Hwa Hww Hwh Hnea Hnew defender h Hdt Hh Hopps
    HWho HIn.
  assert (Hwrap : int64 h = h).
  { unfold int64. rewrite Z.mod_small; lia. }
  assert (Hne' : what ≠ actor s) by congruence.
  unfold state_Combat. erewrite step_deref by eassumption. cbv zeta.
  rewrite Hopp, step_assoc. erewrite step_deref by eassumption.
  rewrite step_ret, Hwa, Hww, bool_decide_eq_false_2 by (by intros ?).
  erewrite step_must by reflexivity.
  unfold defender, Combat_roles in *.
  destruct (rnd_swap <? 50)%Z; cbn [fst snd] in *.
  - assert (dt = a) as -> by congruence.
    repeat step'. fold h. rewrite Hwrap.
    rewrite decide_False by (rewrite int_set_Int_eq; lia).
    repeat step'.
    change (any_ (set_Int HealthCurrent h a) Opponents)
      with (any_ a Opponents).
    rewrite Hopps. cbn [stop_opponents foldr].
    repeat step'. rewrite HWho, HIn.
    eexists. split; [reflexivity|]. cbn [heap calls]. split; [done|].
    by rewrite !quiet_msg, !quiet_msg_append, !quiet_msg.
  - assert (dt = wt) as -> by congruence.
    repeat step'. fold h. rewrite Hwrap.
    rewrite decide_False by (rewrite int_set_Int_eq; lia).
    repeat step'.
    change (any_ (set_Int HealthCurrent h wt) Opponents)
      with (any_ wt Opponents).
    rewrite Hopps. cbn [stop_opponents foldr].
    repeat step'. rewrite HWho, HIn.
    eexists. split; [reflexivity|]. cbn [heap calls]. split; [done|].
    by rewrite !quiet_msg, !quiet_msg_append, !quiet_msg.
Qed.

End Combat.

(** *** Concrete runs *)

(** A room (thing 1) with a player (thing 2) and a rat (thing 3); a start
    room (thing 9).  Words name things by their UID. *)
Definition demo_Match (ws : list string) (where_ : Thing) : list string := ws.
Definition demo_NewUID (p : ptr) : string := ("#UID-" +:+ pretty p)%string.
Definition demo_radius (n : nat) (p : ptr) (h : gmap ptr Thing)
    : list (list ptr) := [[p]; []].

Definition demo_Hit : state → Z → nat → M unit :=
  Hit demo_Match 10 1%N [9%N] "<i>" "<g>" "<b>" "<c>" demo_radius demo_NewUID.

Definition room : Thing :=
  mkThing {[Name := "a room"%string; UID := "#UID-1"%string]} ∅ ∅ ∅
    {[ "#UID-3"%string := 3%N ]} {[ "#UID-2"%string := 2%N ]} 0 ∅.

Definition start_room : Thing :=
  mkThing {[Name := "the start"%string; UID := "#UID-9"%string]} ∅ ∅ ∅ ∅ ∅ 0 ∅.

Definition hero : Thing :=
  mkThing {[Name := "Diddymus"%string; TheName := "Diddymus"%string;
            UTheName := "Diddymus"%string; UID := "#UID-2"%string]}
    {[Alias := ["#UID-2"; "DIDDYMUS"]%string]}
    {[HealthCurrent := 30%Z; HealthMaximum := 30%Z]}
    {[Where := 1%N]} ∅ ∅ 1 ∅.

Definition rat (name : string) : Thing :=
  mkThing {[Name := name; TheName := ("the " +:+ name)%string;
            UTheName := ("The " +:+ name)%string;
            Description := "A rat."%string; UID := "#UID-3"%string]}
    {[Alias := ["#UID-3"; "RAT"]%string; Qualifier := ["BROWN"%string]]}
    {[HealthCurrent := 3%Z; HealthMaximum := 10%Z]}
    {[Where := 1%N]} ∅ ∅ 0 ∅.

Definition arena (rat_name : string) : world :=
  mkWorld {[1%N := room; 2%N := hero; 3%N := rat rat_name; 9%N := start_room]} [].

(** The hero hits the rat for 3 when its health is 3. *)
Definition rat_killed : option unit * world :=
  demo_Hit (mkState 2%N ["#UID-3"%string]) 1 0 (arena "a rat").

Example rat_killed_corpse :
  rat_killed.1 = Some tt ∧
  In <$> heap rat_killed.2 !! 1%N
    = Some {[ "#UID-3"%string := 3%N; "#UID-10"%string := 10%N ]} ∧
  (λ c, (as_ c Name, as_ c Description, any_ c Alias, any_ c Qualifier,
         ref_ c Where, int_ c CleanupAfter, as_ c OnCleanup, Event c))
    <$> heap rat_killed.2 !! 10%N
    = Some ("a corpse of a rat"%string, "A rat."%string,
            ["#UID-10"; "CORPSE"; "RAT"]%string, ["BROWN"%string], Some 1%N,
            60000000000%Z, "The corpse of a rat turns to dust."%string,
            {[Cleanup]}) ∧
  (λ t, int_ t HealthCurrent) <$> heap rat_killed.2 !! 3%N = Some 10%Z ∧
  quiet (calls rat_killed.2)
    = [Scheduled 10%N Cleanup; Junked 3%N; Prompted 3%N ""%string].
Proof. vm_compute. repeat split. Qed.

(** The same fight with a rat whose name is 82 bytes long. *)
Definition long_name : string := Repeat "r" 82.

Definition rat_not_killed : option unit * world :=
  demo_Hit (mkState 2%N ["#UID-3"%string]) 1 0 (arena long_name).

Lemma rat_kill_due name :
  kill_due demo_Match 10 (mkState 2%N ["#UID-3"%string]) (arena name) 1
    hero 1%N room 3%N (rat name).
Proof.
  unfold kill_due. repeat split; try done.
  exists "#UID-3"%string. split; reflexivity.
Qed.

(** The general statements apply to the two fights: the rat with the short
    name is killed, the rat with the long name is not. *)
Example Hit_kills_rat :
  ∃ w', rat_killed = (Some tt, w') ∧
        killed 1%N [9%N] demo_NewUID (arena "a rat") w' 1%N 3%N room
          (rat "a rat") 0.
Proof.
  apply (Hit_kills demo_Match 10 1%N [9%N] "<i>" "<g>" "<b>" "<c>"
           demo_radius demo_NewUID _ _ 1 0 hero 1%N room 3%N (rat "a rat")
           (rat_kill_due "a rat")); try done; vm_compute; lia.
Qed.

Example Hit_panics_long_name :
  ∃ w', rat_not_killed = (None, w') ∧
        heap w' = heap (arena long_name) ∧
        quiet (calls w') = quiet (calls (arena long_name)).
Proof.
  apply (Hit_panics demo_Match 10 1%N [9%N] "<i>" "<g>" "<b>" "<c>"
           demo_radius demo_NewUID _ _ 1 0 hero 1%N room 3%N (rat long_name)
           (rat_kill_due long_name)).
  vm_compute. lia.
Qed.

(** A player (thing 4) stands in for the rat. *)
Definition rival : Thing :=
  mkThing {[Name := "Tass"%string; TheName := "Tass"%string;
            UTheName := "Tass"%string; Description := "A rival."%string;
            UID := "#UID-4"%string; PromptStyle := "BRIEF"%string]}
    {[Alias := ["#UID-4"; "TASS"]%string]}
    {[HealthCurrent := 2%Z; HealthMaximum := 30%Z]}
    {[Where := 1%N]} ∅ ∅ 1 ∅.

Definition duel : world :=
  mkWorld
    {[1%N := set_Who "#UID-4" 4%N room; 2%N := hero; 4%N := rival;
      9%N := start_room]} [].

Definition rival_killed : option unit * world :=
  demo_Hit (mkState 2%N ["#UID-4"%string]) 0 0 duel.

Example rival_killed_respawns :
  rival_killed.1 = Some tt ∧
  In <$> heap rival_killed.2 !! 1%N
    = Some {[ "#UID-3"%string := 3%N; "#UID-10"%string := 10%N ]} ∧
  Who <$> heap rival_killed.2 !! 1%N = Some {[ "#UID-2"%string := 2%N ]} ∧
  Who <$> heap rival_killed.2 !! 9%N = Some {[ "#UID-4"%string := 4%N ]} ∧
  (λ t, (int_ t HealthCurrent, ref_ t Where)) <$> heap rival_killed.2 !! 4%N
    = Some (1%Z, Some 9%N) ∧
  quiet (calls rival_killed.2)
    = [Scheduled 10%N Cleanup; Subparsed 4%N "$POOF"%string;
       Prompted 4%N "BRIEF"%string].
Proof. vm_compute. repeat split. Qed.

(** C7. [Hit] does not always place a corpse when the kill is due.  The
    hero hits the rat for 3 while the rat's health is 3 of at most 10, in
    a room that neither forbids combat nor is crowded; the rat's name is
    82 bytes long.  [center] then computes a padding of (80 - 82) / 2 = -1,
    [strings.Repeat] panics, and [Hit] stops after its first message: the
    heap is as it was, with no corpse in the room, the rat at health 3 and
    neither junked nor prompted.  With a name of 81 bytes the same hit
    kills the rat. *)
Theorem Hit_long_name_panics :
  (λ t, (int_ t HealthCurrent, int_ t HealthMaximum, String.length (as_ t Name)))
    <$> heap (arena long_name) !! 3%N = Some (3%Z, 10%Z, 82) ∧
  rat_not_killed.1 = None ∧
  heap rat_not_killed.2 = heap (arena long_name) ∧
  quiet (calls rat_not_killed.2) = [] ∧
  (demo_Hit (mkState 2%N ["#UID-3"%string]) 1 0 (arena (Repeat "r" 81))).1
    = Some tt.
Proof. vm_compute. repeat split. Qed.

(** C6. The roles of a round of [Combat] are not swapped with probability
    1/2.  The draw [rand.Int63n(100+1)] has the 101 values 0 to 100; the
    roles are swapped on the 50 values below 50 and kept on the other 51,
    whoever the actor and the opponent are.  For a uniform source the
    probability of a swap is 50/101. *)
Theorem Combat_swap_probability (actor what : ptr) :
  actor ≠ what →
  length (Int63n_values (100 + 1)) = 101 ∧
  length (List.filter (swapped actor what) (Int63n_values (100 + 1))) = 50 ∧
  QArith_base.Qeq (probability (100 + 1) (swapped actor what))
    (QArith_base.Qmake 50 101) ∧
  ¬ QArith_base.Qeq (probability (100 + 1) (swapped actor what))
      (QArith_base.Qmake 1 2).
Proof.
  intros Hne.
  assert (Hsw : ∀ r, swapped actor what r = (r <? 50)%Z).
  { intros r. unfold swapped, Combat_roles.
    destruct (r <? 50)%Z.
    - by apply bool_decide_eq_true.
    - apply bool_decide_eq_false. intros [= ? ?]. congruence. }
  assert (Hcount : length (List.filter (swapped actor what)
                             (Int63n_values (100 + 1))) = 50).
  { rewrite (List.filter_ext _ _ Hsw). reflexivity. }
  unfold probability. rewrite Hcount.
  repeat split; try reflexivity.
  intros Heq. vm_compute in Heq. discriminate.
Qed.

Lemma Combat_swap_probability_witness :
  length (Int63n_values (100 + 1)) = 101 ∧
  length (List.filter (swapped 2%N 3%N) (Int63n_values (100 + 1))) = 50 ∧
  QArith_base.Qeq (probability (100 + 1) (swapped 2%N 3%N))
    (QArith_base.Qmake 50 101) ∧
  ¬ QArith_base.Qeq (probability (100 + 1) (swapped 2%N 3%N))
      (QArith_base.Qmake 1 2).
Proof. apply (Combat_swap_probability 2%N 3%N). done. Defined.

(** The hero hits the rat for 2 when its health is 3. *)
Lemma rat_wound_due :
  wound_due demo_Match 10 (mkState 2%N ["#UID-3"%string]) (arena "a rat") 0
    hero 1%N room 3%N (rat "a rat").
Proof.
  unfold wound_due. repeat split; try done.
  exists "#UID-3"%string. split; reflexivity.
Qed.

Lemma Hit_wounds_witness :
  wound_due demo_Match 10 (mkState 2%N ["#UID-3"%string]) (arena "a rat") 0
    hero 1%N room 3%N (rat "a rat") ∧
  heap (demo_Hit (mkState 2%N ["#UID-3"%string]) 0 0 (arena "a rat")).2
    = <[3%N := add_Event Health (set_Int HealthCurrent 1 (rat "a rat"))]>
        (heap (arena "a rat")) ∧
  quiet (calls (demo_Hit (mkState 2%N ["#UID-3"%string]) 0 0 (arena "a rat")).2)
    = [Scheduled 3%N Health; Prompted 3%N ""%string].
Proof.
  split; [exact rat_wound_due|].
  assert (Hrnd : (0 ≤ 0 ≤ 2)%Z) by lia.
  assert (H63 : (int_ (rat "a rat") HealthCurrent < 2 ^ 63)%Z)
    by (vm_compute; reflexivity).
  destruct (Hit_wounds demo_Match 10 1%N [9%N] "<i>" "<g>" "<b>" "<c>"
              demo_radius demo_NewUID (mkState 2%N ["#UID-3"%string])
              (arena "a rat") 0 0 hero 1%N room 3%N (rat "a rat")
              rat_wound_due Hrnd H63)
    as (_ & Hheap & Hcalls & _).
  split; [exact Hheap|exact Hcalls].
Defined.


Lemma createCorpse_registers_original_witness :
  heap (arena "a rat") !! 3%N = Some (rat "a rat") ∧
  ∃ c ct,
    heap (arena "a rat") !! c = None ∧
    createCorpse demo_NewUID 3%N (arena "a rat") =
      (Some c,
       mkWorld (<[c := ct]>
                  (<[1%N := set_In (as_ ct UID) 3%N room]>
                     (heap (arena "a rat"))))
         (calls (arena "a rat"))) ∧
    is_corpse (demo_NewUID c) (rat "a rat") 1%N ct ∧
    Event ct = ∅ ∧
    length (any_ ct Alias) = S (length (any_ (rat "a rat") Alias)) ∧
    (as_ (rat "a rat") UID ≠ "CORPSE"%string →
     as_ (rat "a rat") UID ∉ any_ ct Alias).
Proof.
  split; [reflexivity|].
  apply (proj2 (createCorpse_registers_original demo_NewUID (arena "a rat")
                  3%N (rat "a rat") eq_refl) 1%N room); done.
Defined.

(** [remainder] as a list difference, for the runs of [Combat]. *)
Definition demo_remainder (l ws : list string) : list string :=
  filter (λ x, x ∉ ws) l.

Definition demo_Combat : state → Z → Z → nat → M unit :=
  state_Combat 1%N [9%N] "<i>" "<g>" "<b>" demo_NewUID demo_remainder.

(** The hero fights the rat; the rat lists the opponents [opps]. *)
Definition fight (opps : list string) : world :=
  mkWorld
    (<[2%N := set_Ref Opponent 3%N hero]>
       (<[3%N := set_Any Opponents opps (rat "a rat")]> (heap (arena "a rat"))))
    [].

Lemma Combat_opponent_gone_witness :
  heap (arena "a rat") !! 2%N = Some hero ∧
  ref_ hero Opponent = None ∧
  ∃ w',
    demo_Combat (mkState 2%N []) 70 0 0 (arena "a rat") = (Some tt, w') ∧
    heap w' = <[2%N := stopped hero]> (heap (arena "a rat")) ∧
    quiet (calls w') = [Scheduled 2%N Action].
Proof.
  split; [reflexivity|]. split; [reflexivity|].
  destruct (Combat_opponent_gone 1%N [9%N] "<i>" "<g>" "<b>" demo_radius
              demo_NewUID demo_remainder (mkState 2%N []) 70 0 0
              (arena "a rat") hero eq_refl (or_introl eq_refl))
    as (w' & Hrun & Hheap & _ & _ & _ & _ & _ & Hcalls).
  exists w'. split; [exact Hrun|]. split; [exact Hheap|exact Hcalls].
Defined.

Lemma Combat_round_survived_witness :
  heap (fight []) !! 2%N = Some (set_Ref Opponent 3%N hero) ∧
  heap (fight []) !! 3%N = Some (set_Any Opponents [] (rat "a rat")) ∧
  ∃ w' dt',
    demo_Combat (mkState 2%N []) 70 0 0 (fight []) = (Some tt, w') ∧
    heap w' !! 3%N = Some dt' ∧ int_ dt' HealthCurrent = 1%Z ∧
    quiet (calls w')
      = [Prompted 3%N ""%string; Scheduled 3%N Health; Scheduled 2%N Combat].
Proof.
  split; [reflexivity|]. split; [reflexivity|].
  assert (Hne : 2%N ≠ 3%N) by done.
  assert (Hrnd : (0 ≤ 0 ≤ 2)%Z) by lia.
  assert (Hh : (2 + 0 < int_ (set_Any Opponents [] (rat "a rat")) HealthCurrent
                < 2 ^ 63)%Z) by (vm_compute; split; reflexivity).
  destruct (Combat_round_survived 1%N [9%N] "<i>" "<g>" "<b>" demo_radius
              demo_NewUID demo_remainder (mkState 2%N []) 70 0 0 (fight [])
              (set_Ref Opponent 3%N hero) 3%N
              (set_Any Opponents [] (rat "a rat")) 1%N
              (set_Any Opponents [] (rat "a rat"))
              eq_refl eq_refl Hne eq_refl eq_refl eq_refl Hrnd eq_refl Hh)
    as (w' & Hrun & _ & _ & (dt' & Hdt & Hhealth) & _ & _ & Hcalls).
  exists w', dt'. split; [exact Hrun|]. split; [exact Hdt|].
  split; [exact Hhealth|exact Hcalls].
Defined.

Lemma Combat_kill_absent_opponent_panics_witness :
  any_ (set_Any Opponents ["#UID-7"%string] (rat "a rat")) Opponents
    = ["#UID-7"%string] ∧
  Who room !! "#UID-7"%string = None ∧
  In room !! "#UID-7"%string = None ∧
  ∃ w',
    demo_Combat (mkState 2%N []) 70 1 0 (fight ["#UID-7"%string]) = (None, w') ∧
    heap w'
      = <[3%N := set_Int HealthCurrent 0
                   (set_Any Opponents ["#UID-7"%string] (rat "a rat"))]>
          (heap (fight ["#UID-7"%string])) ∧
    quiet (calls w') = [].
Proof.
  split; [reflexivity|]. split; [reflexivity|]. split; [reflexivity|].
  assert (H23 : 2%N ≠ 3%N) by done.
  assert (H21 : 2%N ≠ 1%N) by done.
  assert (H31 : 3%N ≠ 1%N) by done.
  assert (Hh : (- 2 ^ 63
                ≤ int_ (set_Any Opponents ["#UID-7"%string] (rat "a rat"))
                    HealthCurrent - (2 + 1) ≤ 0)%Z)
    by (vm_compute; split; discriminate).
  exact (Combat_kill_absent_opponent_panics 1%N [9%N] "<i>" "<g>" "<b>"
           demo_NewUID demo_remainder (mkState 2%N []) 70 1 0
           (fight ["#UID-7"%string]) (set_Ref Opponent 3%N hero) 3%N
           (set_Any Opponents ["#UID-7"%string] (rat "a rat")) 1%N room
           (set_Any Opponents ["#UID-7"%string] (rat "a rat"))
           "#UID-7"%string []
           eq_refl eq_refl H23 eq_refl eq_refl eq_refl eq_refl H21 H31
           eq_refl Hh eq_refl eq_refl eq_refl).
Defined.

End Core.

(** ** Package recordjar: reading a record jar ([recordjar.go],
    src/unnamed/part_003) *)

Module Recordjar.

(** A [Record] maps field names to data, a [Jar] is a slice of records.
    A [[]byte] is modelled, like a Go string, as a string of bytes. *)
Abbreviation Record := (gmap string string).
Abbreviation Jar := (list Record).

Definition FTSection : string := "FREE TEXT".
Definition comment : string := "//".
Definition rSeparator : string := "%%".
Definition LF : string := String "010"%char EmptyString.

(** What the loop of [Read] carries from line to line: the jar [j], the
    record [r] being filled and the [field] being processed. *)
Record reading := mkReading {
  jar : Jar;
  record : Record;
  field : string
}.

Section Read.

(** The Go library as [Read] uses it: [strings.ToUpper] and
    [bytes.ToUpper]; [bytes.TrimRightFunc(line, unicode.IsSpace)];
    [bytes.IndexFunc(line, unicode.IsSpace) == 0]; and the submatches 1
    and 2 of [splitLine.FindSubmatch(line)], the field name and the data
    of a line.  The expression matches every line, so the two submatches
    are always there. *)
Variable strings_ToUpper : string → string.
Variable bytes_ToUpper : string → string.
Variable TrimRight : string → string.
Variable startsWS : string → bool.
Variable splitLine : string → string * string.

(** The helper [mergeFreeText], on the record [r] for the field name
    [freetext]. *)
Definition mergeFreeText (freetext : string) (r : Record) : Record :=
  match r !! FTSection with
  | Some _ =>
      let r :=
        match r !! freetext with
        | Some v =>
            let r := <[freetext := (v +:+ LF)%string]> r in
            <[freetext := (default ""%string (r !! freetext)
                           +:+ default ""%string (r !! FTSection))%string]> r
        | None => <[freetext := default ""%string (r !! FTSection)]> r
        end in
      delete FTSection r
  | None => r
  end.

(** The record is added to the jar if it has a field: the step shared by
    the record separator and the end of the input. *)
Definition close_record (freetext : string) (st : reading) : reading :=
  if bool_decide (record st ≠ ∅) then
    mkReading (jar st ++ [mergeFreeText freetext (record st)]) ∅ (field st)
  else st.

(** The body of the loop for a line that [ReadBytes] has returned, from
    the trimming on. *)
Definition process (freetext : string) (line : string) (st : reading)
    : reading :=
  let line := TrimRight line in
  let startWS := startsWS line in
  let tokens := splitLine line in
  let name := bytes_ToUpper tokens.1 in
  let data := tokens.2 in
  let noName := bool_decide (name = ""%string) in
  let noData := bool_decide (data = ""%string) in
  let noLine := noName && noData in
  (* comments outside of the free text section *)
  if noName && negb (bool_decide (field st = FTSection))
     && String.prefix comment data
  then st
  (* the record separator *)
  else if noName && bool_decide (data = rSeparator)
          && (negb (bool_decide (field st = FTSection))
              || (bool_decide (field st = FTSection) && negb startWS))
  then
    let st := close_record freetext st in
    mkReading (jar st) (record st) ""%string
  else
    let field :=
      if negb noName && negb (bool_decide (field st = FTSection))
      then name else field st in
    (* an empty line starts the free text section *)
    if noLine && negb (bool_decide (field = FTSection)) then
      mkReading (jar st)
        (if bool_decide (field = ""%string)
         then <[FTSection := ""%string]> (record st) else record st)
        FTSection
    (* free text *)
    else if bool_decide (field = FTSection) || bool_decide (field = ""%string)
    then
      let r :=
        match record st !! FTSection with
        | Some v => <[FTSection := (v +:+ LF)%string]> (record st)
        | None => record st
        end in
      mkReading (jar st)
        (<[FTSection := (default ""%string (r !! FTSection) +:+ line)%string]> r)
        FTSection
    (* a field, or the continuation of one *)
    else
      let r :=
        match record st !! field with
        | Some v => <[field := (v +:+ " ")%string]> (record st)
        | None => record st
        end in
      mkReading (jar st)
        (<[field := (default ""%string (r !! field) +:+ data)%string]> r)
        field.

(** The loop [for err == nil] over the bytes [rest] still to be read, with
    the bytes [line] of the current line read so far.  [ReadBytes] returns
    a line with its newline, or, at the end of the input, what is left
    with [io.EOF]; if nothing is left the body is skipped. *)
Fixpoint Read_loop (freetext : string) (line : string) (rest : string)
    (st : reading) : reading :=
  match rest with
  | EmptyString =>
      if bool_decide (line = ""%string) then st else process freetext line st
  | String c rest' =>
      if (c =? "010")%char
      then Read_loop freetext ""%string rest'
             (process freetext (line +:+ String c EmptyString) st)
      else Read_loop freetext (line +:+ String c EmptyString) rest' st
  end.

(** [Read], for a reader that hands out the bytes [input] and then
    [io.EOF]. *)
Definition Read (input : string) (freetext : string) : Jar :=
  let freetext := strings_ToUpper freetext in
  let st := Read_loop freetext ""%string input (mkReading [] ∅ ""%string) in
  jar (close_record freetext st).

(** The lines of a text, each ended by a newline. *)
Definition unlines (ls : list string) : string :=
  foldr (λ l s, (l +:+ LF +:+ s)%string) ""%string ls.

(** A line holds no newline. *)
Fixpoint no_LF (l : string) : Prop :=
  match l with
  | EmptyString => True
  | String c l' => c ≠ "010"%char ∧ no_LF l'
  end.

(** *** The records of a jar *)

(** A record as [Read] adds it to the jar: it has a field, and neither the
    internal free text key nor the empty name is one of its field names. *)
Definition well_formed (r : Record) : Prop :=
  r ≠ ∅ ∧ r !! FTSection = None ∧ r !! ""%string = None.

Lemma has_field (r : Record) (k : string) : is_Some (r !! k) → r ≠ ∅.
Proof. intros [v Hk] ->. by rewrite lookup_empty in Hk. Qed.

Lemma mergeFreeText_well_formed freetext r :
  freetext ≠ FTSection → freetext ≠ ""%string →
  r ≠ ∅ → r !! ""%string = None →
  well_formed (mergeFreeText freetext r).
Proof.
  intros Hft Hne Hr He. unfold mergeFreeText, well_formed.
  destruct (r !! FTSection) as [ft|] eqn:Hfts.
  - destruct (r !! freetext) as [v|] eqn:Hv; cbv zeta.
    + split; [|split].
      * apply (has_field _ freetext).
        by rewrite lookup_delete_ne, lookup_insert_eq.
      * apply lookup_delete_eq.
      * rewrite lookup_delete_ne by done.
        by rewrite !lookup_insert_ne by done.
    + split; [|split].
      * apply (has_field _ freetext).
        by rewrite lookup_delete_ne, lookup_insert_eq.
      * apply lookup_delete_eq.
      * rewrite lookup_delete_ne by done.
        by rewrite lookup_insert_ne by done.
  - done.
Qed.

(** What [process] keeps: the records of the jar are well formed, and the
    record being filled has no field without a name. *)
Definition reading_ok (st : reading) : Prop :=
  Forall well_formed (jar st) ∧ record st !! ""%string = None.

Lemma close_record_ok freetext st :
  freetext ≠ FTSection → freetext ≠ ""%string →
  reading_ok st → reading_ok (close_record freetext st).
Proof.
  intros Hft Hne [Hj Hr]. unfold close_record.
  destruct (bool_decide (record st ≠ ∅)) eqn:Hd; [|done].
  apply bool_decide_eq_true in Hd. split; simpl; [|done].
  apply Forall_app. split; [done|]. constructor; [|done].
  by apply mergeFreeText_well_formed.
Qed.

Lemma process_ok freetext line st :
  freetext ≠ FTSection → freetext ≠ ""%string →
  reading_ok st → reading_ok (process freetext line st).
Proof.
  intros Hft Hne Hok. unfold process. cbv zeta.
  destruct (_ && _ && String.prefix _ _); [done|].
  destruct (_ && _ && (_ || _)).
  { destruct (close_record_ok freetext st Hft Hne Hok) as [Hj Hr]. by split. }
  destruct Hok as [Hj Hr].
  set (f := if negb (bool_decide (bytes_ToUpper (splitLine (TrimRight line)).1
                                   = ""%string))
               && negb (bool_decide (field st = FTSection))
            then bytes_ToUpper (splitLine (TrimRight line)).1 else field st).
  destruct (_ && negb (bool_decide (f = FTSection))).
  { split; simpl; [done|].
    destruct (bool_decide (f = ""%string)); [|done].
    by rewrite lookup_insert_ne. }
  destruct (bool_decide (f = FTSection) || bool_decide (f = ""%string)) eqn:Hf.
  { split; simpl; [done|]. rewrite lookup_insert_ne by done.
    destruct (record st !! FTSection); [|done].
    by rewrite lookup_insert_ne. }
  apply orb_false_iff in Hf as [Hf1 Hf2].
  apply bool_decide_eq_false in Hf1, Hf2.
  split; simpl; [done|]. rewrite lookup_insert_ne by done.
  destruct (record st !! f); [|done].
  by rewrite lookup_insert_ne.
Qed.

Lemma Read_loop_ok freetext rest : ∀ line st,
  freetext ≠ FTSection → freetext ≠ ""%string →
  reading_ok st → reading_ok (Read_loop freetext line rest st).
Proof.
  induction rest as [|c rest IH]; intros line st Hft Hne Hok; simpl.
  - destruct (bool_decide (line = ""%string)); [done|].
    by apply process_ok.
  - destruct (c =? "010")%char; apply IH; try done.
    by apply process_ok.
Qed.

(** X20. Every record of the jar that [Read] returns has at least one
    field, and neither the internal key "FREE TEXT" nor the empty string
    is among its field names, whatever the input, as long as the name
    given for the free text section is, in upper case, neither of the
    two. *)
Theorem Read_records_well_formed (input freetext : string) :
  strings_ToUpper freetext ≠ FTSection →
  strings_ToUpper freetext ≠ ""%string →
  Forall well_formed (Read input freetext).
Proof.
  intros Hft Hne. unfold Read. cbv zeta.
  apply close_record_ok; [done|done|].
  apply Read_loop_ok; [done|done|].
  split; [constructor|apply lookup_empty].
Qed.

(** *** Records are read one by one *)

(** The jar is only ever added to at its end. *)
Definition prepend (j0 : Jar) (st : reading) : reading :=
  mkReading (j0 ++ jar st) (record st) (field st).

Lemma close_record_prepend freetext j0 st :
  close_record freetext (prepend j0 st) = prepend j0 (close_record freetext st).
Proof.
  unfold close_record, prepend. simpl.
  destruct (bool_decide (record st ≠ ∅)); simpl; [|done].
  by rewrite app_assoc.
Qed.

Lemma process_prepend freetext line j0 st :
  process freetext line (prepend j0 st) = prepend j0 (process freetext line st).
Proof.
  unfold process. cbv zeta. rewrite close_record_prepend.
  cbn [prepend jar record field].
  destruct (_ && _ && String.prefix _ _); [done|].
  destruct (_ && _ && (_ || _)); [done|].
  destruct (_ && negb (bool_decide (_ = FTSection))); [done|].
  by destruct (bool_decide (_ = FTSection) || bool_decide (_ = ""%string)).
Qed.

Lemma Read_loop_prepend freetext j0 rest : ∀ line st,
  Read_loop freetext line rest (prepend j0 st)
  = prepend j0 (Read_loop freetext line rest st).
Proof.
  induction rest as [|c rest IH]; intros line st; simpl.
  - destruct (bool_decide (line = ""%string)); [done|].
    apply process_prepend.
  - destruct (c =? "010")%char; [|apply IH].
    by rewrite process_prepend, IH.
Qed.

(** After a newline the loop starts on a new line. *)
Lemma Read_loop_after_LF freetext p : ∀ line st rest,
  Read_loop freetext line ((p +:+ LF) +:+ rest) st
  = Read_loop freetext ""%string rest (Read_loop freetext line (p +:+ LF) st).
Proof.
  induction p as [|c p IH]; intros line st rest.
  - done.
  - rewrite !State.append_cons. cbn [Read_loop].
    destruct (c =? "010")%char; apply IH.
Qed.

(** The record separator on a line of its own, not indented. *)
Definition separator_line : Prop :=
  TrimRight (rSeparator +:+ LF) = rSeparator ∧
  startsWS rSeparator = false ∧
  splitLine rSeparator = (""%string, rSeparator) ∧
  bytes_ToUpper ""%string = ""%string.

Lemma process_separator freetext st :
  separator_line →
  process freetext (rSeparator +:+ LF) st
  = mkReading (jar (close_record freetext st)) ∅ ""%string.
Proof.
  intros (Htrim & Hws & Hsplit & Hup). unfold process. cbv zeta.
  rewrite Htrim, Hsplit, Hws. cbn [fst snd]. rewrite Hup.
  rewrite (bool_decide_eq_true_2 (""%string = ""%string)) by done.
  rewrite (bool_decide_eq_true_2 (rSeparator = rSeparator)) by done.
  change (String.prefix comment rSeparator) with false.
  rewrite andb_false_r. cbn [andb negb].
  rewrite andb_true_r, orb_negb_l.
  f_equal. unfold close_record.
  destruct (bool_decide (record st ≠ ∅)) eqn:Hd; [done|].
  apply bool_decide_eq_false in Hd. by apply dec_stable in Hd.
Qed.

Lemma Read_loop_separator freetext st :
  Read_loop freetext ""%string (rSeparator +:+ LF) st
  = process freetext (rSeparator +:+ LF) st.
Proof. reflexivity. Qed.

(** X21. A record separator line cuts the input in two that are read
    independently: when the text before the line is empty or ends in a
    newline, the jar of the whole input is the jar of the text before the
    separator followed by the jar of the text after it.  [separator_line]
    says what the library functions return for the line "%%". *)
Theorem Read_separator (in1 in2 freetext : string) :
  separator_line →
  in1 = ""%string ∨ (∃ p, in1 = (p +:+ LF)%string) →
  Read (in1 +:+ rSeparator +:+ LF +:+ in2) freetext
  = Read in1 freetext ++ Read in2 freetext.
Proof.
  intros Hsep Hin1. unfold Read. cbv zeta.
  set (ft := strings_ToUpper freetext).
  set (st0 := mkReading [] ∅ ""%string).
  assert (Hcut : Read_loop ft ""%string
                   (in1 +:+ rSeparator +:+ LF +:+ in2) st0
                 = Read_loop ft ""%string ((rSeparator +:+ LF) +:+ in2)
                     (Read_loop ft ""%string in1 st0)).
  { destruct Hin1 as [->|[p ->]]; [by rewrite State.append_assoc|].
    by rewrite <-Read_loop_after_LF, !State.append_assoc. }
  rewrite Hcut, Read_loop_after_LF.
  rewrite (Read_loop_separator ft).
  rewrite process_separator by done.
  set (j1 := jar (close_record ft (Read_loop ft ""%string in1 st0))).
  assert (Hp : mkReading j1 ∅ ""%string = prepend j1 st0)
    by (unfold prepend, st0; simpl; by rewrite app_nil_r).
  by rewrite Hp, Read_loop_prepend, close_record_prepend.
Qed.

(** *** The fields and the free text of a record *)

(** What the library functions make of a line [l] of the input: the text
    of the line, its field name and its data. *)
Definition text_of (l : string) : string := TrimRight (l +:+ LF).
Definition name_of (l : string) : string :=
  bytes_ToUpper (splitLine (text_of l)).1.
Definition data_of (l : string) : string := (splitLine (text_of l)).2.

(** A comment line, and a line without name and data. *)
Definition is_comment (l : string) : bool :=
  bool_decide (name_of l = ""%string) && String.prefix comment (data_of l).

(** The lines of the fields of a record, when the field [f] is the one
    being processed: comments, lines with a field name, and, once there
    is a field, lines that continue it. *)
Fixpoint field_lines (f : string) (ls : list string) : Prop :=
  match ls with
  | [] => True
  | l :: ls =>
      no_LF l ∧
      if is_comment l then field_lines f ls
      else if bool_decide (name_of l = ""%string) then
        f ≠ ""%string ∧ data_of l ≠ ""%string ∧ data_of l ≠ rSeparator ∧
        field_lines f ls
      else name_of l ≠ FTSection ∧ field_lines (name_of l) ls
  end.

(** Data is added to a field after a space, if the field is there. *)
Definition add_field (r : Record) (name data : string) : Record :=
  <[name := match r !! name with
            | Some v => (v +:+ " " +:+ data)%string
            | None => data
            end]> r.

(** The record that the lines of the fields make, and the last field. *)
Fixpoint fields (ls : list string) (r : Record) (f : string) : Record * string :=
  match ls with
  | [] => (r, f)
  | l :: ls =>
      if is_comment l then fields ls r f
      else
        let f := if bool_decide (name_of l = ""%string) then f else name_of l in
        fields ls (add_field r f (data_of l)) f
  end.

Lemma Read_loop_line freetext l : ∀ line st rest,
  no_LF l →
  Read_loop freetext line (l +:+ LF +:+ rest) st
  = Read_loop freetext ""%string rest
      (process freetext ((line +:+ l) +:+ LF) st).
Proof.
  induction l as [|c l IH]; intros line st rest Hl.
  - rewrite State.append_empty_r. reflexivity.
  - destruct Hl as [Hc Hl]. rewrite State.append_cons. cbn [Read_loop].
    destruct (Ascii.eqb_spec c "010"); [done|].
    rewrite (IH _ _ _ Hl), (State.append_assoc line (String c "") l).
    reflexivity.
Qed.

Lemma Read_loop_unlines freetext ls : ∀ st rest,
  Forall no_LF ls →
  Read_loop freetext ""%string (unlines ls +:+ rest) st
  = Read_loop freetext ""%string rest
      (foldl (λ st l, process freetext (l +:+ LF) st) st ls).
Proof.
  induction ls as [|l ls IH]; intros st rest Hls; [done|].
  apply Forall_cons in Hls as [Hl Hls]. cbn [unlines foldr foldl].
  fold (unlines ls). rewrite !State.append_assoc, Read_loop_line by done.
  by rewrite IH.
Qed.

Lemma field_lines_no_LF f ls : field_lines f ls → Forall no_LF ls.
Proof.
  revert f. induction ls as [|l ls IH]; intros f; [constructor|].
  cbn [field_lines]. intros [Hl Hrest]. constructor; [done|].
  destruct (is_comment l); [by eapply IH|].
  destruct (bool_decide (name_of l = ""%string)).
  - destruct Hrest as (_ & _ & _ & Hrest). by eapply IH.
  - destruct Hrest as (_ & Hrest). by eapply IH.
Qed.

(** The lines of the fields, read one after the other. *)
Lemma process_field_lines freetext ls : ∀ st,
  field st ≠ FTSection →
  field_lines (field st) ls →
  foldl (λ st l, process freetext (l +:+ LF) st) st ls
  = mkReading (jar st) (fields ls (record st) (field st)).1
      (fields ls (record st) (field st)).2.
Proof.
  induction ls as [|l ls IH]; intros st Hf Hls.
  { by destruct st. }
  cbn [foldl fields field_lines] in *. destruct Hls as [Hl Hls].
  assert (Hstep : process freetext (l +:+ LF) st =
            if is_comment l then st
            else
              let f := if bool_decide (name_of l = ""%string) then field st
                       else name_of l in
              mkReading (jar st) (add_field (record st) f (data_of l)) f).
  { unfold process. cbv zeta.
    fold (text_of l). fold (name_of l). fold (data_of l).
    rewrite (bool_decide_eq_false_2 (field st = FTSection)) by done.
    cbn [negb]. rewrite andb_true_r.
    unfold is_comment in *.
    destruct (bool_decide (name_of l = ""%string)) eqn:Hn; cbn [andb negb].
    - destruct (String.prefix comment (data_of l)); [done|].
      destruct Hls as (Hf' & Hd & Hsep & _).
      rewrite (bool_decide_eq_false_2 (data_of l = rSeparator)) by done.
      rewrite (bool_decide_eq_false_2 (data_of l = ""%string)) by done.
      rewrite (bool_decide_eq_false_2 (field st = FTSection)) by done.
      rewrite (bool_decide_eq_false_2 (field st = ""%string)) by done.
      cbn [andb orb]. unfold add_field. f_equal.
      destruct (record st !! field st) as [v|] eqn:Hv.
      + rewrite lookup_insert_eq, insert_insert_eq. simpl.
        by rewrite State.append_assoc.
      + by rewrite Hv.
    - apply bool_decide_eq_false in Hn. destruct Hls as (Hft & _).
      rewrite (bool_decide_eq_false_2 (name_of l = FTSection)) by done.
      rewrite (bool_decide_eq_false_2 (name_of l = ""%string)) by done.
      cbn [andb orb]. unfold add_field. f_equal.
      destruct (record st !! name_of l) as [v|] eqn:Hv.
      + rewrite lookup_insert_eq, insert_insert_eq. simpl.
        by rewrite State.append_assoc.
      + by rewrite Hv. }
  rewrite Hstep. destruct (is_comment l); [by apply IH|].
  cbv zeta. destruct (bool_decide (name_of l = ""%string)) eqn:Hn.
  - destruct Hls as (_ & _ & _ & Hls). by rewrite IH.
  - destruct Hls as (Hft & Hls). by rewrite IH.
Qed.

(** No field of the fields section has the internal free text key. *)
Lemma fields_no_free_text ls : ∀ r f,
  field_lines f ls → f ≠ FTSection → r !! FTSection = None →
  (fields ls r f).1 !! FTSection = None ∧ (fields ls r f).2 ≠ FTSection.
Proof.
  induction ls as [|l ls IH]; intros r f Hls Hf Hr; [done|].
  cbn [fields field_lines] in *. destruct Hls as [_ Hls].
  destruct (is_comment l); [by apply IH|].
  cbv zeta. destruct (bool_decide (name_of l = ""%string)).
  - destruct Hls as (_ & _ & _ & Hls). apply IH; [done|done|].
    unfold add_field. by rewrite lookup_insert_ne.
  - destruct Hls as (Hft & Hls). apply IH; [done|done|].
    unfold add_field. by rewrite lookup_insert_ne.
Qed.

Lemma mergeFreeText_no_free_text freetext r :
  r !! FTSection = None → mergeFreeText freetext r = r.
Proof. intros Hr. unfold mergeFreeText. by rewrite Hr. Qed.

(** X22. The fields of a record.  An input of comment lines, lines with a
    field name and lines that continue the field before them is read as
    one record (or none, if no line has data for a field): the data of a
    line goes to the field named on it, in upper case, or else to the
    field of the line before; data for a field that is there already is
    added after a space; comment lines are left out. *)
Theorem Read_fields (ls : list string) (freetext : string) :
  field_lines ""%string ls →
  Read (unlines ls) freetext
  = if bool_decide ((fields ls ∅ ""%string).1 = ∅) then []
    else [(fields ls ∅ ""%string).1].
Proof.
  intros Hls. unfold Read. cbv zeta.
  pose proof (Read_loop_unlines (strings_ToUpper freetext) ls
                (mkReading [] ∅ ""%string) ""%string
                (field_lines_no_LF _ _ Hls)) as Hrun.
  rewrite State.append_empty_r in Hrun. rewrite Hrun.
  rewrite process_field_lines by done. cbn [jar record field].
  unfold close_record. cbn [jar record field].
  destruct (fields_no_free_text ls ∅ ""%string Hls) as [Hnft _]; [done..|].
  destruct (decide ((fields ls ∅ ""%string).1 = ∅)) as [He|He].
  - rewrite bool_decide_eq_false_2 by (by intros ?).
    by rewrite bool_decide_eq_true_2.
  - rewrite bool_decide_eq_true_2 by done.
    rewrite bool_decide_eq_false_2 by done. simpl.
    by rewrite mergeFreeText_no_free_text.
Qed.







Lemma fields_none ls : ∀ r f,
  field_lines f ls → (fields ls r f).2 = ""%string →
  f = ""%string ∧ (fields ls r f).1 = r.
Proof.
  induction ls as [|l ls IH]; intros r f Hls Hlast; [done|].
  cbn [fields field_lines] in *. destruct Hls as [_ Hls].
  destruct (is_comment l); [by apply IH|].
  cbv zeta in *. destruct (bool_decide (name_of l = ""%string)) eqn:Hn.
  - destruct Hls as (Hf & _ & _ & Hls).
    by destruct (IH _ _ Hls Hlast) as [? _].
  - destruct Hls as (_ & Hls). apply bool_decide_eq_false in Hn.
    by destruct (IH _ _ Hls Hlast) as [? _].
Qed.


End Read.

(** *** Concrete runs, on ASCII text *)

(** The white space of the regular expression, [\s]: tab, newline, form
    feed, carriage return and space.  [unicode.IsSpace] has the vertical
    tab besides ([State.isSpace]). *)
Definition isSpaceRE (c : ascii) : bool :=
  match c with
  | "009"%char | "010"%char | "012"%char | "013"%char | " "%char => true
  | _ => false
  end.

Fixpoint ascii_TrimRight (s : string) : string :=
  match s with
  | EmptyString => EmptyString
  | String c r =>
      let r := ascii_TrimRight r in
      if bool_decide (r = ""%string) && State.isSpace c then ""%string
      else String c r
  end.

Definition ascii_startsWS (s : string) : bool :=
  match s with
  | String c _ => State.isSpace c
  | EmptyString => false
  end.

Fixpoint dropWS (s : string) : string :=
  match s with
  | String c r => if isSpaceRE c then dropWS r else s
  | EmptyString => EmptyString
  end.

(** The longest run of bytes that are neither white space nor a colon,
    and what follows it. *)
Fixpoint span_name (s : string) : string * string :=
  match s with
  | EmptyString => (EmptyString, EmptyString)
  | String c r =>
      if isSpaceRE c || (c =? ":")%char then (EmptyString, s)
      else (String c (span_name r).1, (span_name r).2)
  end.

(** The submatches of [splitLine]: after white space, a name of one or
    more bytes that are neither white space nor a colon, if a colon
    follows it; then, after white space, the rest of the line. *)
Definition ascii_splitLine (line : string) : string * string :=
  let '(name, rest) := span_name (dropWS line) in
  match name, rest with
  | String _ _, String c rest =>
      if (c =? ":")%char then (name, dropWS rest)
      else (EmptyString, dropWS line)
  | _, _ => (EmptyString, dropWS line)
  end.

Definition demo_Read : string → string → Jar :=
  Read State.ascii_ToUpper State.ascii_ToUpper ascii_TrimRight ascii_startsWS
    ascii_splitLine.

(** A jar of two records; the first has a comment, a field that is
    continued, and free text after its fields. *)
Definition frog_lines : list string :=
  ["// The pond"; "Name: a frog"; "Aliases: FROG"; "  GREEN";
   "Description: A small frog."]%string.

Definition frog_text : list string :=
  ["It sits"; "  here: on a leaf."; " %%"]%string.

Definition pond : string :=
  (unlines (frog_lines ++ ""%string :: frog_text)
   +:+ rSeparator +:+ LF +:+ "name: a rat")%string.

Example Read_pond :
  demo_Read pond "description"
  = [ {[ "NAME"%string := "a frog"%string;
         "ALIASES"%string := "FROG GREEN"%string;
         "DESCRIPTION"%string :=
           ("A small frog." +:+ LF +:+ "It sits" +:+ LF
            +:+ "  here: on a leaf." +:+ LF +:+ " %%")%string ]};
      {[ "NAME"%string := "a rat"%string ]} ].
Proof. vm_compute. reflexivity. Qed.

Lemma Read_records_well_formed_witness :
  State.ascii_ToUpper "description" ≠ FTSection ∧
  Forall well_formed (demo_Read pond "description").
Proof.
  assert (H1 : State.ascii_ToUpper "description" ≠ FTSection) by done.
  assert (H2 : State.ascii_ToUpper "description" ≠ ""%string) by done.
  split; [exact H1|].
  exact (Read_records_well_formed State.ascii_ToUpper State.ascii_ToUpper
           ascii_TrimRight ascii_startsWS ascii_splitLine pond "description"
           H1 H2).
Defined.

Lemma ascii_separator_line :
  separator_line State.ascii_ToUpper ascii_TrimRight ascii_startsWS
    ascii_splitLine.
Proof. repeat split. Qed.

Lemma Read_separator_witness :
  demo_Read (unlines frog_lines +:+ rSeparator +:+ LF +:+ "name: a rat")
    "description"
  = demo_Read (unlines frog_lines) "description"
    ++ demo_Read "name: a rat" "description".
Proof.
  apply (Read_separator State.ascii_ToUpper State.ascii_ToUpper
           ascii_TrimRight ascii_startsWS ascii_splitLine).
  - exact ascii_separator_line.
  - right. by exists ("// The pond" +:+ LF +:+ "Name: a frog" +:+ LF
                      +:+ "Aliases: FROG" +:+ LF +:+ "  GREEN" +:+ LF
                      +:+ "Description: A small frog.")%string.
Defined.

Lemma frog_field_lines :
  field_lines State.ascii_ToUpper ascii_TrimRight ascii_splitLine
    ""%string frog_lines.
Proof. vm_compute. repeat split; discriminate. Qed.

Lemma Read_fields_witness :
  field_lines State.ascii_ToUpper ascii_TrimRight ascii_splitLine
    ""%string frog_lines ∧
  demo_Read (unlines frog_lines) "description"
  = [ {[ "NAME"%string := "a frog"%string;
         "ALIASES"%string := "FROG GREEN"%string;
         "DESCRIPTION"%string := "A small frog."%string ]} ].
Proof.
  split; [exact frog_field_lines|]. unfold demo_Read.
  rewrite (Read_fields State.ascii_ToUpper State.ascii_ToUpper
             ascii_TrimRight ascii_startsWS ascii_splitLine frog_lines
             "description" frog_field_lines).
  vm_compute. reflexivity.
Defined.



End Recordjar.
